(** * Bayesian least squares and posterior sampling (dipy/reconst/utils.py)

    A shallow embedding of [probabilistic_least_squares] and
    [sample_coef_posterior] together with the numpy operations they call.

    Numbers.  numpy works in float64; the embedding works in exact real
    arithmetic ([R]): rounding is not modelled.  The two divisions of the
    source can divide by zero, which numpy answers with [inf] or [nan]
    instead of raising; their results therefore live in [float], the reals
    extended with the IEEE special values.  Inputs are finite reals.

    Where an outcome depends on the numbers themselves (a pivot that is
    zero before rounding and not after, an infinite entry in an argument),
    the two functions are also given over float64 ([Numeric], with the
    arithmetic [Numeric.binary64]), and the outcome is computed there.

    Arrays.  An [ndarray] is a shape and its elements in row-major order,
    as numpy stores a C-contiguous array.  The design matrix and the
    regularization matrix are two-dimensional ([matrix]), as in the data
    model of the specification; observations, means and precisions are
    arrays of any shape.

    Exceptions.  Python exceptions are values of [exn]; a computation that
    may raise returns a [result]. *)

From Stdlib Require Import Reals Lra Lia List ZArith Bool PeanoNat Permutation.
From Stdlib Require Floats.
Import ListNotations.

Set Implicit Arguments.
Local Open Scope R_scope.

(** ** Exceptions and the result monad *)

Inductive value_error :=
| too_many_values_to_unpack
| cannot_reshape
| negative_dimensions
| operands_not_broadcast
| einsum_operand_mismatch
| solve_core_dimension_mismatch.

Inductive linalg_error :=
| Singular_matrix
| Matrix_is_not_positive_definite
| Last_2_dimensions_must_be_square.

Inductive exn :=
| ValueError (why : value_error)
| LinAlgError (why : linalg_error).

Inductive result (A : Type) :=
| Ok (a : A)
| Raise (e : exn).
Arguments Ok {A} a.
Arguments Raise {A} e.

Definition bind {A B} (m : result A) (k : A -> result B) : result B :=
  match m with
  | Ok a => k a
  | Raise e => Raise e
  end.

Notation "x <- m ;; k" := (bind m (fun x => k))
  (at level 61, m at next level, right associativity).
Notation "' p <- m ;; k" := (bind m (fun x => let p := x in k))
  (at level 61, p pattern, m at next level, right associativity).

(** ** float64 values that need not be finite *)

Inductive float :=
| Fin (x : R)
| PInf
| NInf
| NaN.

(** IEEE-754 division without rounding.  A zero divisor is the positive
    zero: the divisors of the source are sums of squares and quotients of
    sums of squares. *)
Definition fdiv (a b : float) : float :=
  match a, b with
  | NaN, _ | _, NaN => NaN
  | Fin x, Fin y =>
      if Req_dec_T y 0 then
        if Req_dec_T x 0 then NaN
        else if Rlt_dec 0 x then PInf else NInf
      else Fin (x / y)
  | Fin _, (PInf | NInf) => Fin 0
  | PInf, Fin y => if Rlt_dec y 0 then NInf else PInf
  | NInf, Fin y => if Rlt_dec y 0 then PInf else NInf
  | (PInf | NInf), (PInf | NInf) => NaN
  end.

(** ** Lists *)

Fixpoint zipWith {A B C} (f : A -> B -> C) (xs : list A) (ys : list B) : list C :=
  match xs, ys with
  | x :: xs', y :: ys' => f x y :: zipWith f xs' ys'
  | _, _ => []
  end.

Definition product (s : list nat) : nat := fold_right Nat.mul 1%nat s.

(** [slice i c d] is the [i]-th block of [c] consecutive elements of [d]. *)
Definition slice {A} (i c : nat) (d : list A) : list A :=
  firstn c (skipn (i * c) d).

(** [chunks n c d]: the first [n] blocks of [c] elements of [d]. *)
Definition chunks {A} (n c : nat) (d : list A) : list (list A) :=
  map (fun i => slice i c d) (seq 0 n).

(** ** Vectors and matrices over the reals *)

Abbreviation vec := (list R) (only parsing).

Definition zeros (n : nat) : vec := repeat 0 n.
Definition scale (a : R) (v : vec) : vec := map (Rmult a) v.
Definition vadd (u v : vec) : vec := zipWith Rplus u v.
Definition vsub (u v : vec) : vec := zipWith Rminus u v.
Definition vsum (v : vec) : R := fold_right Rplus 0 v.

Fixpoint dot (u v : vec) : R :=
  match u, v with
  | a :: u', b :: v' => a * b + dot u' v'
  | _, _ => 0
  end.

(** [lc k a X]: the combination [sum_j a_j * X_j] of the rows of [X], rows
    of length [k]. *)
Fixpoint lc (k : nat) (a : vec) (X : list vec) : vec :=
  match a, X with
  | aj :: a', x :: X' => vadd (scale aj x) (lc k a' X')
  | _, _ => zeros k
  end.

Definition matvec (M : list vec) (v : vec) : vec := map (fun r => dot r v) M.

(** Rows of [A * B], [B] with rows of length [k]. *)
Definition matmul (k : nat) (A B : list vec) : list vec :=
  map (fun a => lc k a B) A.

(** The columns of [M], which has [c] columns. *)
Fixpoint transpose (c : nat) (M : list vec) : list vec :=
  match c with
  | O => []
  | S c' => map (hd 0) M :: transpose c' (map (@tl R) M)
  end.

Definition eye_rows (n : nat) : list vec :=
  map (fun i => map (fun j => if Nat.eqb i j then 1 else 0) (seq 0 n)) (seq 0 n).

(** ** numpy arrays *)

Record ndarray (A : Type) := mk_ndarray { shape : list nat; data : list A }.
Arguments mk_ndarray {A} shape data.

Definition ndim {A} (a : ndarray A) : nat := length (shape a).
Definition size {A} (a : ndarray A) : nat := product (shape a).

(** The data of a well-formed array fills its shape. *)
Definition wf {A} (a : ndarray A) : Prop := length (data a) = product (shape a).

(** A two-dimensional array of finite numbers, by rows.  A matrix with
    infinite entries is a [Numeric.matrix]. *)
Record matrix := mk_matrix { ncols : nat; mrows : list vec }.

Definition nrows (M : matrix) : nat := length (mrows M).
Definition wf_matrix (M : matrix) : Prop :=
  Forall (fun r => length r = ncols M) (mrows M).

Definition of_matrix (M : matrix) : ndarray R :=
  mk_ndarray [nrows M; ncols M] (concat (mrows M)).

(** [np.squeeze]: the axes of length one are removed, the data stay. *)
Definition squeeze {A} (a : ndarray A) : ndarray A :=
  mk_ndarray (filter (fun d => negb (Nat.eqb d 1)) (shape a)) (data a).

(** [np.atleast_2d]: a scalar becomes 1 x 1, a vector of length n becomes
    1 x n, anything else is returned as it is. *)
Definition atleast_2d {A} (a : ndarray A) : ndarray A :=
  match shape a with
  | [] => mk_ndarray [1%nat; 1%nat] (data a)
  | [n] => mk_ndarray [1%nat; n] (data a)
  | _ => a
  end.

(** [a.reshape(s)]: the number of elements must not change. *)
Definition reshape {A} (a : ndarray A) (s : list nat) : result (ndarray A) :=
  if Nat.eqb (product s) (size a) then Ok (mk_ndarray s (data a))
  else Raise (ValueError cannot_reshape).

(** [n_voxels, n_coefs = a.shape] *)
Definition unpack2 {A} (a : ndarray A) : result (nat * nat) :=
  match shape a with
  | [n; p] => Ok (n, p)
  | _ => Raise (ValueError too_many_values_to_unpack)
  end.

(** *** Broadcasting *)

Definition pad (n : nat) (s : list nat) : list nat :=
  repeat 1%nat (n - length s) ++ s.

Definition bdim (a b : nat) : nat := if Nat.eqb a 1 then b else a.

Definition dims_agree (a b : nat) : bool :=
  Nat.eqb a b || Nat.eqb a 1 || Nat.eqb b 1.

Fixpoint compatible (s1 s2 : list nat) : bool :=
  match s1, s2 with
  | a :: t1, b :: t2 => dims_agree a b && compatible t1 t2
  | [], [] => true
  | _, _ => false
  end.

(** Elements of the broadcast of two arrays whose shapes [s1] and [s2] have
    the same length: along an axis where an operand has length one, its
    single block is used for every index. *)
Fixpoint bdata {A B C} (f : A -> B -> C) (s1 s2 : list nat)
    (d1 : list A) (d2 : list B) : list C :=
  match s1, s2 with
  | n1 :: t1, n2 :: t2 =>
      flat_map
        (fun i =>
           bdata f t1 t2
             (slice (if Nat.eqb n1 1 then 0 else i) (product t1) d1)
             (slice (if Nat.eqb n2 1 then 0 else i) (product t2) d2))
        (seq 0 (bdim n1 n2))
  | _, _ =>
      match d1, d2 with
      | x :: _, y :: _ => [f x y]
      | _, _ => []
      end
  end.

(** An elementwise binary operation of numpy, with broadcasting: shapes
    are aligned at their last axis and padded with ones in front. *)
Definition broadcast {A B C} (f : A -> B -> C) (a : ndarray A) (b : ndarray B)
    : result (ndarray C) :=
  let n := Nat.max (ndim a) (ndim b) in
  let s1 := pad n (shape a) in
  let s2 := pad n (shape b) in
  if compatible s1 s2
  then Ok (mk_ndarray (zipWith bdim s1 s2) (bdata f s1 s2 (data a) (data b)))
  else Raise (ValueError operands_not_broadcast).

(** Elementwise unary operations keep the shape. *)
Definition amap {A B} (f : A -> B) (a : ndarray A) : ndarray B :=
  mk_ndarray (shape a) (map f (data a)).

(** [a ** 2] *)
Definition square (a : ndarray R) : ndarray R := amap (fun x => x * x) a.

(** [np.sum(a, axis=-1)] on an array with at least one axis. *)
Definition sum_last (a : ndarray R) : ndarray R :=
  let bs := removelast (shape a) in
  mk_ndarray bs (map vsum (chunks (product bs) (last (shape a) 1%nat) (data a))).

(** [np.sum(a, axis=(-1, -2))] on an array with at least two axes. *)
Definition sum_last2 (a : ndarray R) : ndarray R :=
  sum_last (sum_last a).

(** ** numpy.linalg *)

(** *** [np.linalg.solve]

    LAPACK's [gesv] in exact arithmetic: Gaussian elimination with partial
    pivoting on the equations [(a_i, b_i)], one per row of the system and
    of the right-hand side.  The call raises when a pivot is exactly zero.
    In float64 a pivot that is zero here can be rounded to a number that
    is not zero: [Numeric.gauss] is the elimination on rounded numbers. *)

Definition eqn := (vec * vec)%type.

Definition lead (e : eqn) : R := hd 0 (fst e).

(** The equation whose leading coefficient is largest in absolute value
    (the first of them), and the other equations. *)
Fixpoint pivot (sys : list eqn) : option (eqn * list eqn) :=
  match sys with
  | [] => None
  | e :: rest =>
      match pivot rest with
      | None => Some (e, [])
      | Some (b, others) =>
          if Rlt_dec (Rabs (lead e)) (Rabs (lead b))
          then Some (b, e :: others)
          else Some (e, b :: others)
      end
  end.

(** Subtract the multiple of the pivot equation that clears the leading
    coefficient of [e]; the cleared coefficient is dropped. *)
Definition eliminate (p e : eqn) : eqn :=
  let f := lead e / lead p in
  (vsub (tl (fst e)) (scale f (tl (fst p))),
   vsub (snd e) (scale f (snd p))).

(** [gauss k n sys] solves [n] equations in [n] unknown rows of length [k]. *)
Fixpoint gauss (k n : nat) (sys : list eqn) : option (list vec) :=
  match n with
  | O => Some []
  | S n' =>
      match pivot sys with
      | None => None
      | Some (p, others) =>
          if Req_dec_T (lead p) 0 then None
          else
            match gauss k n' (map (eliminate p) others) with
            | None => None
            | Some X =>
                Some (scale (/ lead p) (vsub (snd p) (lc k (tl (fst p)) X)) :: X)
            end
      end
  end.

Definition linalg_solve (a b : matrix) : result matrix :=
  if negb (Nat.eqb (nrows a) (ncols a))
  then Raise (LinAlgError Last_2_dimensions_must_be_square)
  else if negb (Nat.eqb (nrows b) (nrows a))
  then Raise (ValueError solve_core_dimension_mismatch)
  else
    match gauss (ncols b) (nrows a) (combine (mrows a) (mrows b)) with
    | Some X => Ok (mk_matrix (ncols b) X)
    | None => Raise (LinAlgError Singular_matrix)
    end.

(** *** [np.linalg.cholesky]

    The lower factor, computed column by column; only the lower triangle
    of the argument is read, as LAPACK's [potrf] does.  The call raises
    when a pivot is not positive.  In float64 a pivot that is zero here
    can be rounded to a positive number: [Numeric.cholesky_rows] is the
    factorization on rounded numbers. *)
Definition schur_complement (c : vec) (rest : list vec) : list vec :=
  zipWith (fun ci r => vsub (tl r) (scale ci c)) c rest.

Fixpoint cholesky_rows (n : nat) (P : list vec) : option (list vec) :=
  match n, P with
  | O, _ => Some []
  | S n', (a :: _) :: rest =>
      if Rlt_dec 0 a then
        let l := sqrt a in
        let c := map (fun r => hd 0 r / l) rest in
        match cholesky_rows n' (schur_complement c rest) with
        | Some L' => Some ((l :: zeros n') :: zipWith cons c L')
        | None => None
        end
      else None
  | S _, _ => None
  end.

Definition linalg_cholesky (a : matrix) : result matrix :=
  if negb (Nat.eqb (nrows a) (ncols a))
  then Raise (LinAlgError Last_2_dimensions_must_be_square)
  else
    match cholesky_rows (nrows a) (mrows a) with
    | Some L => Ok (mk_matrix (ncols a) L)
    | None => Raise (LinAlgError Matrix_is_not_positive_definite)
    end.

(** ** The other numpy calls of the source *)

(** A labelled einsum axis of length one is broadcast like any other. *)
Definition stretch (n : nat) (v : vec) : vec :=
  if Nat.eqb (length v) 1 then repeat (hd 0 v) n else v.

(** [np.einsum('...ki, ...kj->...ij', D, D)] for a two-dimensional [D]. *)
Definition einsum_gram (D : matrix) : matrix :=
  mk_matrix (ncols D)
    (matmul (ncols D) (transpose (ncols D) (mrows D)) (mrows D)).

(** [np.swapaxes(D, -1, -2)] *)
Definition swapaxes (D : matrix) : matrix :=
  mk_matrix (nrows D) (transpose (ncols D) (mrows D)).

(** [np.einsum('...ij, ...j->...i', M, y)] for a two-dimensional [M]: the
    leading axes of [y] are the ellipsis. *)
Definition einsum_matvec (M : matrix) (y : ndarray R) : result (ndarray R) :=
  match shape y with
  | [] => Raise (ValueError einsum_operand_mismatch)
  | _ :: _ =>
      let bs := removelast (shape y) in
      let m := last (shape y) 1%nat in
      if dims_agree (ncols M) m then
        let j := bdim (ncols M) m in
        let Ms := map (stretch j) (mrows M) in
        Ok (mk_ndarray (bs ++ [nrows M])
              (flat_map (fun v => matvec Ms (stretch j v))
                        (chunks (product bs) m (data y))))
      else Raise (ValueError einsum_operand_mismatch)
  end.

(** [np.einsum('...ik, ...kj->...ij', A, B)] for two-dimensional operands. *)
Definition einsum_matmul (A B : matrix) : result matrix :=
  if dims_agree (ncols A) (nrows B) then
    let k := bdim (ncols A) (nrows B) in
    let Bs := if Nat.eqb (nrows B) 1 then repeat (hd [] (mrows B)) k else mrows B in
    Ok (mk_matrix (ncols B) (matmul (ncols B) (map (stretch k) (mrows A)) Bs))
  else Raise (ValueError einsum_operand_mismatch).

(** [np.eye(n)] *)
Definition eye (n : nat) : matrix := mk_matrix n (eye_rows n).

(** A two-dimensional array as a matrix. *)
Definition to_matrix (a : ndarray R) : matrix :=
  match shape a with
  | [n; c] => mk_matrix c (chunks n c (data a))
  | _ => mk_matrix 0 []
  end.

(** [np.zeros(dims)]; a negative dimension is refused. *)
Definition np_zeros (dims : list Z) : result (ndarray R) :=
  if existsb (fun d => (d <? 0)%Z) dims
  then Raise (ValueError negative_dimensions)
  else
    let s := map Z.to_nat dims in
    Ok (mk_ndarray s (repeat 0 (product s))).

(** The global generator of [np.random]: the sequence of standard normal
    draws it is going to produce and the number of draws consumed so far. *)
Record rng := mk_rng { draws : nat -> R; position : nat }.

(** [np.random.randn(n, k)] *)
Definition randn (g : rng) (n k : nat) : ndarray R * rng :=
  (mk_ndarray [n; k] (map (draws g) (seq (position g) (n * k))),
   mk_rng (draws g) (position g + n * k)).

(** [a[i, :, :]] for a three-dimensional [a] *)
Definition index3 (a : ndarray R) (i : nat) : matrix :=
  match shape a with
  | [_; r; c] => mk_matrix c (chunks r c (slice i (r * c) (data a)))
  | _ => mk_matrix 0 []
  end.

(** [a[i, :, None]] for a two-dimensional [a] *)
Definition index_column (a : ndarray R) (i : nat) : ndarray R :=
  match shape a with
  | [_; p] => mk_ndarray [p; 1%nat] (slice i p (data a))
  | _ => mk_ndarray [0%nat; 1%nat] []
  end.

(** [a[i, :, :] = v] for a three-dimensional [a]: [v] is broadcast to the
    shape of the block, which is overwritten. *)
Definition setitem3 (a : ndarray R) (i : nat) (v : ndarray R) : result (ndarray R) :=
  match shape a with
  | [_; r; c] =>
      b <- broadcast (fun (_ x : R) => x)
             (mk_ndarray [r; c] (slice i (r * c) (data a))) v ;;
      if list_eq_dec Nat.eq_dec (shape b) [r; c]
      then Ok (mk_ndarray (shape a)
                 (firstn (i * (r * c)) (data a) ++ data b
                  ++ skipn (S i * (r * c)) (data a)))
      else Raise (ValueError operands_not_broadcast)
  | _ => Raise (ValueError operands_not_broadcast)
  end.

(** ** The two functions of the source *)

(** What [probabilistic_least_squares] returns: a pair, or a triple when
    the posterior precision was asked for. *)
Inductive pls_output :=
| Mean_Variance (coef_posterior_mean : ndarray R)
                (residual_variance : ndarray float)
| Mean_Variance_Precision (coef_posterior_mean : ndarray R)
                          (residual_variance : ndarray float)
                          (coef_posterior_precision : ndarray float).

Definition probabilistic_least_squares (design_matrix : matrix) (y : ndarray R)
    (regularization_matrix : option matrix) (return_posterior_precision : bool)
    : result pls_output :=
  unscaled_posterior_precision <-
    match regularization_matrix with
    | None => Ok (einsum_gram design_matrix)
    | Some regularization_matrix =>
        u <- broadcast Rplus (of_matrix (einsum_gram design_matrix))
                             (of_matrix regularization_matrix) ;;
        Ok (to_matrix u)
    end ;;
  pseudoInv <- linalg_solve unscaled_posterior_precision (swapaxes design_matrix) ;;
  coef_posterior_mean <- einsum_matvec pseudoInv y ;;
  smoother_matrix <- einsum_matmul design_matrix pseudoInv ;;
  residual_matrix <- broadcast Rminus (of_matrix (eye (ncols smoother_matrix)))
                                      (of_matrix smoother_matrix) ;;
  fitted <- einsum_matvec design_matrix coef_posterior_mean ;;
  residuals <- broadcast Rminus y fitted ;;
  residual_variance <-
    broadcast (fun a b => fdiv (Fin a) (Fin b))
      (sum_last (square residuals)) (sum_last2 (square residual_matrix)) ;;
  if negb return_posterior_precision
  then Ok (Mean_Variance coef_posterior_mean residual_variance)
  else
    let coef_posterior_mean := atleast_2d coef_posterior_mean in
    '(n_voxels, n_coefs) <- unpack2 coef_posterior_mean ;;
    let coef_posterior_mean := squeeze coef_posterior_mean in
    coef_posterior_precision <-
      broadcast (fun u r => fdiv (Fin u) r)
        (of_matrix unscaled_posterior_precision) residual_variance ;;
    coef_posterior_precision <-
      reshape coef_posterior_precision [n_voxels; n_coefs; n_coefs] ;;
    let coef_posterior_precision := squeeze coef_posterior_precision in
    Ok (Mean_Variance_Precision coef_posterior_mean residual_variance
          coef_posterior_precision).

(** One turn of the loop over voxels: the state is the array [samples] and
    the generator. *)
Definition sample_voxel (mean precision : ndarray R) (n_coefs n_samples : nat)
    (i : nat) (st : ndarray R * rng) : result (ndarray R * rng) :=
  let '(samples, g) := st in
  let '(standard_normal_samples, g) := randn g n_coefs n_samples in
  L <- linalg_cholesky (index3 precision i) ;;
  s <- linalg_solve L (to_matrix standard_normal_samples) ;;
  v <- broadcast Rplus (index_column mean i) (of_matrix s) ;;
  samples <- setitem3 samples i v ;;
  Ok (samples, g).

Fixpoint for_range (body : nat -> ndarray R * rng -> result (ndarray R * rng))
    (range : list nat) (st : ndarray R * rng) : result (ndarray R * rng) :=
  match range with
  | [] => Ok st
  | i :: range' => st' <- body i st ;; for_range body range' st'
  end.

(** The samples and the generator after the call. *)
Definition sample_coef_posterior (mean precision : ndarray R) (n_samples : Z)
    (g : rng) : result (ndarray R * rng) :=
  let mean := atleast_2d mean in
  '(n_voxels, n_coefs) <- unpack2 mean ;;
  precision <- reshape precision [n_voxels; n_coefs; n_coefs] ;;
  samples <- np_zeros [Z.of_nat n_voxels; Z.of_nat n_coefs; n_samples] ;;
  '(samples, g) <-
    for_range (sample_voxel mean precision n_coefs (Z.to_nat n_samples))
      (seq 0 n_voxels) (samples, g) ;;
  let samples := squeeze samples in
  Ok (samples, g).

(** ** [dki_design_matrix] and the array operations it calls *)

(** A row of [gtab.bvecs], an array of shape (N, 3). *)
Record direction := mk_direction { g0 : R; g1 : R; g2 : R }.

(** The attributes of a gradient table that the function reads: one
    b-value and one direction per measurement. *)
Record GradientTable :=
  mk_GradientTable { bvals : list R; bvecs : list direction }.

(** A one-dimensional array. *)
Definition array1 (l : list R) : ndarray R := mk_ndarray [length l] l.

(** [bvec[:, c]] *)
Definition column (c : direction -> R) (bvec : list direction) : ndarray R :=
  array1 (map c bvec).

(** [len(a)] for an array with at least one axis. *)
Definition len {A} (a : ndarray A) : nat := hd 0%nat (shape a).

(** [np.ones(n)] *)
Definition np_ones (n : nat) : ndarray R := mk_ndarray [n] (repeat 1 n).

(** [-a], [k * a] for a scalar [k], [a ** n] and [a / k] keep the shape. *)
Definition negative (a : ndarray R) : ndarray R := amap Ropp a.
Definition scalar_times (k : R) (a : ndarray R) : ndarray R := amap (Rmult k) a.
Definition power (a : ndarray R) (n : nat) : ndarray R := amap (fun x => x ^ n) a.

(** [a * b] for two arrays, with broadcasting, after the product [a] on
    its left was computed. *)
Definition times (a : result (ndarray R)) (b : ndarray R) : result (ndarray R) :=
  a <- a ;; broadcast Rmult a b.

(** [a / k] for a scalar [k], after [a] was computed. *)
Definition over (a : result (ndarray R)) (k : R) : result (ndarray R) :=
  a <- a ;; Ok (amap (fun x => x / k) a).

(** [B[:, c] = v] for a two-dimensional [B] and [c] within its columns:
    [v] is broadcast to the shape of the column, which is overwritten. *)
Definition setitem_column (B : ndarray R) (c : nat) (v : ndarray R)
    : result (ndarray R) :=
  match shape B with
  | [n; w] =>
      let rows := chunks n w (data B) in
      b <- broadcast (fun (_ x : R) => x)
             (mk_ndarray [n] (map (fun r => nth c r 0) rows)) v ;;
      if list_eq_dec Nat.eq_dec (shape b) [n]
      then Ok (mk_ndarray (shape B)
                 (concat (zipWith (fun r x => firstn c r ++ x :: skipn (S c) r)
                            rows (data b))))
      else Raise (ValueError operands_not_broadcast)
  | _ => Raise (ValueError operands_not_broadcast)
  end.

(** The assignments [B[:, c] = v], [B[:, c + 1] = v'], ... in this order:
    each right-hand side is computed, then assigned. *)
Fixpoint assign_columns (B : ndarray R) (c : nat)
    (values : list (result (ndarray R))) : result (ndarray R) :=
  match values with
  | [] => Ok B
  | v :: values' =>
      v <- v ;;
      B <- setitem_column B c v ;;
      assign_columns B (S c) values'
  end.

Declare Scope array_scope.
Delimit Scope array_scope with array.
Notation "a |* b" := (times a b) (at level 40, left associativity) : array_scope.
Notation "a |/ k" := (over a k) (at level 40, left associativity) : array_scope.

(** The right-hand sides of lines 25 to 46, parsed as Python does: unary
    minus and [**] first, then [*] and [/] from left to right. *)
Definition dki_columns (b : ndarray R) (bvec : list direction)
    : list (result (ndarray R)) :=
  let x := column g0 bvec in
  let y := column g1 bvec in
  let z := column g2 bvec in
  [ Ok (negative b) |* x |* x;
    Ok (scalar_times (-2) b) |* x |* y;
    Ok (negative b) |* y |* y;
    Ok (scalar_times (-2) b) |* x |* z;
    Ok (scalar_times (-2) b) |* y |* z;
    Ok (negative b) |* z |* z;
    Ok b |* b |* power x 4 |/ 6;
    Ok b |* b |* power y 4 |/ 6;
    Ok b |* b |* power z 4 |/ 6;
    Ok (scalar_times 4 b) |* b |* power x 3 |* y |/ 6;
    Ok (scalar_times 4 b) |* b |* power x 3 |* z |/ 6;
    Ok (scalar_times 4 b) |* b |* power y 3 |* x |/ 6;
    Ok (scalar_times 4 b) |* b |* power y 3 |* z |/ 6;
    Ok (scalar_times 4 b) |* b |* power z 3 |* x |/ 6;
    Ok (scalar_times 4 b) |* b |* power z 3 |* y |/ 6;
    Ok b |* b |* power x 2 |* power y 2;
    Ok b |* b |* power x 2 |* power z 2;
    Ok b |* b |* power y 2 |* power z 2;
    Ok (scalar_times 2 b) |* b |* power x 2 |* y |* z;
    Ok (scalar_times 2 b) |* b |* power y 2 |* x |* z;
    Ok (scalar_times 2 b) |* b |* power z 2 |* x |* y;
    Ok (np_ones (len b)) ]%array.

Definition dki_design_matrix (gtab : GradientTable) : result (ndarray R) :=
  let b := array1 (bvals gtab) in
  let bvec := bvecs gtab in
  B <- np_zeros [Z.of_nat (len b); 22%Z] ;;
  assign_columns B 0 (dki_columns b bvec).

(** * The two functions over the numbers of numpy

    Whether a pivot is exactly zero, and which element of a column is the
    largest, depend on the numbers that the arrays hold.  Here
    [probabilistic_least_squares] and [sample_coef_posterior] are written
    once more over any arithmetic, with the operations in the order of the
    loops that compute them: a sum of [einsum] or [np.sum] adds its terms
    in index order, starting from zero; [np.linalg.solve] is LAPACK's
    [gesv] (the first largest element of a column as pivot, a row
    interchange, multipliers scaled by the reciprocal of the pivot, and
    substitution from the last unknown to the first);
    [np.linalg.cholesky] is [potrf] on the lower triangle.  With the
    arithmetic [binary64] the numbers are those of float64, rounded to
    nearest even, with its infinities, signed zeros and NaN; with the
    arithmetic [extended] they are the reals with the infinities and NaN
    of IEEE-754, without rounding. *)

Module Numeric.

Class Arithmetic (F : Type) : Type := {
  zero : F;
  one : F;
  add : F -> F -> F;
  sub : F -> F -> F;
  mul : F -> F -> F;
  div : F -> F -> F;
  sqrt : F -> F;
  abs : F -> F;
  ltb : F -> F -> bool;
  eqb : F -> F -> bool
}.

Section Functions.

Context {F : Type} {ar : Arithmetic F}.

Definition zeros (n : nat) : list F := repeat zero n.

(** [sum_k u_k * v_k] *)
Definition dot (u v : list F) : F :=
  fold_left (fun acc uv => add acc (mul (fst uv) (snd uv))) (combine u v) zero.

Definition vsum (v : list F) : F := fold_left add v zero.

(** [x - l * u], element by element. *)
Definition update (l : F) (x u : list F) : list F :=
  zipWith (fun xi ui => sub xi (mul l ui)) x u.

(** The columns of [M], which has [c] columns. *)
Fixpoint transpose (c : nat) (M : list (list F)) : list (list F) :=
  match c with
  | O => []
  | S c' => map (hd zero) M :: transpose c' (map (@tl F) M)
  end.

Definition eye_rows (n : nat) : list (list F) :=
  map (fun i => map (fun j => if Nat.eqb i j then one else zero) (seq 0 n))
      (seq 0 n).

(** A two-dimensional array, by rows. *)
Record matrix := mk_matrix { ncols : nat; mrows : list (list F) }.

Definition nrows (M : matrix) : nat := length (mrows M).

Definition of_matrix (M : matrix) : ndarray F :=
  mk_ndarray [nrows M; ncols M] (concat (mrows M)).

Definition to_matrix (a : ndarray F) : matrix :=
  match shape a with
  | [n; c] => mk_matrix c (chunks n c (data a))
  | _ => mk_matrix 0 []
  end.

(** [a ** 2] *)
Definition square (a : ndarray F) : ndarray F := amap (fun x => mul x x) a.

(** [np.sum(a, axis=-1)] on an array with at least one axis. *)
Definition sum_last (a : ndarray F) : ndarray F :=
  let bs := removelast (shape a) in
  mk_ndarray bs (map vsum (chunks (product bs) (last (shape a) 1%nat) (data a))).

(** [np.sum(a, axis=(-1, -2))] on an array with at least two axes. *)
Definition sum_last2 (a : ndarray F) : ndarray F :=
  sum_last (sum_last a).

(** ** [np.linalg.solve] *)

(** A row of the system and its row of the right-hand side. *)
Definition eqn := (list F * list F)%type.

Definition lead (e : eqn) : F := hd zero (fst e).

(** [idamax]: the index of the first equation whose leading coefficient
    is largest in absolute value; [best] with leading coefficient [b] is
    the largest so far, [i] the index of the head of [sys]. *)
Fixpoint idamax (best : nat) (b : F) (i : nat) (sys : list eqn) : nat :=
  match sys with
  | [] => best
  | e :: rest =>
      if ltb (abs b) (abs (lead e))
      then idamax i (lead e) (S i) rest
      else idamax best b (S i) rest
  end.

Definition pivot_index (sys : list eqn) : nat :=
  match sys with
  | [] => 0%nat
  | e :: rest => idamax 0 (lead e) 1 rest
  end.

(** The equations with the first and the [j]-th interchanged. *)
Definition interchange (j : nat) (sys : list eqn) : list eqn :=
  match sys, j with
  | e0 :: rest, S j' =>
      nth j' rest e0 :: firstn j' rest ++ e0 :: skipn (S j') rest
  | _, _ => sys
  end.

(** The multiplier of [e] is its leading coefficient times the reciprocal
    of the pivot; the multiple of the pivot equation is subtracted and
    the cleared coefficient dropped. *)
Definition eliminate (p e : eqn) : eqn :=
  let l := mul (lead e) (div one (lead p)) in
  (update l (tl (fst e)) (tl (fst p)), update l (snd e) (snd p)).

(** The unknown row of the pivot equation [p], given the rows [X] of the
    later unknowns: their terms are subtracted from the right-hand side,
    the last unknown first, and the rest is divided by the pivot. *)
Definition back (p : eqn) (X : list (list F)) : list F :=
  let b :=
    fold_right (fun ux b => zipWith (fun bi xi => sub bi (mul xi (fst ux))) b (snd ux))
      (snd p) (combine (tl (fst p)) X) in
  map (fun bi => div bi (lead p)) b.

(** [gauss n sys] solves [n] equations in [n] unknown rows; a pivot that
    is exactly zero makes the system singular. *)
Fixpoint gauss (n : nat) (sys : list eqn) : option (list (list F)) :=
  match n with
  | O => Some []
  | S n' =>
      match interchange (pivot_index sys) sys with
      | [] => None
      | p :: others =>
          if eqb (lead p) zero then None
          else
            match gauss n' (map (eliminate p) others) with
            | None => None
            | Some X => Some (back p X :: X)
            end
      end
  end.

Definition linalg_solve (a b : matrix) : result matrix :=
  if negb (Nat.eqb (nrows a) (ncols a))
  then Raise (LinAlgError Last_2_dimensions_must_be_square)
  else if negb (Nat.eqb (nrows b) (nrows a))
  then Raise (ValueError solve_core_dimension_mismatch)
  else
    match gauss (nrows a) (combine (mrows a) (mrows b)) with
    | Some X => Ok (mk_matrix (ncols b) X)
    | None => Raise (LinAlgError Singular_matrix)
    end.

(** ** [np.linalg.cholesky]

    Column by column on the lower triangle; a pivot that is not greater
    than zero, NaN included, makes the call raise. *)
Fixpoint cholesky_rows (n : nat) (P : list (list F)) : option (list (list F)) :=
  match n, P with
  | O, _ => Some []
  | S n', (a :: _) :: rest =>
      if ltb zero a then
        let l := sqrt a in
        let c := map (fun r => div (hd zero r) l) rest in
        match cholesky_rows n' (zipWith (fun ci r => update ci (tl r) c) c rest) with
        | Some L' => Some ((l :: zeros n') :: zipWith cons c L')
        | None => None
        end
      else None
  | S _, _ => None
  end.

Definition linalg_cholesky (a : matrix) : result matrix :=
  if negb (Nat.eqb (nrows a) (ncols a))
  then Raise (LinAlgError Last_2_dimensions_must_be_square)
  else
    match cholesky_rows (nrows a) (mrows a) with
    | Some L => Ok (mk_matrix (ncols a) L)
    | None => Raise (LinAlgError Matrix_is_not_positive_definite)
    end.

(** ** The other numpy calls of the source *)

(** A labelled einsum axis of length one is broadcast like any other. *)
Definition stretch (n : nat) (v : list F) : list F :=
  if Nat.eqb (length v) 1 then repeat (hd zero v) n else v.

(** [np.einsum('...ki, ...kj->...ij', D, D)] for a two-dimensional [D]. *)
Definition einsum_gram (D : matrix) : matrix :=
  let columns := transpose (ncols D) (mrows D) in
  mk_matrix (ncols D)
    (map (fun ci => map (fun cj => dot ci cj) columns) columns).

(** [np.swapaxes(D, -1, -2)] *)
Definition swapaxes (D : matrix) : matrix :=
  mk_matrix (nrows D) (transpose (ncols D) (mrows D)).

(** [np.einsum('...ij, ...j->...i', M, y)] for a two-dimensional [M]: the
    leading axes of [y] are the ellipsis. *)
Definition einsum_matvec (M : matrix) (y : ndarray F) : result (ndarray F) :=
  match shape y with
  | [] => Raise (ValueError einsum_operand_mismatch)
  | _ :: _ =>
      let bs := removelast (shape y) in
      let m := last (shape y) 1%nat in
      if dims_agree (ncols M) m then
        let j := bdim (ncols M) m in
        let Ms := map (stretch j) (mrows M) in
        Ok (mk_ndarray (bs ++ [nrows M])
              (flat_map (fun v => map (fun r => dot r (stretch j v)) Ms)
                        (chunks (product bs) m (data y))))
      else Raise (ValueError einsum_operand_mismatch)
  end.

(** [np.einsum('...ik, ...kj->...ij', A, B)] for two-dimensional operands. *)
Definition einsum_matmul (A B : matrix) : result matrix :=
  if dims_agree (ncols A) (nrows B) then
    let k := bdim (ncols A) (nrows B) in
    let Bs := if Nat.eqb (nrows B) 1 then repeat (hd [] (mrows B)) k else mrows B in
    let columns := transpose (ncols B) Bs in
    Ok (mk_matrix (ncols B)
          (map (fun a => map (fun c => dot (stretch k a) c) columns) (mrows A)))
  else Raise (ValueError einsum_operand_mismatch).

(** [np.eye(n)] *)
Definition eye (n : nat) : matrix := mk_matrix n (eye_rows n).

(** [np.zeros(dims)]; a negative dimension is refused. *)
Definition np_zeros (dims : list Z) : result (ndarray F) :=
  if existsb (fun d => (d <? 0)%Z) dims
  then Raise (ValueError negative_dimensions)
  else
    let s := map Z.to_nat dims in
    Ok (mk_ndarray s (repeat zero (product s))).

(** The global generator of [np.random]: the draws it is going to produce
    and the number of draws consumed so far. *)
Record rng := mk_rng { draws : nat -> F; position : nat }.

(** [np.random.randn(n, k)] *)
Definition randn (g : rng) (n k : nat) : ndarray F * rng :=
  (mk_ndarray [n; k] (map (draws g) (seq (position g) (n * k))),
   mk_rng (draws g) (position g + n * k)).

(** [a[i, :, :]] for a three-dimensional [a] *)
Definition index3 (a : ndarray F) (i : nat) : matrix :=
  match shape a with
  | [_; r; c] => mk_matrix c (chunks r c (slice i (r * c) (data a)))
  | _ => mk_matrix 0 []
  end.

(** [a[i, :, None]] for a two-dimensional [a] *)
Definition index_column (a : ndarray F) (i : nat) : ndarray F :=
  match shape a with
  | [_; p] => mk_ndarray [p; 1%nat] (slice i p (data a))
  | _ => mk_ndarray [0%nat; 1%nat] []
  end.

(** [a[i, :, :] = v] for a three-dimensional [a]: [v] is broadcast to the
    shape of the block, which is overwritten. *)
Definition setitem3 (a : ndarray F) (i : nat) (v : ndarray F) : result (ndarray F) :=
  match shape a with
  | [_; r; c] =>
      b <- broadcast (fun (_ x : F) => x)
             (mk_ndarray [r; c] (slice i (r * c) (data a))) v ;;
      if list_eq_dec Nat.eq_dec (shape b) [r; c]
      then Ok (mk_ndarray (shape a)
                 (firstn (i * (r * c)) (data a) ++ data b
                  ++ skipn (S i * (r * c)) (data a)))
      else Raise (ValueError operands_not_broadcast)
  | _ => Raise (ValueError operands_not_broadcast)
  end.

(** ** The two functions of the source *)

Inductive pls_output :=
| Mean_Variance (coef_posterior_mean residual_variance : ndarray F)
| Mean_Variance_Precision
    (coef_posterior_mean residual_variance coef_posterior_precision : ndarray F).

Definition probabilistic_least_squares (design_matrix : matrix) (y : ndarray F)
    (regularization_matrix : option matrix) (return_posterior_precision : bool)
    : result pls_output :=
  unscaled_posterior_precision <-
    match regularization_matrix with
    | None => Ok (einsum_gram design_matrix)
    | Some regularization_matrix =>
        u <- broadcast add (of_matrix (einsum_gram design_matrix))
                           (of_matrix regularization_matrix) ;;
        Ok (to_matrix u)
    end ;;
  pseudoInv <- linalg_solve unscaled_posterior_precision (swapaxes design_matrix) ;;
  coef_posterior_mean <- einsum_matvec pseudoInv y ;;
  smoother_matrix <- einsum_matmul design_matrix pseudoInv ;;
  residual_matrix <- broadcast sub (of_matrix (eye (ncols smoother_matrix)))
                                   (of_matrix smoother_matrix) ;;
  fitted <- einsum_matvec design_matrix coef_posterior_mean ;;
  residuals <- broadcast sub y fitted ;;
  residual_variance <-
    broadcast div (sum_last (square residuals))
                  (sum_last2 (square residual_matrix)) ;;
  if negb return_posterior_precision
  then Ok (Mean_Variance coef_posterior_mean residual_variance)
  else
    let coef_posterior_mean := atleast_2d coef_posterior_mean in
    '(n_voxels, n_coefs) <- unpack2 coef_posterior_mean ;;
    let coef_posterior_mean := squeeze coef_posterior_mean in
    coef_posterior_precision <-
      broadcast div (of_matrix unscaled_posterior_precision) residual_variance ;;
    coef_posterior_precision <-
      reshape coef_posterior_precision [n_voxels; n_coefs; n_coefs] ;;
    let coef_posterior_precision := squeeze coef_posterior_precision in
    Ok (Mean_Variance_Precision coef_posterior_mean residual_variance
          coef_posterior_precision).

(** One turn of the loop over voxels. *)
Definition sample_voxel (mean precision : ndarray F) (n_coefs n_samples : nat)
    (i : nat) (st : ndarray F * rng) : result (ndarray F * rng) :=
  let '(samples, g) := st in
  let '(standard_normal_samples, g) := randn g n_coefs n_samples in
  L <- linalg_cholesky (index3 precision i) ;;
  s <- linalg_solve L (to_matrix standard_normal_samples) ;;
  v <- broadcast add (index_column mean i) (of_matrix s) ;;
  samples <- setitem3 samples i v ;;
  Ok (samples, g).

Fixpoint for_range (body : nat -> ndarray F * rng -> result (ndarray F * rng))
    (range : list nat) (st : ndarray F * rng) : result (ndarray F * rng) :=
  match range with
  | [] => Ok st
  | i :: range' => st' <- body i st ;; for_range body range' st'
  end.

Definition sample_coef_posterior (mean precision : ndarray F) (n_samples : Z)
    (g : rng) : result (ndarray F * rng) :=
  let mean := atleast_2d mean in
  '(n_voxels, n_coefs) <- unpack2 mean ;;
  precision <- reshape precision [n_voxels; n_coefs; n_coefs] ;;
  samples <- np_zeros [Z.of_nat n_voxels; Z.of_nat n_coefs; n_samples] ;;
  '(samples, g) <-
    for_range (sample_voxel mean precision n_coefs (Z.to_nat n_samples))
      (seq 0 n_voxels) (samples, g) ;;
  let samples := squeeze samples in
  Ok (samples, g).

End Functions.

Arguments matrix F : clear implicits.
Arguments rng F : clear implicits.
Arguments pls_output F : clear implicits.

(** float64: the primitive binary64 numbers and their operations. *)
#[global] Instance binary64 : Arithmetic PrimFloat.float := {|
  zero := PrimFloat.zero;
  one := PrimFloat.one;
  add := PrimFloat.add;
  sub := PrimFloat.sub;
  mul := PrimFloat.mul;
  div := PrimFloat.div;
  sqrt := PrimFloat.sqrt;
  abs := PrimFloat.abs;
  ltb := PrimFloat.ltb;
  eqb := PrimFloat.eqb
|}.

End Numeric.

(** ** The extended reals as numbers

    The arithmetic [extended]: [float], exact on finite numbers, with the
    rules of IEEE-754 for infinities and NaN.  There is one zero, and no
    rounding, overflow or underflow. *)
Definition fadd (a b : float) : float :=
  match a, b with
  | NaN, _ | _, NaN => NaN
  | Fin x, Fin y => Fin (x + y)
  | PInf, NInf | NInf, PInf => NaN
  | PInf, _ | _, PInf => PInf
  | NInf, _ | _, NInf => NInf
  end.

Definition fsub (a b : float) : float :=
  match a, b with
  | NaN, _ | _, NaN => NaN
  | Fin x, Fin y => Fin (x - y)
  | PInf, PInf | NInf, NInf => NaN
  | PInf, _ | _, NInf => PInf
  | NInf, _ | _, PInf => NInf
  end.

(** The sign of a product with an infinity; zero times infinity is NaN. *)
Definition signed_infinity (x : R) (positive : bool) : float :=
  if Req_dec_T x 0 then NaN
  else if Rlt_dec 0 x then (if positive then PInf else NInf)
       else (if positive then NInf else PInf).

Definition fmul (a b : float) : float :=
  match a, b with
  | NaN, _ | _, NaN => NaN
  | Fin x, Fin y => Fin (x * y)
  | Fin x, PInf | PInf, Fin x => signed_infinity x true
  | Fin x, NInf | NInf, Fin x => signed_infinity x false
  | PInf, PInf | NInf, NInf => PInf
  | PInf, NInf | NInf, PInf => NInf
  end.

Definition fsqrt (a : float) : float :=
  match a with
  | Fin x => if Rlt_dec x 0 then NaN else Fin (sqrt x)
  | PInf => PInf
  | NInf | NaN => NaN
  end.

Definition fabs (a : float) : float :=
  match a with
  | Fin x => Fin (Rabs x)
  | PInf | NInf => PInf
  | NaN => NaN
  end.

Definition fltb (a b : float) : bool :=
  match a, b with
  | NaN, _ | _, NaN => false
  | Fin x, Fin y => if Rlt_dec x y then true else false
  | _, NInf | PInf, _ => false
  | NInf, _ | _, PInf => true
  end.

Definition feqb (a b : float) : bool :=
  match a, b with
  | Fin x, Fin y => if Req_dec_T x y then true else false
  | PInf, PInf | NInf, NInf => true
  | _, _ => false
  end.

#[global] Instance extended : Numeric.Arithmetic float := {|
  Numeric.zero := Fin 0;
  Numeric.one := Fin 1;
  Numeric.add := fadd;
  Numeric.sub := fsub;
  Numeric.mul := fmul;
  Numeric.div := fdiv;
  Numeric.sqrt := fsqrt;
  Numeric.abs := fabs;
  Numeric.ltb := fltb;
  Numeric.eqb := feqb
|}.

(** * What the properties are stated with *)

(** ** Linear systems *)

(** An equation over [n] unknown rows of length [k]. *)
Definition eqn_wf (k n : nat) (e : eqn) : Prop :=
  length (fst e) = n /\ length (snd e) = k.

(** [X] satisfies the equation [e]. *)
Definition sat (k : nat) (X : list vec) (e : eqn) : Prop :=
  lc k (fst e) X = snd e.

(** No non-zero vector is sent to zero by the rows [A]. *)
Definition nonsingular (n : nat) (A : list vec) : Prop :=
  forall v, length v = n -> Forall (fun a => dot a v = 0) A -> v = zeros n.

(** ** The outputs of the least squares fit, in closed form *)

(** The observation vectors, one per batch unit. *)
Definition observations (D : matrix) (y : ndarray R) (bs : list nat)
    : list vec :=
  chunks (product bs) (nrows D) (data y).

Definition posterior_mean (D : matrix) (X : list vec) (y : ndarray R)
    (bs : list nat) : ndarray R :=
  mk_ndarray (bs ++ [ncols D]) (flat_map (matvec X) (observations D y bs)).

Definition fitted_values (D : matrix) (X : list vec) (y : ndarray R)
    (bs : list nat) : vec :=
  flat_map (fun r => matvec (mrows D) (matvec X r)) (observations D y bs).

Definition residual_sums (D : matrix) (X : list vec) (y : ndarray R)
    (bs : list nat) : ndarray R :=
  sum_last (square (mk_ndarray (bs ++ [nrows D])
                      (zipWith Rminus (data y) (fitted_values D X y bs)))).

(** The entries of [I - D X]. *)
Definition residual_entries (D : matrix) (X : list vec) : vec :=
  zipWith Rminus (concat (eye_rows (nrows D)))
    (concat (matmul (nrows D) (mrows D) X)).

(** The effective residual degrees of freedom. *)
Definition residual_dof (D : matrix) (X : list vec) : R :=
  vsum (map (fun x => x * x) (residual_entries D X)).

Definition posterior_variance (D : matrix) (X : list vec) (y : ndarray R)
    (bs : list nat) : ndarray float :=
  mk_ndarray bs
    (map (fun s => fdiv (Fin s) (Fin (residual_dof D X)))
       (data (residual_sums D X y bs))).

(** ** Rank *)

(** A matrix whose columns are linearly independent. *)
Definition full_column_rank (D : matrix) : Prop :=
  forall c, length c = ncols D ->
    matvec (mrows D) c = zeros (nrows D) -> c = zeros (ncols D).

(** Some non-zero combination of the columns vanishes. *)
Definition rank_deficient (D : matrix) : Prop :=
  exists c, length c = ncols D /\ c <> zeros (ncols D) /\
    matvec (mrows D) c = zeros (nrows D).

(** ** Broadcasting, index by index *)

Definition bidx (n i : nat) : nat := if Nat.eqb n 1 then 0%nat else i.

(** ** The least squares fit, call by call *)

(** Lines 75-84: the branch that returns the posterior precision. *)
Definition pls_tail (unscaled_posterior_precision : matrix)
    (coef_posterior_mean : ndarray R) (residual_variance : ndarray float)
    : result pls_output :=
  let coef_posterior_mean := atleast_2d coef_posterior_mean in
  '(n_voxels, n_coefs) <- unpack2 coef_posterior_mean ;;
  let coef_posterior_mean := squeeze coef_posterior_mean in
  coef_posterior_precision <-
    broadcast (fun u r => fdiv (Fin u) r)
      (of_matrix unscaled_posterior_precision) residual_variance ;;
  coef_posterior_precision <-
    reshape coef_posterior_precision [n_voxels; n_coefs; n_coefs] ;;
  let coef_posterior_precision := squeeze coef_posterior_precision in
  Ok (Mean_Variance_Precision coef_posterior_mean residual_variance
        coef_posterior_precision).

(** Lines 64-84: what follows the linear solve. *)
Definition pls_rest (design_matrix unscaled_posterior_precision pseudoInv : matrix)
    (y : ndarray R) (return_posterior_precision : bool) : result pls_output :=
  coef_posterior_mean <- einsum_matvec pseudoInv y ;;
  smoother_matrix <- einsum_matmul design_matrix pseudoInv ;;
  residual_matrix <- broadcast Rminus (of_matrix (eye (ncols smoother_matrix)))
                                      (of_matrix smoother_matrix) ;;
  fitted <- einsum_matvec design_matrix coef_posterior_mean ;;
  residuals <- broadcast Rminus y fitted ;;
  residual_variance <-
    broadcast (fun a b => fdiv (Fin a) (Fin b))
      (sum_last (square residuals)) (sum_last2 (square residual_matrix)) ;;
  if negb return_posterior_precision
  then Ok (Mean_Variance coef_posterior_mean residual_variance)
  else pls_tail unscaled_posterior_precision coef_posterior_mean residual_variance.

(** Lines 55-61: the unscaled posterior precision. *)
Definition pls_precision (design_matrix : matrix)
    (regularization_matrix : option matrix) : result matrix :=
  match regularization_matrix with
  | None => Ok (einsum_gram design_matrix)
  | Some regularization_matrix =>
      u <- broadcast Rplus (of_matrix (einsum_gram design_matrix))
                           (of_matrix regularization_matrix) ;;
      Ok (to_matrix u)
  end.

(** A regularization matrix of the shape the data model asks for:
    coefficients x coefficients. *)
Definition regularization_ok (D : matrix) (reg : option matrix) : Prop :=
  match reg with
  | None => True
  | Some r => wf_matrix r /\ nrows r = ncols D /\ ncols r = ncols D
  end.

(** ** Positive definite matrices *)

Definition quad (P : list vec) (x : vec) : R := dot x (matvec P x).

Definition positive_definite (n : nat) (P : list vec) : Prop :=
  forall x, length x = n -> x <> zeros n -> 0 < quad P x.

Definition symmetric (P : list vec) : Prop :=
  forall i j, nth j (nth i P []) 0 = nth i (nth j P []) 0.

Definition square_rows (n : nat) (P : list vec) : Prop :=
  length P = n /\ Forall (fun r => length r = n) P.

(** The precision of the [i]-th unit of a call. *)
Definition unit_precision (n p : nat) (precision : ndarray R) (i : nat) : list vec :=
  mrows (index3 (mk_ndarray [n; p; p] (data precision)) i).

(** ** Outputs compared after squeeze *)

Definition result_map {A B} (f : A -> B) (r : result A) : result B :=
  match r with
  | Ok a => Ok (f a)
  | Raise e => Raise e
  end.

(** Every array of the output squeezed. *)
Definition squeeze_output (o : pls_output) : pls_output :=
  match o with
  | Mean_Variance m v => Mean_Variance (squeeze m) (squeeze v)
  | Mean_Variance_Precision m v q =>
      Mean_Variance_Precision (squeeze m) (squeeze v) (squeeze q)
  end.

Definition mean_of (o : pls_output) : ndarray R :=
  match o with
  | Mean_Variance m _ => m
  | Mean_Variance_Precision m _ _ => m
  end.

(** The finite entries of an array, if all are finite. *)
Fixpoint finite_list (l : list float) : option (list R) :=
  match l with
  | [] => Some []
  | Fin x :: l' => option_map (cons x) (finite_list l')
  | _ :: _ => None
  end.

Definition finite (a : ndarray float) : option (ndarray R) :=
  option_map (mk_ndarray (shape a)) (finite_list (data a)).

(** The sampler called on the mean and the precision of an output, when
    the output has a precision and it is finite; [sample_from_extended]
    below is for every output that has a precision. *)
Definition sample_from (n_samples : Z) (g : rng) (o : pls_output)
    : option (result (ndarray R * rng)) :=
  match o with
  | Mean_Variance _ _ => None
  | Mean_Variance_Precision m _ q =>
      option_map (fun P => sample_coef_posterior m P n_samples g) (finite q)
  end.

(** Lines 88-90 of [sample_coef_posterior]: the two arguments as the loop
    over voxels reads them, whatever their elements are. *)
Definition sampler_arguments {A B} (mean : ndarray A) (precision : ndarray B)
    : result (ndarray A * ndarray B) :=
  let mean := atleast_2d mean in
  '(n_voxels, n_coefs) <- unpack2 mean ;;
  precision <- reshape precision [n_voxels; n_coefs; n_coefs] ;;
  Ok (mean, precision).

(** The sampler called on the mean and the precision of an output, finite
    or not: the sampler over the extended reals. *)
Definition sample_from_extended (n_samples : Z) (g : Numeric.rng float)
    (o : pls_output) : option (result (ndarray float * Numeric.rng float)) :=
  match o with
  | Mean_Variance _ _ => None
  | Mean_Variance_Precision m _ q =>
      Some (Numeric.sample_coef_posterior (amap Fin m) q n_samples g)
  end.

(** ** Inputs of the examples *)

(** The design matrix of the regression test, [y = c_1 + c_2 x] at
    [x = 0, 1, 2]. *)
Definition test_design : matrix := mk_matrix 2 [[1; 0]; [1; 1]; [1; 2]].

(** A generator that draws zero for ever. *)
Definition zero_rng : rng := mk_rng (fun _ => 0) 0.

(** The precision [L L^T] of the factor [L = [[1, 0], [1, 1]]]. *)
Definition skew_precision : matrix := mk_matrix 2 [[1; 1]; [1; 2]].

(** Draws that make the matrix of standard normal samples the identity:
    the samples returned are then the columns of the transform itself. *)
Definition unit_draws : rng :=
  mk_rng (fun i => if Nat.eqb i 0 || Nat.eqb i 3 then 1 else 0) 0.

(** * The functions over a store: which arrays are written

    numpy arrays are objects that share buffers: [np.atleast_2d],
    [ndarray.reshape], [np.squeeze], [np.swapaxes] and indexing return
    views on the buffer of their argument, every other call of the source
    returns a new array, and [samples[i, :, :] = ...] writes into the
    buffer of [samples].  Here the two functions are written once more
    over a store of buffers, to tell which buffers a call writes. *)

Module Store.

(** What an array that owns its data holds. *)
Inductive buffer :=
| Reals (a : ndarray R)
| Floats (a : ndarray float)
| Rows (m : matrix).

Definition reals (b : buffer) : ndarray R :=
  match b with Reals a => a | _ => mk_ndarray [] [] end.

Definition floats (b : buffer) : ndarray float :=
  match b with Floats a => a | _ => mk_ndarray [] [] end.

Definition rows (b : buffer) : matrix :=
  match b with Rows m => m | _ => mk_matrix 0 [] end.

(** The buffers allocated so far, and the generator of [np.random]. *)
Record state := mk_state { heap : list buffer; generator : rng }.

(** An array object: the buffer it lives in and how its value is read off
    that buffer (shape, strides, offset). *)
Record ref (V : Type) := mk_ref { buf : nat; get : buffer -> V }.
Arguments mk_ref {V} buf get.

Definition M (A : Type) : Type := state -> result (A * state).

Definition ret {A} (a : A) : M A := fun s => Ok (a, s).

Definition mbind {A B} (m : M A) (k : A -> M B) : M B :=
  fun s => match m s with
           | Ok (a, s') => k a s'
           | Raise e => Raise e
           end.

Definition lift {A} (r : result A) : M A :=
  fun s => match r with Ok a => Ok (a, s) | Raise e => Raise e end.

(** The value of an array object. *)
Definition value {V} (s : state) (r : ref V) : V :=
  get r (nth (buf r) (heap s) (Reals (mk_ndarray [] []))).

Definition read {V} (r : ref V) : M V := fun s => Ok (value s r, s).

(** The store with one more buffer. *)
Definition extend (s : state) (b : buffer) : state :=
  mk_state (heap s ++ [b]) (generator s).

(** A new buffer at the end of the heap. *)
Definition new_buffer {V} (b : buffer) (g : buffer -> V) : M (ref V) :=
  fun s => Ok (mk_ref (length (heap s)) g, extend s b).

Definition alloc (a : ndarray R) : M (ref (ndarray R)) :=
  new_buffer (Reals a) reals.

Definition alloc_float (a : ndarray float) : M (ref (ndarray float)) :=
  new_buffer (Floats a) floats.

Definition alloc_matrix (a : matrix) : M (ref matrix) :=
  new_buffer (Rows a) rows.

(** The store with the buffer [i] replaced. *)
Definition update (s : state) (i : nat) (b : buffer) : state :=
  mk_state (firstn i (heap s) ++ b :: skipn (S i) (heap s)) (generator s).

(** Overwrite the buffer of an array. *)
Definition write (r : ref (ndarray R)) (a : ndarray R) : M unit :=
  fun s => Ok (tt, update s (buf r) (Reals a)).

(** A view: another reading of the same buffer. *)
Definition view {V W} (f : V -> W) (r : ref V) : ref W :=
  mk_ref (buf r) (fun b => f (get r b)).

Notation "x <~ m ;; k" := (mbind m (fun x => k))
  (at level 61, m at next level, right associativity).
Notation "' p <~ m ;; k" := (mbind m (fun x => let p := x in k))
  (at level 61, p pattern, m at next level, right associativity).

(** A numpy call that returns a new array: the arguments are read, the
    result is put in a new buffer. *)
Definition call1 {A B} (new : B -> M (ref B)) (f : A -> result B)
    (r : ref A) : M (ref B) :=
  a <~ read r ;; b <~ lift (f a) ;; new b.

Definition call2 {A B C} (new : C -> M (ref C)) (f : A -> B -> result C)
    (r1 : ref A) (r2 : ref B) : M (ref C) :=
  a <~ read r1 ;; b <~ read r2 ;; c <~ lift (f a b) ;; new c.

(** [a.reshape(s)] is a view of [a]. *)
Definition call_shape (r : ref (ndarray R)) : M (nat * nat) :=
  a <~ read r ;; lift (unpack2 a).

Definition reshape_view {A} (r : ref (ndarray A)) (s : list nat)
    : M (ref (ndarray A)) :=
  a <~ read r ;; _ <~ lift (reshape a s) ;;
  ret (view (fun a => mk_ndarray s (data a)) r).

(** [np.zeros(dims)] returns a new array. *)
Definition new_zeros (dims : list Z) : M (ref (ndarray R)) :=
  z <~ lift (np_zeros dims) ;; alloc z.

(** [np.random.randn(n, k)] advances the generator and returns a new
    array. *)
Definition randn_new (n k : nat) : M (ref (ndarray R)) :=
  fun s =>
    let '(a, g) := randn (generator s) n k in
    alloc a (mk_state (heap s) g).

(** [a[i, :, :] = v] writes into the buffer of [a]. *)
Definition setitem3_write (a : ref (ndarray R)) (i : nat)
    (v : ref (ndarray R)) : M unit :=
  x <~ read a ;; y <~ read v ;; x' <~ lift (setitem3 x i y) ;;
  write a x'.

Fixpoint for_each (body : nat -> M unit) (range : list nat) : M unit :=
  match range with
  | [] => ret tt
  | i :: range' => _ <~ body i ;; for_each body range'
  end.

(** The arrays [probabilistic_least_squares] returns. *)
Inductive pls_refs :=
| Mean_Variance_refs (coef_posterior_mean : ref (ndarray R))
                     (residual_variance : ref (ndarray float))
| Mean_Variance_Precision_refs (coef_posterior_mean : ref (ndarray R))
                               (residual_variance : ref (ndarray float))
                               (coef_posterior_precision : ref (ndarray float)).

Definition probabilistic_least_squares (design_matrix : ref matrix)
    (y : ref (ndarray R)) (regularization_matrix : option (ref matrix))
    (return_posterior_precision : bool) : M pls_refs :=
  unscaled_posterior_precision <~
    match regularization_matrix with
    | None => call1 alloc_matrix (fun d => Ok (einsum_gram d)) design_matrix
    | Some regularization_matrix =>
        g <~ call1 alloc_matrix (fun d => Ok (einsum_gram d)) design_matrix ;;
        u <~ call2 alloc (broadcast Rplus)
               (view of_matrix g) (view of_matrix regularization_matrix) ;;
        ret (view to_matrix u)
    end ;;
  pseudoInv <~ call2 alloc_matrix linalg_solve
                 unscaled_posterior_precision (view swapaxes design_matrix) ;;
  coef_posterior_mean <~ call2 alloc einsum_matvec pseudoInv y ;;
  smoother_matrix <~ call2 alloc_matrix einsum_matmul design_matrix pseudoInv ;;
  identity <~ call1 alloc_matrix (fun s => Ok (eye (ncols s))) smoother_matrix ;;
  residual_matrix <~ call2 alloc (broadcast Rminus)
                       (view of_matrix identity) (view of_matrix smoother_matrix) ;;
  fitted <~ call2 alloc einsum_matvec design_matrix coef_posterior_mean ;;
  residuals <~ call2 alloc (broadcast Rminus) y fitted ;;
  squared_residuals <~ call1 alloc (fun a => Ok (square a)) residuals ;;
  residual_sum <~ call1 alloc (fun a => Ok (sum_last a)) squared_residuals ;;
  squared_matrix <~ call1 alloc (fun a => Ok (square a)) residual_matrix ;;
  matrix_sum <~ call1 alloc (fun a => Ok (sum_last2 a)) squared_matrix ;;
  residual_variance <~
    call2 alloc_float (broadcast (fun a b => fdiv (Fin a) (Fin b)))
      residual_sum matrix_sum ;;
  if negb return_posterior_precision
  then ret (Mean_Variance_refs coef_posterior_mean residual_variance)
  else
    let coef_posterior_mean := view atleast_2d coef_posterior_mean in
    '(n_voxels, n_coefs) <~ call_shape coef_posterior_mean ;;
    let coef_posterior_mean := view squeeze coef_posterior_mean in
    coef_posterior_precision <~
      call2 alloc_float (broadcast (fun u r => fdiv (Fin u) r))
        (view of_matrix unscaled_posterior_precision) residual_variance ;;
    coef_posterior_precision <~
      reshape_view coef_posterior_precision [n_voxels; n_coefs; n_coefs] ;;
    let coef_posterior_precision := view squeeze coef_posterior_precision in
    ret (Mean_Variance_Precision_refs coef_posterior_mean residual_variance
           coef_posterior_precision).

(** One turn of the loop over voxels. *)
Definition sample_voxel (mean precision : ref (ndarray R))
    (n_coefs n_samples : nat) (samples : ref (ndarray R)) (i : nat) : M unit :=
  standard_normal_samples <~ randn_new n_coefs n_samples ;;
  L <~ call1 alloc_matrix linalg_cholesky
         (view (fun a => index3 a i) precision) ;;
  s <~ call2 alloc_matrix linalg_solve L
         (view to_matrix standard_normal_samples) ;;
  v <~ call2 alloc (broadcast Rplus)
         (view (fun a => index_column a i) mean) (view of_matrix s) ;;
  setitem3_write samples i v.

Definition sample_coef_posterior (mean precision : ref (ndarray R))
    (n_samples : Z) : M (ref (ndarray R)) :=
  let mean := view atleast_2d mean in
  '(n_voxels, n_coefs) <~ call_shape mean ;;
  precision <~ reshape_view precision [n_voxels; n_coefs; n_coefs] ;;
  samples <~ new_zeros [Z.of_nat n_voxels; Z.of_nat n_coefs; n_samples] ;;
  _ <~ for_each
         (sample_voxel mean precision n_coefs (Z.to_nat n_samples) samples)
         (seq 0 n_voxels) ;;
  let samples := view squeeze samples in
  ret samples.

(** ** Which buffers a computation leaves alone *)

(** The first [L] buffers are the same in [s'] as in [s], and no buffer
    was removed. *)
Definition preserves (L : nat) (s s' : state) : Prop :=
  firstn L (heap s') = firstn L (heap s)
  /\ (length (heap s) <= length (heap s'))%nat.

(** Started on a heap of at least [L] buffers, [m] preserves the first
    [L] of them, and what it returns satisfies [Q]. *)
Definition framed {A} (L : nat) (Q : A -> Prop) (m : M A) : Prop :=
  forall s a s', (L <= length (heap s))%nat -> m s = Ok (a, s') ->
    preserves L s s' /\ Q a.

(** An array in a buffer allocated after the first [L]. *)
Definition fresh {V} (L : nat) (r : ref V) : Prop := (L <= buf r)%nat.

Definition any {A} (a : A) : Prop := True.

(** The arrays returned are in buffers allocated after the first [L]. *)
Definition fresh_outputs (L : nat) (out : pls_refs) : Prop :=
  match out with
  | Mean_Variance_refs m v => fresh L m /\ fresh L v
  | Mean_Variance_Precision_refs m v q => fresh L m /\ fresh L v /\ fresh L q
  end.

End Store.

(** ** Arrays of the store and their values *)

(** The array object [r] exists in [s] and has the value [v]. *)
Definition holds {V} (s : Store.state) (r : Store.ref V) (v : V) : Prop :=
  exists b, nth_error (Store.heap s) (Store.buf r) = Some b /\ Store.get r b = v.

(** Every array of [s] is an array of [s'], with the same value. *)
Definition heap_stable (s s' : Store.state) : Prop :=
  forall W (r : Store.ref W) w, holds s r w -> holds s' r w.

Definition stable (s s' : Store.state) : Prop :=
  heap_stable s s' /\ Store.generator s' = Store.generator s.

(** A run over the store against a result over values: both raise the
    same exception, or both return and the returns are related. *)
Definition refines {A V} (rel : Store.state -> A -> V -> Prop)
    (x : result (A * Store.state)) (y : result V) : Prop :=
  match x, y with
  | Ok (a, s'), Ok v => rel s' a v
  | Raise e, Raise e' => e = e'
  | _, _ => False
  end.

(** A call that returns its result in a new buffer. *)
Definition allocator {B} (new : B -> Store.M (Store.ref B)) : Prop :=
  exists (cell : B -> Store.buffer) (g : Store.buffer -> B),
    (forall b s, new b s
                 = Ok (Store.mk_ref (length (Store.heap s)) g,
                       Store.extend s (cell b)))
    /\ forall b, g (cell b) = b.

(** The arrays returned over the store hold the values returned. *)
Definition holds_output (s : Store.state) (out : Store.pls_refs)
    (o : pls_output) : Prop :=
  match out, o with
  | Store.Mean_Variance_refs m v, Mean_Variance mv vv =>
      holds s m mv /\ holds s v vv
  | Store.Mean_Variance_Precision_refs m v q, Mean_Variance_Precision mv vv qv =>
      holds s m mv /\ holds s v vv /\ holds s q qv
  | _, _ => False
  end.

Definition holds_option {V} (s : Store.state) (r : option (Store.ref V))
    (v : option V) : Prop :=
  match r, v with
  | None, None => True
  | Some r, Some v => holds s r v
  | _, _ => False
  end.

(** An array that owns its buffer: its value is the whole of it. *)
Definition owns (r : Store.ref (ndarray R)) : Prop :=
  forall a, Store.get r (Store.Reals a) = a.

(** The arrays other than [a] keep their values from [s] to [s']. *)
Definition stable_but {V} (a : Store.ref V) (s s' : Store.state) : Prop :=
  forall W (r : Store.ref W) w,
    holds s r w -> Store.buf r <> Store.buf a -> holds s' r w.

(** What holds between two turns of the loop over voxels. *)
Definition loop_invariant (mean precision samples : Store.ref (ndarray R))
    (mv pv : ndarray R) (s : Store.state) (_ : unit) (st : ndarray R * rng)
    : Prop :=
  holds s mean mv /\ holds s precision pv /\ holds s samples (fst st)
  /\ Store.generator s = snd st.

(** The array returned holds the samples, and the generator has advanced
    as in the run over values. *)
Definition holds_samples (s : Store.state) (r : Store.ref (ndarray R))
    (out : ndarray R * rng) : Prop :=
  holds s r (fst out) /\ Store.generator s = snd out.

(** ** A store for the examples *)

(** A store with the arrays of the regression test and of the sampler. *)
Definition example_store : Store.state :=
  Store.mk_state
    [Store.Rows test_design; Store.Reals (mk_ndarray [3%nat] [1; 3; 5]);
     Store.Reals (mk_ndarray [2%nat] [0; 0]);
     Store.Reals (of_matrix skew_precision)]
    unit_draws.

Definition design_ref : Store.ref matrix := Store.mk_ref 0 Store.rows.

Definition y_ref : Store.ref (ndarray R) := Store.mk_ref 1 Store.reals.

Definition mean_ref : Store.ref (ndarray R) := Store.mk_ref 2 Store.reals.

Definition precision_ref : Store.ref (ndarray R) := Store.mk_ref 3 Store.reals.

(** ** The DKI design matrix, measurement by measurement *)

(** A measurement: its b-value and its direction. *)
Abbreviation measurement := (R * direction)%type (only parsing).

(** The array that holds [U m] for every measurement [m] of [l]. *)
Definition per_measurement (l : list measurement) (U : measurement -> R)
    : ndarray R :=
  mk_ndarray [length l] (map U l).

(** In a product with an array over the measurements [l], the array [a]
    contributes [V m] at the measurement [m]: it holds these values, or it
    holds one value, which broadcasting repeats. *)
Definition acts_as (l : list measurement) (V : measurement -> R)
    (a : ndarray R) : Prop :=
  a = per_measurement l V
  \/ exists v, a = mk_ndarray [1%nat] [v] /\ forall m, In m l -> V m = v.

(** The row of the design matrix for one measurement. *)
Definition dki_row (m : measurement) : vec :=
  let b := fst m in
  let x := g0 (snd m) in
  let y := g1 (snd m) in
  let z := g2 (snd m) in
  [ - b * x * x; -2 * b * x * y; - b * y * y;
    -2 * b * x * z; -2 * b * y * z; - b * z * z;
    b * b * x ^ 4 / 6; b * b * y ^ 4 / 6; b * b * z ^ 4 / 6;
    4 * b * b * x ^ 3 * y / 6; 4 * b * b * x ^ 3 * z / 6;
    4 * b * b * y ^ 3 * x / 6; 4 * b * b * y ^ 3 * z / 6;
    4 * b * b * z ^ 3 * x / 6; 4 * b * b * z ^ 3 * y / 6;
    b * b * x ^ 2 * y ^ 2; b * b * x ^ 2 * z ^ 2; b * b * y ^ 2 * z ^ 2;
    2 * b * b * x ^ 2 * y * z; 2 * b * b * y ^ 2 * x * z;
    2 * b * b * z ^ 2 * x * y;
    1 ].

(** The component [i] of a direction: 0 is x, 1 is y, 2 is z. *)
Definition component (g : direction) (i : nat) : R :=
  match i with
  | O => g0 g
  | S O => g1 g
  | _ => g2 g
  end.

(** How many of the indices are [a]. *)
Definition occurrences (a : nat) (idx : list nat) : nat :=
  length (filter (Nat.eqb a) idx).

(** The column that holds the element [(i, j)] of the symmetric diffusion
    tensor: xx, xy, yy, xz, yz, zz are the columns 0 to 5. *)
Definition diffusion_column (i j : nat) : nat :=
  match occurrences 0 [i; j], occurrences 1 [i; j] with
  | 2, _ => 0
  | 1, 1 => 1
  | 0, 2 => 2
  | 1, 0 => 3
  | 0, 1 => 4
  | _, _ => 5
  end%nat.

(** The column that holds the element [(i, j, k, l)] of the fully
    symmetric kurtosis tensor, columns 6 to 20. *)
Definition kurtosis_column (i j k l : nat) : nat :=
  match occurrences 0 [i; j; k; l], occurrences 1 [i; j; k; l] with
  | 4, _ => 6
  | 0, 4 => 7
  | 0, 0 => 8
  | 3, 1 => 9
  | 3, 0 => 10
  | 1, 3 => 11
  | 0, 3 => 12
  | 1, 0 => 13
  | 0, 1 => 14
  | 2, 2 => 15
  | 2, 0 => 16
  | 0, 2 => 17
  | 2, 1 => 18
  | 1, 2 => 19
  | _, _ => 20
  end%nat.

Definition axes : list nat := [0; 1; 2]%nat.

(** The sum of [f i] over the three axes. *)
Definition sum_axes (f : nat -> R) : R := vsum (map f axes).

(** The logarithm of the signal that the DKI model predicts for the
    b-value [b] and the direction [g], with the 22 coefficients [c]: the
    elements of the diffusion tensor [D], those of the kurtosis tensor [W]
    and the logarithm of the unweighted signal,
    [log S0 - b sum_ij g_i g_j D_ij + b^2/6 sum_ijkl g_i g_j g_k g_l W_ijkl]. *)
Definition dki_log_signal (c : vec) (b : R) (g : direction) : R :=
  nth 21 c 0
  - b * sum_axes (fun i => sum_axes (fun j =>
        component g i * component g j * nth (diffusion_column i j) c 0))
  + b * b / 6 * sum_axes (fun i => sum_axes (fun j =>
        sum_axes (fun k => sum_axes (fun l =>
          component g i * component g j * component g k * component g l
          * nth (kurtosis_column i j k l) c 0)))).

(** The measurements of a gradient table. *)
Definition measurements (gtab : GradientTable) : list measurement :=
  combine (bvals gtab) (bvecs gtab).

(** The row [j] of a two-dimensional array with [w] columns. *)
Definition row (B : ndarray R) (j : nat) : vec :=
  slice j (last (shape B) 0%nat) (data B).

(** A table of two measurements: one without diffusion weighting, one at
    b = 1000 along the x axis. *)
Definition example_gtab : GradientTable :=
  mk_GradientTable [0; 1000] [mk_direction 0 0 0; mk_direction 1 0 0].

(** The direction opposite to [g]. *)
Definition opposite (g : direction) : direction :=
  mk_direction (- g0 g) (- g1 g) (- g2 g).

(** ** Least squares *)

(** What the coefficients [c] leave of the observations [y]. *)
Definition residual (D : matrix) (c y : vec) : vec :=
  vsub y (matvec (mrows D) c).

(** The sum of the squares of the elements. *)
Definition sum_of_squares (v : vec) : R := dot v v.

(** [D^T y] *)
Definition correlations (D : matrix) (y : vec) : vec :=
  matvec (transpose (ncols D) (mrows D)) y.

(** The penalty that the regularization matrix puts on coefficients. *)
Definition penalty (reg : option matrix) (c : vec) : R :=
  match reg with
  | None => 0
  | Some L => quad (mrows L) c
  end.

(** What the posterior mean minimizes. *)
Definition objective (D : matrix) (reg : option matrix) (y c : vec) : R :=
  sum_of_squares (residual D c y) + penalty reg c.

(** A regularization matrix that is symmetric and positive semidefinite. *)
Definition regularization_psd (D : matrix) (reg : option matrix) : Prop :=
  match reg with
  | None => True
  | Some L =>
      symmetric (mrows L)
      /\ forall x, length x = ncols D -> 0 <= quad (mrows L) x
  end.

(** The row [i] of the identity of size [n]. *)
Definition unit_vector (n i : nat) : vec :=
  map (fun j => if Nat.eqb i j then 1 else 0) (seq 0 n).

(** The sum of [f i] for [i] below [n]. *)
Definition sum_below (n : nat) (f : nat -> R) : R := vsum (map f (seq 0 n)).

(** ** The samples of one unit *)

(** The standard normal draws of one unit: the [p * k] draws from the
    position [pos] on, as a matrix of [p] rows and [k] columns. *)
Definition draws_block (g : rng) (pos p k : nat) : list vec :=
  chunks p k (map (draws g) (seq pos (p * k))).

(** The rows of [X], each with the element of [a] of its row added. *)
Definition shifted (a : vec) (X : list vec) : list vec :=
  zipWith (fun x row => map (Rplus x) row) a X.

(** The rows of [S], each with the element of [a] of its row subtracted. *)
Definition centered (a : vec) (S : list vec) : list vec :=
  zipWith (fun x row => map (fun s => s - x) row) a S.

(** The samples of the unit [i], a matrix of [p] coefficients by [k]
    samples, in an array of shape (n, p, k). *)
Definition unit_samples (p k : nat) (samples : ndarray R) (i : nat)
    : list vec :=
  chunks p k (slice i (p * k) (data samples)).

(** What the loop has written for the unit [j], when the first draw of
    the unit is at [pos]: the solution [X] of [L X = Z], where [L] is the
    Cholesky factor of the precision of the unit and [Z] the draws, with
    the mean of the unit added. *)
Definition unit_drawn (mean precision : ndarray R) (p k : nat) (g : rng)
    (pos : nat) (samples : ndarray R) (j : nat) : Prop :=
  exists L X,
    cholesky_rows p (mrows (index3 precision j)) = Some L /\
    length X = p /\ Forall (fun r => length r = k) X /\
    matmul k L X = draws_block g pos p k /\
    slice j (p * k) (data samples)
    = concat (shifted (slice j p (data mean)) X).

(** ** The functions over any arithmetic *)

Section Numeric_vocabulary.

Context {F : Type} {ar : Numeric.Arithmetic F}.

(** A matrix whose rows have the length it declares. *)
Definition numeric_wf (M : Numeric.matrix F) : Prop :=
  Forall (fun r => length r = Numeric.ncols M) (Numeric.mrows M).

(** A regularization matrix of the shape the data model asks for. *)
Definition numeric_regularization_ok (D : Numeric.matrix F)
    (reg : option (Numeric.matrix F)) : Prop :=
  match reg with
  | None => True
  | Some r => numeric_wf r /\ Numeric.nrows r = Numeric.ncols D
              /\ Numeric.ncols r = Numeric.ncols D
  end.

(** Lines 55-61: the unscaled posterior precision. *)
Definition numeric_precision (D : Numeric.matrix F)
    (reg : option (Numeric.matrix F)) : result (Numeric.matrix F) :=
  match reg with
  | None => Ok (Numeric.einsum_gram D)
  | Some regularization_matrix =>
      u <- broadcast Numeric.add (Numeric.of_matrix (Numeric.einsum_gram D))
                                 (Numeric.of_matrix regularization_matrix) ;;
      Ok (Numeric.to_matrix u)
  end.

End Numeric_vocabulary.

(** A matrix of reals as a matrix of finite numbers. *)
Definition finite_matrix (M : matrix) : Numeric.matrix float :=
  Numeric.mk_matrix (ncols M) (map (map Fin) (mrows M)).

(** * Properties *)

(** ** Vectors *)

Lemma zipWith_length {A B C} (f : A -> B -> C) xs ys :
  length (zipWith f xs ys) = Nat.min (length xs) (length ys).
Proof.
  revert ys; induction xs as [|x xs IH]; intros [|y ys]; simpl; auto.
Qed.

Lemma vadd_length u v : length (vadd u v) = Nat.min (length u) (length v).
Proof. apply zipWith_length. Qed.

Lemma vsub_length u v : length (vsub u v) = Nat.min (length u) (length v).
Proof. apply zipWith_length. Qed.

Lemma scale_length a v : length (scale a v) = length v.
Proof. apply length_map. Qed.

Lemma zeros_length n : length (zeros n) = n.
Proof. apply repeat_length. Qed.

Lemma lc_length k a X :
  Forall (fun x => length x = k) X -> length (lc k a X) = k.
Proof.
  revert X; induction a as [|aj a IH]; intros [|x X] H; simpl;
    try apply zeros_length.
  inversion H; subst.
  rewrite vadd_length, scale_length, IH by assumption. apply Nat.min_id.
Qed.

Create Rewrite HintDb vlen.
#[local] Hint Rewrite vadd_length vsub_length scale_length zeros_length
  length_map repeat_length : vlen.

Ltac vlen :=
  autorewrite with vlen in *; simpl in *;
  repeat match goal with
         | H : Forall _ ?X |- context [length (lc ?k ?a ?X)] =>
             rewrite (@lc_length k a X H)
         end;
  try lia.

Lemma nth_zipWith (f : R -> R -> R) u v i :
  length u = length v -> f 0 0 = 0 ->
  nth i (zipWith f u v) 0 = f (nth i u 0) (nth i v 0).
Proof.
  intros Hl H0. revert v i Hl.
  induction u as [|a u IH]; intros [|b v] i Hl; simpl in *; try discriminate.
  - destruct i; auto.
  - destruct i; auto.
Qed.

Lemma nth_vadd u v i :
  length u = length v -> nth i (vadd u v) 0 = nth i u 0 + nth i v 0.
Proof. intros; apply nth_zipWith; auto; lra. Qed.

Lemma nth_vsub u v i :
  length u = length v -> nth i (vsub u v) 0 = nth i u 0 - nth i v 0.
Proof. intros; apply nth_zipWith; auto; lra. Qed.

Lemma nth_scale a v i : nth i (scale a v) 0 = a * nth i v 0.
Proof.
  revert i; induction v as [|b v IH]; intros [|i]; simpl; auto; lra.
Qed.

Lemma nth_zeros n i : nth i (zeros n) 0 = 0.
Proof.
  revert i; induction n; intros [|i]; simpl; auto.
Qed.

Lemma vec_ext (u v : vec) :
  length u = length v -> (forall i, nth i u 0 = nth i v 0) -> u = v.
Proof.
  revert v; induction u as [|a u IH]; intros [|b v] Hl H; simpl in *;
    try discriminate; auto.
  f_equal.
  - apply (H 0%nat).
  - apply IH; [lia | intro i; apply (H (S i))].
Qed.

(** [dot] and [lc] are linear. *)

Lemma dot_zeros_r u n : dot u (zeros n) = 0.
Proof.
  revert n; induction u as [|a u IH]; intros [|n]; simpl; auto.
  rewrite IH; lra.
Qed.

Lemma dot_zeros_l n v : dot (zeros n) v = 0.
Proof.
  revert v; induction n; intros [|b v]; simpl; auto.
  rewrite IHn; lra.
Qed.

Lemma dot_comm u v : dot u v = dot v u.
Proof.
  revert v; induction u as [|a u IH]; intros [|b v]; simpl; auto.
  rewrite IH; lra.
Qed.

Lemma dot_scale_l f u v : dot (scale f u) v = f * dot u v.
Proof.
  revert v; induction u as [|a u IH]; intros [|b v]; simpl; try lra.
  rewrite IH; lra.
Qed.

Lemma dot_vadd_l u w v :
  length u = length w -> dot (vadd u w) v = dot u v + dot w v.
Proof.
  revert w v; induction u as [|a u IH]; intros [|c w] [|b v] Hl; simpl in *;
    try discriminate; try lra.
  rewrite IH by lia; lra.
Qed.

Lemma dot_vsub_l u w v :
  length u = length w -> dot (vsub u w) v = dot u v - dot w v.
Proof.
  revert w v; induction u as [|a u IH]; intros [|c w] [|b v] Hl; simpl in *;
    try discriminate; try lra.
  rewrite IH by lia; lra.
Qed.

Lemma lc_vsub_scale k a b f X :
  length a = length b -> Forall (fun x => length x = k) X ->
  lc k (vsub a (scale f b)) X = vsub (lc k a X) (scale f (lc k b X)).
Proof.
  intros Hl HX. revert b X Hl HX.
  induction a as [|aj a IH]; intros [|bj b] X Hl HX; simpl in *;
    try discriminate.
  - apply vec_ext; [vlen|]. intro i.
    rewrite nth_vsub, nth_scale, !nth_zeros by vlen. lra.
  - destruct X as [|x X].
    + apply vec_ext; [vlen|]. intro i.
      rewrite nth_vsub, nth_scale, !nth_zeros by vlen. lra.
    + inversion HX; subst.
      rewrite IH by (auto; lia).
      apply vec_ext; [vlen|]. intro i.
      rewrite nth_vsub, nth_scale, !nth_vadd, !nth_scale, nth_vsub, nth_scale
        by vlen.
      lra.
Qed.

(** ** Gaussian elimination computes the exact solution *)

Section Gauss.

Variable k : nat.

Lemma pivot_none sys : pivot sys = None -> sys = [].
Proof.
  destruct sys as [|e rest]; simpl; auto.
  destruct (pivot rest) as [[b others]|]; try discriminate.
  destruct (Rlt_dec _ _); discriminate.
Qed.

Lemma pivot_perm sys p others :
  pivot sys = Some (p, others) -> Permutation sys (p :: others).
Proof.
  revert p others; induction sys as [|e rest IH]; simpl; intros p others H.
  - discriminate.
  - destruct (pivot rest) as [[b o]|] eqn:E.
    + specialize (IH _ _ eq_refl).
      destruct (Rlt_dec _ _); inversion H; subst.
      * rewrite IH. apply perm_swap.
      * constructor. exact IH.
    + inversion H; subst. apply pivot_none in E; subst. reflexivity.
Qed.

Lemma pivot_max sys p others :
  pivot sys = Some (p, others) ->
  Forall (fun e => Rabs (lead e) <= Rabs (lead p)) sys.
Proof.
  revert p others; induction sys as [|e rest IH]; simpl; intros p others H.
  - constructor.
  - destruct (pivot rest) as [[b o]|] eqn:E.
    + specialize (IH _ _ eq_refl).
      destruct (Rlt_dec _ _) as [Hlt|Hge]; inversion H; subst.
      * constructor; [lra | exact IH].
      * constructor; [lra|].
        eapply Forall_impl; [|exact IH]. simpl; intros; lra.
    + inversion H; subst. apply pivot_none in E; subst.
      constructor; [lra | constructor].
Qed.

Lemma eliminate_wf n p e :
  eqn_wf k (S n) p -> eqn_wf k (S n) e -> eqn_wf k n (eliminate p e).
Proof.
  intros [Hp1 Hp2] [He1 He2].
  destruct p as [[|ap rp] bp], e as [[|ae re] be]; simpl in *; try discriminate.
  split; simpl; vlen.
Qed.

Lemma eliminate_all_wf n p others :
  eqn_wf k (S n) p -> Forall (eqn_wf k (S n)) others ->
  Forall (eqn_wf k n) (map (eliminate p) others).
Proof.
  intros Hp Ho. apply Forall_map.
  eapply Forall_impl; [|exact Ho]. intros e He. apply eliminate_wf; auto.
Qed.

(** The pivot step on a well-formed system. *)
Lemma pivot_step n sys p others :
  length sys = S n -> Forall (eqn_wf k (S n)) sys ->
  pivot sys = Some (p, others) ->
  eqn_wf k (S n) p /\ Forall (eqn_wf k (S n)) others /\ length others = n.
Proof.
  intros Hlen Hwf Hp.
  pose proof (pivot_perm _ Hp) as Hperm.
  pose proof (Permutation_Forall Hperm Hwf) as Hwf'.
  inversion Hwf'; subst.
  apply Permutation_length in Hperm. simpl in Hperm.
  split; [assumption|]. split; [assumption | lia].
Qed.

Lemma gauss_sound n : forall sys X,
  length sys = n -> Forall (eqn_wf k n) sys ->
  gauss k n sys = Some X ->
  length X = n /\ Forall (fun x => length x = k) X /\ Forall (sat k X) sys.
Proof.
  induction n as [|n IH]; intros sys X Hlen Hwf H; simpl in H.
  - inversion H; subst. destruct sys; try discriminate. repeat split; constructor.
  - destruct (pivot sys) as [[p others]|] eqn:Hp; try discriminate.
    destruct (Req_dec_T (lead p) 0) as [|Hnz]; try discriminate.
    destruct (gauss k n (map (eliminate p) others)) as [X'|] eqn:HG;
      try discriminate.
    inversion H; subst; clear H.
    destruct (pivot_step Hlen Hwf Hp) as (Hpw & How & Hol).
    destruct (IH _ _ ltac:(rewrite length_map; exact Hol)
                (eliminate_all_wf Hpw How) HG) as (HXl & HXk & Hsat).
    assert (Hx1 : length (scale (/ lead p)
                    (vsub (snd p) (lc k (tl (fst p)) X'))) = k).
    { destruct Hpw as [_ Hb]. vlen. }
    split; [simpl; lia|]. split; [constructor; auto|].
    apply (Permutation_Forall (Permutation_sym (pivot_perm _ Hp))).
    destruct p as [[|ap rp] bp]; [destruct Hpw; discriminate|].
    unfold lead in *; simpl in *. destruct Hpw as [Hrp Hbp]; simpl in *.
    constructor.
    + unfold sat; simpl.
      apply vec_ext; [vlen|]. intro i.
      rewrite nth_vadd, !nth_scale, nth_vsub by vlen. field; auto.
    + rewrite Forall_map in Hsat.
      rewrite Forall_forall in Hsat, How. apply Forall_forall. intros e He.
      specialize (Hsat e He). specialize (How e He).
      destruct e as [[|ae re] be]; [destruct How; discriminate|].
      destruct How as [Hre Hbe]; simpl in *.
      unfold sat, eliminate, lead in *; simpl in *.
      rewrite lc_vsub_scale in Hsat by (auto; lia).
      apply vec_ext; [vlen|]. intro i.
      apply (f_equal (fun v => nth i v 0)) in Hsat.
      rewrite !nth_vsub, !nth_scale in Hsat by vlen.
      rewrite nth_vadd, !nth_scale, nth_vsub by vlen.
      apply Rminus_diag_uniq. 
      replace (ae * (/ ap * (nth i bp 0 - nth i (lc k rp X') 0))
               + nth i (lc k re X') 0 - nth i be 0)
        with ((nth i (lc k re X') 0 - ae / ap * nth i (lc k rp X') 0)
              - (nth i be 0 - ae / ap * nth i bp 0)) by (field; auto).
      rewrite Hsat. ring.
Qed.

Lemma gauss_unique n : forall sys X0 X,
  length sys = n -> Forall (eqn_wf k n) sys ->
  gauss k n sys = Some X0 ->
  length X = n -> Forall (fun x => length x = k) X -> Forall (sat k X) sys ->
  X = X0.
Proof.
  induction n as [|n IH]; intros sys X0 X Hlen Hwf H HXl HXk Hsat; simpl in H.
  - inversion H; subst. destruct X; auto; discriminate.
  - destruct (pivot sys) as [[p others]|] eqn:Hp; try discriminate.
    destruct (Req_dec_T (lead p) 0) as [|Hnz]; try discriminate.
    destruct (gauss k n (map (eliminate p) others)) as [X'|] eqn:HG;
      try discriminate.
    inversion H; subst; clear H.
    destruct (pivot_step Hlen Hwf Hp) as (Hpw & How & Hol).
    destruct X as [|x1 Xt]; [discriminate|].
    apply Forall_cons_iff in HXk. destruct HXk as [Hx1 HXtk].
    apply (Permutation_Forall (pivot_perm _ Hp)) in Hsat.
    apply Forall_cons_iff in Hsat. destruct Hsat as [Hsp Hso].
    destruct p as [[|ap rp] bp]; [destruct Hpw; discriminate|].
    unfold lead in *; simpl in *. destruct Hpw as [Hrp Hbp]; simpl in *.
    unfold sat in Hsp; simpl in Hsp.
    assert (HXt : Xt = X').
    { apply (IH (map (eliminate (ap :: rp, bp)) others)); auto.
      - rewrite length_map; exact Hol.
      - apply eliminate_all_wf; [split; simpl; auto | exact How].
      - apply Forall_map. rewrite Forall_forall in Hso, How.
        apply Forall_forall. intros e He.
        specialize (Hso e He). specialize (How e He).
        destruct e as [[|ae re] be]; [destruct How; discriminate|].
        destruct How as [Hre Hbe]; simpl in *.
        unfold sat, eliminate, lead in *; simpl in *.
        rewrite lc_vsub_scale by (auto; lia).
        apply vec_ext; [vlen|]. intro i.
        apply (f_equal (fun v => nth i v 0)) in Hso, Hsp.
        rewrite nth_vadd, nth_scale in Hso, Hsp by vlen.
        rewrite !nth_vsub, !nth_scale by vlen.
        rewrite <- Hso, <- Hsp. field; auto. }
    subst Xt. f_equal.
    apply vec_ext; [vlen|]. intro i.
    apply (f_equal (fun v => nth i v 0)) in Hsp.
    rewrite nth_vadd, nth_scale in Hsp by vlen.
    rewrite nth_scale, nth_vsub by vlen.
    rewrite <- Hsp. field; auto.
Qed.

Lemma gauss_nonsingular n : forall sys X,
  length sys = n -> Forall (eqn_wf k n) sys ->
  gauss k n sys = Some X -> nonsingular n (map fst sys).
Proof.
  induction n as [|n IH]; intros sys X Hlen Hwf H v Hv Hker; simpl in H.
  - destruct v; auto; discriminate.
  - destruct (pivot sys) as [[p others]|] eqn:Hp; try discriminate.
    destruct (Req_dec_T (lead p) 0) as [|Hnz]; try discriminate.
    destruct (gauss k n (map (eliminate p) others)) as [X'|] eqn:HG;
      try discriminate.
    destruct (pivot_step Hlen Hwf Hp) as (Hpw & How & Hol).
    destruct v as [|v1 v']; [discriminate|].
    apply (Permutation_Forall (Permutation_map fst (pivot_perm _ Hp))) in Hker.
    simpl in Hker. apply Forall_cons_iff in Hker. destruct Hker as [Hkp Hko].
    destruct p as [[|ap rp] bp]; [destruct Hpw; discriminate|].
    unfold lead in *; simpl in *. destruct Hpw as [Hrp Hbp]; simpl in *.
    assert (Hv' : v' = zeros n).
    { apply (IH (map (eliminate (ap :: rp, bp)) others) X'); auto.
      - rewrite length_map; exact Hol.
      - apply eliminate_all_wf; [split; simpl; auto | exact How].
      - rewrite map_map. apply Forall_map.
        rewrite Forall_map in Hko. rewrite Forall_forall in Hko, How.
        apply Forall_forall. intros e He.
        specialize (Hko e He). specialize (How e He).
        destruct e as [[|ae re] be]; [destruct How; discriminate|].
        destruct How as [Hre Hbe]; simpl in *.
        unfold lead; simpl.
        rewrite dot_vsub_l, dot_scale_l by vlen.
        replace (dot re v') with (- (ae * v1)) by lra.
        replace (dot rp v') with (- (ap * v1)) by lra.
        field; auto. }
    subst v'. rewrite dot_zeros_r in Hkp.
    assert (v1 = 0) by (apply (Rmult_eq_reg_l ap); [lra | auto]).
    subst v1. reflexivity.
Qed.

Lemma gauss_complete n : forall sys,
  length sys = n -> Forall (eqn_wf k n) sys ->
  nonsingular n (map fst sys) -> exists X, gauss k n sys = Some X.
Proof.
  induction n as [|n IH]; intros sys Hlen Hwf Hns; simpl.
  - eauto.
  - destruct (pivot sys) as [[p others]|] eqn:Hp.
    2:{ apply pivot_none in Hp; subst; discriminate. }
    destruct (pivot_step Hlen Hwf Hp) as (Hpw & How & Hol).
    pose proof (pivot_max _ Hp) as Hmax.
    destruct (Req_dec_T (lead p) 0) as [Hz|Hnz].
    + exfalso.
      assert (H1 : (1 :: zeros n) = zeros (S n)).
      { apply Hns; [simpl; vlen|].
        apply Forall_map. rewrite Forall_forall in Hmax, Hwf.
        apply Forall_forall. intros e He.
        specialize (Hmax e He). specialize (Hwf e He).
        rewrite Hz, Rabs_R0 in Hmax.
        assert (lead e = 0).
        { pose proof (Rabs_pos (lead e)).
          destruct (Req_dec_T (lead e) 0) as [|Hne]; auto.
          apply Rabs_pos_lt in Hne. lra. }
        destruct e as [[|ae re] be]; [destruct Hwf; discriminate|].
        unfold lead in *; simpl in *. rewrite dot_zeros_r. lra. }
      simpl in H1. inversion H1. lra.
    + assert (HX : exists X', gauss k n (map (eliminate p) others) = Some X').
      { destruct p as [[|ap rp] bp]; [destruct Hpw; discriminate|].
        unfold lead in Hnz; simpl in Hnz.
        destruct Hpw as [Hrp Hbp]; simpl in Hrp, Hbp.
        apply IH.
        - rewrite length_map; exact Hol.
        - apply eliminate_all_wf; [split; simpl; auto | exact How].
        - intros v' Hv' Hker.
          assert (Hall : (- (dot rp v' / ap) :: v') = zeros (S n)).
          { apply Hns; [simpl; lia|].
            apply (Permutation_Forall
                     (Permutation_sym (Permutation_map fst (pivot_perm _ Hp)))).
            simpl. constructor.
            - simpl. field; auto.
            - rewrite map_map in Hker. rewrite Forall_map in Hker.
              apply Forall_map. rewrite Forall_forall in Hker, How.
              apply Forall_forall. intros e He.
              specialize (Hker e He). specialize (How e He).
              destruct e as [[|ae re] be]; [destruct How; discriminate|].
              destruct How as [Hre Hbe]; simpl in *.
              unfold lead in Hker; simpl in Hker.
              rewrite dot_vsub_l, dot_scale_l in Hker by vlen.
              replace (dot re v') with (ae / ap * dot rp v') by lra.
              field; auto. }
          simpl in Hall. injection Hall as _ Hall. exact Hall. }
      destruct HX as [X' HX']. rewrite HX'. eauto.
Qed.

End Gauss.

(** ** Matrices: transposition, products, the Gram matrix *)

Lemma transpose_length c M : length (transpose c M) = c.
Proof.
  revert M; induction c as [|c IH]; intro M; simpl; auto.
Qed.

Lemma transpose_rows c M :
  Forall (fun r => length r = length M) (transpose c M).
Proof.
  revert M; induction c as [|c IH]; intro M; simpl; constructor.
  - apply length_map.
  - specialize (IH (map (@tl R) M)). rewrite length_map in IH. exact IH.
Qed.

Lemma Forall_tl_length c (M : list vec) :
  Forall (fun r => length r = S c) M ->
  Forall (fun r => length r = c) (map (@tl R) M).
Proof.
  intro H. apply Forall_map. eapply Forall_impl; [|exact H].
  intros [|a r]; simpl; intro; try discriminate; lia.
Qed.

Lemma lc_cons_rows c y M :
  Forall (fun r => length r = S c) M ->
  lc (S c) y M = dot (map (hd 0) M) y :: lc c y (map (@tl R) M).
Proof.
  revert M; induction y as [|b y IH]; intros [|r M] H; simpl; auto.
  apply Forall_cons_iff in H. destruct H as [Hr HM].
  destruct r as [|h t]; [discriminate|].
  rewrite (IH _ HM). unfold vadd; simpl. f_equal. ring.
Qed.

(** [M^T y] is the combination of the rows of [M] with coefficients [y]. *)
Lemma matvec_transpose c M y :
  Forall (fun r => length r = c) M -> matvec (transpose c M) y = lc c y M.
Proof.
  revert M; induction c as [|c IH]; intros M H; simpl.
  - symmetry. apply length_zero_iff_nil. apply lc_length; auto.
  - rewrite lc_cons_rows by auto. f_equal.
    apply IH. apply Forall_tl_length; auto.
Qed.

Lemma dot_lc k a X y :
  Forall (fun x => length x = k) X ->
  dot (lc k a X) y = dot a (matvec X y).
Proof.
  revert X; induction a as [|aj a IH]; intros [|x X] H; simpl;
    try apply dot_zeros_l.
  apply Forall_cons_iff in H. destruct H as [Hx HX].
  rewrite dot_vadd_l, dot_scale_l by vlen. rewrite IH by auto. reflexivity.
Qed.

Lemma dot_vsub_r a u v :
  length u = length v -> dot a (vsub u v) = dot a u - dot a v.
Proof.
  intro H. rewrite dot_comm, dot_vsub_l by auto.
  rewrite (dot_comm u), (dot_comm v). reflexivity.
Qed.

Lemma matvec_length M v : length (matvec M v) = length M.
Proof. apply length_map. Qed.

Lemma matvec_vsub M u v :
  length u = length v ->
  matvec M (vsub u v) = vsub (matvec M u) (matvec M v).
Proof.
  intro H. induction M as [|r M IH]; simpl; auto.
  rewrite dot_vsub_r by auto. fold (matvec M (vsub u v)). rewrite IH.
  reflexivity.
Qed.

Lemma matvec_zeros_iff M v :
  matvec M v = zeros (length M) <-> Forall (fun a => dot a v = 0) M.
Proof.
  unfold zeros. induction M as [|r M IH]; simpl.
  - split; auto.
  - split.
    + intro H. injection H as H1 H2. constructor; auto. apply IH; auto.
    + intro H. apply Forall_cons_iff in H. destruct H as [H1 H2].
      f_equal; auto. apply IH; auto.
Qed.

Lemma matvec_zeros_r M n : matvec M (zeros n) = zeros (length M).
Proof.
  unfold zeros. induction M as [|r M IH]; simpl; auto.
  fold (zeros n). rewrite dot_zeros_r. f_equal. exact IH.
Qed.

(** A sum of squares vanishes only at zero. *)
Lemma dot_self_nonneg v : 0 <= dot v v.
Proof. induction v as [|a v IH]; simpl; nra. Qed.

Lemma dot_self_zero v : dot v v = 0 -> v = zeros (length v).
Proof.
  unfold zeros. induction v as [|a v IH]; simpl; auto. intro H.
  pose proof (dot_self_nonneg v).
  assert (a = 0) by nra. subst a.
  f_equal. apply IH. nra.
Qed.

Lemma vsub_zeros_eq u v :
  length u = length v -> vsub u v = zeros (length u) -> u = v.
Proof.
  intros Hl H. apply vec_ext; auto. intro i.
  apply (f_equal (fun w => nth i w 0)) in H.
  rewrite nth_vsub, nth_zeros in H by auto. lra.
Qed.

Section Gram.

Variable D : matrix.
Hypothesis D_wf : wf_matrix D.

Let p := ncols D.
Let Dt := transpose p (mrows D).
Let G := mrows (einsum_gram D).

Lemma gram_rows_length : Forall (fun r => length r = p) G.
Proof.
  unfold G, einsum_gram, matmul; simpl. apply Forall_map.
  apply Forall_forall. intros a _. apply lc_length. exact D_wf.
Qed.

Lemma gram_length : length G = p.
Proof.
  unfold G, einsum_gram, matmul; simpl.
  rewrite length_map. apply transpose_length.
Qed.

(** [G v = D^T (D v)] *)
Lemma gram_matvec v : matvec G v = matvec Dt (matvec (mrows D) v).
Proof.
  unfold G, einsum_gram, matmul, matvec at 1; simpl.
  rewrite map_map. apply map_ext. intro a.
  apply dot_lc. exact D_wf.
Qed.

(** [v . G v = |D v|^2] *)
Lemma gram_quadratic v :
  dot v (matvec G v) = dot (matvec (mrows D) v) (matvec (mrows D) v).
Proof.
  rewrite gram_matvec. unfold Dt. rewrite matvec_transpose by exact D_wf.
  rewrite dot_comm. apply dot_lc. exact D_wf.
Qed.

Lemma gram_nonsingular : full_column_rank D -> nonsingular p G.
Proof.
  intros Hfull v Hv Hker.
  apply Hfull; auto.
  apply matvec_zeros_iff in Hker.
  assert (H : dot v (matvec G v) = 0) by (rewrite Hker; apply dot_zeros_r).
  rewrite gram_quadratic in H. apply dot_self_zero in H.
  rewrite matvec_length in H. exact H.
Qed.

Lemma gram_singular : rank_deficient D -> ~ nonsingular p G.
Proof.
  intros (c & Hc & Hnz & Hker) Hns. apply Hnz. apply Hns; auto.
  apply matvec_zeros_iff. rewrite gram_length.
  rewrite gram_matvec, Hker, matvec_zeros_r. unfold Dt.
  rewrite transpose_length. reflexivity.
Qed.

End Gram.

(** ** Blocks of a row-major array *)

Lemma slice_0 {A} c (d : list A) : slice 0 c d = firstn c d.
Proof. reflexivity. Qed.

Lemma slice_S {A} i c (d : list A) : slice (S i) c d = slice i c (skipn c d).
Proof.
  unfold slice. rewrite skipn_skipn. f_equal. f_equal. simpl. lia.
Qed.

Lemma slice_length {A} n i c (d : list A) :
  (i < n)%nat -> length d = (n * c)%nat -> length (slice i c d) = c.
Proof.
  intros Hi Hd. unfold slice. rewrite length_firstn, length_skipn. nia.
Qed.

Lemma chunks_S {A} n c (d : list A) :
  chunks (S n) c d = firstn c d :: chunks n c (skipn c d).
Proof.
  unfold chunks. simpl. f_equal. rewrite <- seq_shift, map_map.
  apply map_ext. intro i. apply slice_S.
Qed.

Lemma concat_chunks {A} n c (d : list A) :
  length d = (n * c)%nat -> concat (chunks n c d) = d.
Proof.
  revert d; induction n as [|n IH]; intros d Hd.
  - destruct d; auto; discriminate.
  - rewrite chunks_S. simpl. rewrite IH.
    + apply firstn_skipn.
    + rewrite length_skipn. simpl in Hd. lia.
Qed.

Lemma chunks_length {A} n c (d : list A) : length (chunks n c d) = n.
Proof. unfold chunks. rewrite length_map. apply length_seq. Qed.

Lemma chunks_rows {A} n c (d : list A) :
  length d = (n * c)%nat -> Forall (fun r => length r = c) (chunks n c d).
Proof.
  intro Hd. unfold chunks. apply Forall_map. apply Forall_forall.
  intros i Hi. apply in_seq in Hi. apply (slice_length (n:=n)); auto; lia.
Qed.

Lemma chunks_concat (c : nat) (M : list vec) :
  Forall (fun r => length r = c) M -> chunks (length M) c (concat M) = M.
Proof.
  induction M as [|r M IH]; intro H; auto.
  apply Forall_cons_iff in H. destruct H as [Hr HM].
  subst c. simpl length. rewrite chunks_S. simpl concat.
  rewrite firstn_app, skipn_app, Nat.sub_diag, firstn_all, skipn_all.
  simpl. rewrite app_nil_r. f_equal. apply IH; auto.
Qed.

Lemma concat_rows_length (c : nat) (M : list vec) :
  Forall (fun r => length r = c) M -> length (concat M) = (length M * c)%nat.
Proof.
  induction M as [|r M IH]; intro H; auto.
  apply Forall_cons_iff in H. destruct H as [Hr HM].
  simpl. rewrite length_app, IH by auto. lia.
Qed.

Lemma zipWith_app {A B C} (f : A -> B -> C) x1 x2 y1 y2 :
  length x1 = length y1 ->
  zipWith f (x1 ++ x2) (y1 ++ y2) = zipWith f x1 y1 ++ zipWith f x2 y2.
Proof.
  revert y1; induction x1 as [|a x1 IH]; intros [|b y1] H; simpl in *;
    try discriminate; auto.
  f_equal. apply IH. lia.
Qed.

Lemma zipWith_chunks {A B C} (f : A -> B -> C) n c d1 d2 :
  length d1 = (n * c)%nat -> length d2 = (n * c)%nat ->
  concat (zipWith (zipWith f) (chunks n c d1) (chunks n c d2)) = zipWith f d1 d2.
Proof.
  revert d1 d2; induction n as [|n IH]; intros d1 d2 H1 H2.
  - destruct d1, d2; auto; discriminate.
  - rewrite !chunks_S. simpl. rewrite IH.
    + rewrite <- zipWith_app.
      * rewrite !firstn_skipn. reflexivity.
      * rewrite !length_firstn. simpl in *. lia.
    + rewrite length_skipn. simpl in *. lia.
    + rewrite length_skipn. simpl in *. lia.
Qed.

Lemma zipWith_map_seq {A B C} (f : A -> B -> C) (g : nat -> A) (h : nat -> B) l :
  zipWith f (map g l) (map h l) = map (fun i => f (g i) (h i)) l.
Proof. induction l; simpl; auto. f_equal; auto. Qed.

(** ** Broadcasting *)

Lemma bidx_id n i : (i < n)%nat -> bidx n i = i.
Proof.
  unfold bidx. destruct (Nat.eqb_spec n 1); intros; lia.
Qed.

Lemma product_ones n : product (repeat 1%nat n) = 1%nat.
Proof. induction n; simpl; auto. rewrite IHn. reflexivity. Qed.

Lemma pad_same s : pad (Nat.max (length s) (length s)) s = s.
Proof. unfold pad. rewrite Nat.max_id, Nat.sub_diag. reflexivity. Qed.

Lemma pad_ones n j : (j <= n)%nat -> pad n (repeat 1%nat j) = repeat 1%nat n.
Proof.
  intro H. unfold pad. rewrite repeat_length, <- repeat_app. f_equal. lia.
Qed.

Lemma compatible_refl s : compatible s s = true.
Proof.
  induction s as [|a s IH]; simpl; auto.
  unfold dims_agree. rewrite Nat.eqb_refl, IH. reflexivity.
Qed.

Lemma bdim_refl_all s : zipWith bdim s s = s.
Proof.
  induction s as [|a s IH]; simpl; auto.
  rewrite IH. unfold bdim. destruct (Nat.eqb a 1); reflexivity.
Qed.

Lemma compatible_ones s : compatible s (repeat 1%nat (length s)) = true.
Proof.
  induction s as [|a s IH]; simpl; auto.
  unfold dims_agree. rewrite IH. simpl. rewrite orb_true_r. reflexivity.
Qed.

Lemma bdim_ones s : zipWith bdim s (repeat 1%nat (length s)) = s.
Proof.
  induction s as [|a s IH]; simpl; auto.
  rewrite IH. unfold bdim. destruct (Nat.eqb_spec a 1); subst; reflexivity.
Qed.

Lemma bdata_same {A B C} (f : A -> B -> C) s : forall d1 d2,
  length d1 = product s -> length d2 = product s ->
  bdata f s s d1 d2 = zipWith f d1 d2.
Proof.
  induction s as [|n s IH]; intros d1 d2 H1 H2; simpl in *.
  - destruct d1 as [|x [|]], d2 as [|y [|]]; simpl in *; try discriminate; auto.
  - replace (bdim n n) with n by (unfold bdim; destruct (Nat.eqb n 1); auto).
    rewrite flat_map_concat_map.
    rewrite <- (zipWith_chunks f n (product s) d1 d2) by assumption.
    f_equal. unfold chunks. rewrite zipWith_map_seq.
    apply map_ext_in. intros i Hi. apply in_seq in Hi.
    fold (bidx n i). rewrite bidx_id by lia.
    apply IH; apply (slice_length (n:=n)); auto; lia.
Qed.

Lemma bdata_scalar_r {A B C} (f : A -> B -> C) s y : forall d,
  length d = product s ->
  bdata f s (repeat 1%nat (length s)) d [y] = map (fun x => f x y) d.
Proof.
  induction s as [|n s IH]; intros d H; simpl in *.
  - destruct d as [|x [|]]; simpl in *; try discriminate; auto.
  - replace (bdim n 1) with n
      by (unfold bdim; destruct (Nat.eqb_spec n 1); subst; auto).
    rewrite product_ones. change (slice 0 1 [y]) with [y].
    rewrite flat_map_concat_map.
    transitivity (map (fun x => f x y) (concat (chunks n (product s) d))).
    2:{ rewrite concat_chunks by assumption. reflexivity. }
    rewrite concat_map. f_equal. unfold chunks. rewrite map_map.
    apply map_ext_in. intros i Hi. apply in_seq in Hi.
    fold (bidx n i). rewrite bidx_id by lia.
    apply IH. apply (slice_length (n:=n)); auto; lia.
Qed.

(** Operands of the same shape are combined element by element. *)
Lemma broadcast_same {A B C} (f : A -> B -> C) (a : ndarray A) (b : ndarray B) :
  shape a = shape b -> wf a -> wf b ->
  broadcast f a b = Ok (mk_ndarray (shape a) (zipWith f (data a) (data b))).
Proof.
  intros Hs Ha Hb. unfold broadcast, ndim. rewrite <- Hs.
  rewrite pad_same, compatible_refl, bdim_refl_all, bdata_same; auto.
  unfold wf in Hb. rewrite Hs. exact Hb.
Qed.

(** An operand with a single element and no more axes than the other acts
    as a scalar. *)
Lemma broadcast_scalar_r {A B C} (f : A -> B -> C) (a : ndarray A) (b : ndarray B) j y :
  shape b = repeat 1%nat j -> (j <= ndim a)%nat -> data b = [y] -> wf a ->
  broadcast f a b = Ok (mk_ndarray (shape a) (map (fun x => f x y) (data a))).
Proof.
  intros Hs Hj Hd Ha. unfold broadcast, ndim in *. rewrite Hs, Hd, repeat_length.
  rewrite Nat.max_l by exact Hj.
  rewrite pad_ones by exact Hj.
  unfold pad. rewrite Nat.sub_diag. simpl.
  rewrite compatible_ones, bdim_ones, bdata_scalar_r; auto.
Qed.

(** ** [np.linalg.solve] returns the exact solution or raises *)

Lemma combine_eqn_wf k n (A B : list vec) :
  Forall (fun a => length a = n) A -> Forall (fun b => length b = k) B ->
  Forall (eqn_wf k n) (combine A B).
Proof.
  intros HA; revert B; induction HA as [|a A Ha HA IH]; intros B HB; simpl.
  - constructor.
  - destruct HB as [|b B Hb HB]; constructor.
    + split; assumption.
    + apply IH; assumption.
Qed.

Lemma combine_fst (A B : list vec) :
  length A = length B -> map fst (combine A B) = A.
Proof.
  revert B; induction A as [|a A IH]; intros [|b B] H; simpl in *;
    try discriminate; auto.
  f_equal. apply IH. lia.
Qed.

Lemma sat_combine k X (A B : list vec) :
  length A = length B ->
  (Forall (sat k X) (combine A B) <-> matmul k A X = B).
Proof.
  unfold matmul.
  revert B; induction A as [|a A IH]; intros [|b B] H; simpl in *;
    try discriminate.
  - split; auto.
  - rewrite Forall_cons_iff, IH by lia. unfold sat; simpl. split.
    + intros [H1 H2]. congruence.
    + intro H0. injection H0 as H1 H2. auto.
Qed.

Section Solve.

Variables a b : matrix.
Hypothesis a_wf : wf_matrix a.
Hypothesis b_wf : wf_matrix b.
Hypothesis a_square : nrows a = ncols a.
Hypothesis b_rows : nrows b = nrows a.

Let sys := combine (mrows a) (mrows b).

Lemma solve_sys_length : length sys = nrows a.
Proof.
  unfold sys. rewrite length_combine. unfold nrows in *. lia.
Qed.

Lemma solve_sys_wf : Forall (eqn_wf (ncols b) (nrows a)) sys.
Proof.
  apply combine_eqn_wf; [rewrite a_square; exact a_wf | exact b_wf].
Qed.

Lemma solve_sys_fst : map fst sys = mrows a.
Proof. apply combine_fst. unfold nrows in *. lia. Qed.

Lemma linalg_solve_gauss :
  linalg_solve a b =
  match gauss (ncols b) (nrows a) sys with
  | Some X => Ok (mk_matrix (ncols b) X)
  | None => Raise (LinAlgError Singular_matrix)
  end.
Proof.
  unfold linalg_solve. rewrite a_square, b_rows, a_square, !Nat.eqb_refl.
  simpl. rewrite <- a_square. reflexivity.
Qed.

(** A successful call returns [X] with [a X = b]. *)
Lemma linalg_solve_sound X :
  linalg_solve a b = Ok X ->
  ncols X = ncols b /\ nrows X = nrows a /\ wf_matrix X /\
  matmul (ncols b) (mrows a) (mrows X) = mrows b /\
  nonsingular (nrows a) (mrows a).
Proof.
  rewrite linalg_solve_gauss.
  destruct (gauss (ncols b) (nrows a) sys) as [X0|] eqn:HG; try discriminate.
  intro H; inversion H; subst; clear H.
  destruct (gauss_sound solve_sys_length solve_sys_wf HG) as (Hl & Hk & Hs).
  pose proof (gauss_nonsingular solve_sys_length solve_sys_wf HG) as Hns.
  rewrite solve_sys_fst in Hns.
  repeat split; auto.
  apply sat_combine; [unfold nrows in *; lia | exact Hs].
Qed.

(** The call succeeds on every non-singular matrix. *)
Lemma linalg_solve_complete :
  nonsingular (nrows a) (mrows a) -> exists X, linalg_solve a b = Ok X.
Proof.
  intro Hns. rewrite linalg_solve_gauss.
  destruct (@gauss_complete (ncols b) (nrows a) sys solve_sys_length solve_sys_wf)
    as [X HX].
  - rewrite solve_sys_fst. exact Hns.
  - rewrite HX. eauto.
Qed.

(** The call raises on every singular matrix. *)
Lemma linalg_solve_singular :
  ~ nonsingular (nrows a) (mrows a) ->
  linalg_solve a b = Raise (LinAlgError Singular_matrix).
Proof.
  intro Hs. rewrite linalg_solve_gauss.
  destruct (gauss (ncols b) (nrows a) sys) as [X0|] eqn:HG; auto.
  exfalso. apply Hs.
  pose proof (gauss_nonsingular solve_sys_length solve_sys_wf HG) as Hns.
  rewrite solve_sys_fst in Hns. exact Hns.
Qed.

(** Any solution of a system the call solves is the one it returns. *)
Lemma linalg_solve_unique X X0 :
  linalg_solve a b = Ok X0 ->
  length X = nrows a -> Forall (fun x => length x = ncols b) X ->
  matmul (ncols b) (mrows a) X = mrows b ->
  X0 = mk_matrix (ncols b) X.
Proof.
  rewrite linalg_solve_gauss.
  destruct (gauss (ncols b) (nrows a) sys) as [X1|] eqn:HG; try discriminate.
  intros H Hl Hk Hm. inversion H; subst; clear H. f_equal. symmetry.
  apply (gauss_unique solve_sys_length solve_sys_wf HG Hl Hk).
  apply sat_combine; [unfold nrows in *; lia | exact Hm].
Qed.

End Solve.

(** ** The einsum calls on operands of matching shapes *)

Lemma stretch_id n v : length v = n -> stretch n v = v.
Proof.
  intro H. unfold stretch. destruct (Nat.eqb_spec (length v) 1) as [E|]; auto.
  destruct v as [|x [|]]; simpl in *; try discriminate. subst n. reflexivity.
Qed.

Lemma map_stretch_id n (M : list vec) :
  Forall (fun r => length r = n) M -> map (stretch n) M = M.
Proof.
  induction 1 as [|r M Hr HM IH]; simpl; auto.
  rewrite stretch_id, IH by auto. reflexivity.
Qed.

Lemma dims_agree_refl n : dims_agree n n = true.
Proof. unfold dims_agree. rewrite Nat.eqb_refl. reflexivity. Qed.

Lemma bdim_refl n : bdim n n = n.
Proof. unfold bdim. destruct (Nat.eqb n 1); reflexivity. Qed.

Lemma product_app_single bs m : product (bs ++ [m]) = (product bs * m)%nat.
Proof. induction bs as [|b bs IH]; simpl; [lia | rewrite IH; lia]. Qed.

Lemma einsum_matvec_eval (M : matrix) (y : ndarray R) bs m :
  wf_matrix M -> ncols M = m -> shape y = bs ++ [m] -> wf y ->
  einsum_matvec M y =
  Ok (mk_ndarray (bs ++ [nrows M])
        (flat_map (matvec (mrows M)) (chunks (product bs) m (data y)))).
Proof.
  intros HM Hc Hs Hy. unfold einsum_matvec.
  destruct (shape y) as [|n l] eqn:E.
  { symmetry in Hs. apply app_eq_nil in Hs. destruct Hs; discriminate. }
  rewrite Hs, removelast_last, last_last, Hc, dims_agree_refl, bdim_refl.
  rewrite map_stretch_id by (rewrite <- Hc; exact HM).
  f_equal. f_equal. rewrite !flat_map_concat_map. f_equal.
  apply map_ext_in. intros v Hv. rewrite stretch_id; auto.
  assert (Hrows : Forall (fun r => length r = m) (chunks (product bs) m (data y))).
  { apply chunks_rows. unfold wf in Hy.
    rewrite Hy, E, Hs. apply product_app_single. }
  rewrite Forall_forall in Hrows. auto.
Qed.

Lemma einsum_matmul_eval (A B : matrix) :
  wf_matrix A -> ncols A = nrows B ->
  einsum_matmul A B =
  Ok (mk_matrix (ncols B) (matmul (ncols B) (mrows A) (mrows B))).
Proof.
  intros HA Hk. unfold einsum_matmul.
  rewrite Hk, dims_agree_refl, bdim_refl.
  rewrite map_stretch_id by (rewrite <- Hk; exact HA).
  destruct (Nat.eqb_spec (nrows B) 1) as [E|]; auto.
  rewrite E. unfold nrows in E.
  destruct (mrows B) as [|r [|]]; simpl in *; try discriminate. reflexivity.
Qed.

Lemma matmul_rows k (A B : list vec) :
  Forall (fun r => length r = k) B ->
  Forall (fun r => length r = k) (matmul k A B).
Proof.
  intro HB. unfold matmul. apply Forall_map. apply Forall_forall.
  intros a _. apply lc_length. exact HB.
Qed.

Lemma matmul_length k (A B : list vec) : length (matmul k A B) = length A.
Proof. apply length_map. Qed.

Lemma eye_rows_length n : length (eye_rows n) = n.
Proof. unfold eye_rows. rewrite length_map. apply length_seq. Qed.

Lemma eye_rows_rows n : Forall (fun r => length r = n) (eye_rows n).
Proof.
  unfold eye_rows. apply Forall_map. apply Forall_forall. intros i _.
  rewrite length_map. apply length_seq.
Qed.

Lemma of_matrix_wf (M : matrix) : wf_matrix M -> wf (of_matrix M).
Proof.
  intro H. unfold wf, of_matrix; simpl.
  rewrite (concat_rows_length H). unfold nrows. lia.
Qed.

Lemma to_matrix_of_matrix (M : matrix) :
  wf_matrix M -> to_matrix (of_matrix M) = M.
Proof.
  intro H. unfold to_matrix, of_matrix; simpl. unfold nrows.
  rewrite chunks_concat by exact H. destruct M; reflexivity.
Qed.

Lemma flat_map_rows_length {A} (g : A -> vec) c (l : list A) :
  (forall x, length (g x) = c) -> length (flat_map g l) = (length l * c)%nat.
Proof.
  intro Hg. rewrite flat_map_concat_map.
  rewrite (@concat_rows_length c), length_map; auto.
  apply Forall_map. apply Forall_forall. auto.
Qed.

Lemma chunks_flat_map {A} (g : A -> vec) c (l : list A) :
  (forall x, length (g x) = c) ->
  chunks (length l) c (flat_map g l) = map g l.
Proof.
  intro Hg. rewrite flat_map_concat_map.
  rewrite <- (length_map g l). apply chunks_concat.
  apply Forall_map. apply Forall_forall. auto.
Qed.

Lemma vsum_app u v : vsum (u ++ v) = vsum u + vsum v.
Proof. induction u as [|a u IH]; simpl; [lra | rewrite IH; lra]. Qed.

Lemma vsum_concat (M : list vec) : vsum (map vsum M) = vsum (concat M).
Proof.
  induction M as [|r M IH]; simpl; auto. rewrite vsum_app, IH. reflexivity.
Qed.

(** Summing a matrix over both axes sums all its entries. *)
Lemma sum_last2_matrix m (d : vec) :
  length d = (m * m)%nat ->
  sum_last2 (mk_ndarray [m; m] d) = mk_ndarray [] [vsum d].
Proof.
  intro Hd. unfold sum_last2, sum_last; simpl. f_equal. f_equal.
  rewrite Nat.mul_1_r, slice_0.
  rewrite firstn_all2
    by (unfold chunks; rewrite !length_map, length_seq; lia).
  rewrite vsum_concat, concat_chunks by exact Hd. reflexivity.
Qed.

(** ** [probabilistic_least_squares], line by line *)

Lemma pls_split design_matrix y regularization_matrix flag :
  probabilistic_least_squares design_matrix y regularization_matrix flag =
  (unscaled_posterior_precision <-
     pls_precision design_matrix regularization_matrix ;;
   pseudoInv <-
     linalg_solve unscaled_posterior_precision (swapaxes design_matrix) ;;
   pls_rest design_matrix unscaled_posterior_precision pseudoInv y flag).
Proof. reflexivity. Qed.

Section PLS_rest.

Variables (D U : matrix) (X : list vec) (y : ndarray R) (bs : list nat).

Local Abbreviation m := (nrows D).
Local Abbreviation p := (ncols D).

Hypothesis D_wf : wf_matrix D.
Hypothesis X_length : length X = p.
Hypothesis X_rows : Forall (fun x => length x = m) X.
Hypothesis y_shape : shape y = bs ++ [m].
Hypothesis y_wf : wf y.

Lemma observations_length : length (observations D y bs) = product bs.
Proof. apply chunks_length. Qed.

Lemma fitted_values_length : length (fitted_values D X y bs) = (product bs * m)%nat.
Proof.
  unfold fitted_values. rewrite (@flat_map_rows_length _ _ m).
  - rewrite observations_length. reflexivity.
  - intro r. apply matvec_length.
Qed.

Lemma pls_rest_eval flag :
  pls_rest D U (mk_matrix m X) y flag =
  if negb flag then Ok (Mean_Variance (posterior_mean D X y bs) (posterior_variance D X y bs))
  else pls_tail U (posterior_mean D X y bs) (posterior_variance D X y bs).
Proof.
  unfold pls_rest.
  rewrite (@einsum_matvec_eval (mk_matrix m X) y bs m); auto.
  unfold bind at 1.
  rewrite einsum_matmul_eval by (auto; unfold nrows; simpl; auto).
  unfold bind at 1. simpl ncols. simpl mrows.
  rewrite broadcast_same.
  2:{ unfold of_matrix, eye, nrows; simpl.
      rewrite eye_rows_length, matmul_length. reflexivity. }
  2:{ apply of_matrix_wf. apply eye_rows_rows. }
  2:{ apply of_matrix_wf. apply matmul_rows. exact X_rows. }
  unfold bind at 1.
  replace (nrows {| ncols := m; mrows := X |}) with p
    by (symmetry; exact X_length).
  fold (observations D y bs). fold (posterior_mean D X y bs).
  rewrite (@einsum_matvec_eval D (posterior_mean D X y bs) bs p); auto.
  2:{ unfold wf, posterior_mean; simpl. rewrite product_app_single.
      rewrite (@flat_map_rows_length _ _ p).
      - rewrite observations_length. reflexivity.
      - intro r. rewrite matvec_length. exact X_length. }
  unfold bind at 1.
  assert (Hfit : flat_map (matvec (mrows D))
                   (chunks (product bs) p (data (posterior_mean D X y bs)))
                 = (fitted_values D X y bs)).
  { unfold posterior_mean, fitted_values; simpl data.
    rewrite <- observations_length at 1.
    rewrite chunks_flat_map
      by (intro r; rewrite matvec_length; exact X_length).
    rewrite flat_map_concat_map, map_map, <- flat_map_concat_map.
    reflexivity. }
  rewrite Hfit. fold m.
  rewrite broadcast_same; auto.
  2:{ unfold wf; simpl. rewrite product_app_single. apply fitted_values_length. }
  unfold bind at 1. rewrite y_shape. cbn [data shape]. fold (residual_sums D X y bs).
  replace (sum_last2 _) with (mk_ndarray [] [(residual_dof D X)]).
  2:{ symmetry. unfold square, amap, of_matrix, eye, nrows; simpl.
      rewrite eye_rows_length. unfold residual_dof, residual_entries.
      apply sum_last2_matrix.
      rewrite length_map, zipWith_length.
      rewrite (concat_rows_length (eye_rows_rows m)), eye_rows_length.
      rewrite (concat_rows_length (@matmul_rows m (mrows D) X X_rows)), matmul_length.
      change (length (mrows D)) with m. lia. }
  assert (Hs : shape (residual_sums D X y bs) = bs).
  { unfold residual_sums, sum_last; simpl. apply removelast_last. }
  rewrite (@broadcast_scalar_r _ _ _ _ _ _ 0%nat (residual_dof D X)); auto.
  - unfold bind at 1. rewrite Hs. reflexivity.
  - lia.
  - unfold wf. rewrite Hs. unfold residual_sums, sum_last; simpl.
    rewrite removelast_last, length_map. apply chunks_length.
Qed.

End PLS_rest.

(** ** Consequences of non-singularity *)

Lemma matvec_matmul k (A B : list vec) v :
  Forall (fun r => length r = k) B ->
  matvec (matmul k A B) v = matvec A (matvec B v).
Proof.
  intro HB. unfold matmul, matvec at 1 2. rewrite map_map.
  apply map_ext. intro a. apply dot_lc. exact HB.
Qed.

Lemma vsub_self_zeros u : vsub u u = zeros (length u).
Proof.
  unfold vsub, zeros. induction u as [|a u IH]; simpl; auto.
  rewrite IH. f_equal. ring.
Qed.

Lemma nonsingular_inj n (A : list vec) u v :
  nonsingular n A -> length u = n -> length v = n ->
  matvec A u = matvec A v -> u = v.
Proof.
  intros Hns Hu Hv H.
  apply vsub_zeros_eq; [lia|].
  rewrite Hu. apply Hns; [vlen|].
  apply matvec_zeros_iff.
  rewrite matvec_vsub, H by lia.
  rewrite vsub_self_zeros, matvec_length. reflexivity.
Qed.

Lemma vsum_squares v : vsum (map (fun x => x * x) v) = dot v v.
Proof. induction v as [|a v IH]; simpl; auto. rewrite IH. reflexivity. Qed.

(** Rows of the identity select the entries of a vector. *)
Lemma dot_unit_row (v : vec) : forall i s,
  dot (map (fun j => if Nat.eqb i j then 1 else 0) (seq s (length v))) v
  = nth (i - s) (if Nat.ltb i s then [] else v) 0.
Proof.
  induction v as [|a v IH]; intros i s; simpl.
  - destruct (Nat.ltb i s); destruct (i - s)%nat; reflexivity.
  - rewrite IH. destruct (Nat.eqb_spec i s) as [E|E].
    + subst s. rewrite Nat.sub_diag, Nat.ltb_irrefl.
      replace (Nat.ltb i (S i)) with true by (symmetry; apply Nat.ltb_lt; lia).
      destruct (i - S i)%nat; simpl; lra.
    + destruct (Nat.ltb_spec i s) as [L|L].
      * replace (Nat.ltb i (S s)) with true by (symmetry; apply Nat.ltb_lt; lia).
        destruct (i - S s)%nat, (i - s)%nat; simpl; lra.
      * replace (Nat.ltb i (S s)) with false by (symmetry; apply Nat.ltb_ge; lia).
        replace (i - s)%nat with (S (i - S s)) by lia. simpl. lra.
Qed.

Lemma matvec_eye (v : vec) : matvec (eye_rows (length v)) v = v.
Proof.
  unfold matvec, eye_rows. rewrite map_map.
  apply nth_ext with (d := 0) (d' := 0).
  - rewrite length_map, length_seq. reflexivity.
  - intros i Hi. rewrite length_map, length_seq in Hi.
    rewrite (nth_indep _ 0 (dot (map (fun j => if Nat.eqb 0 j then 1 else 0)
                                   (seq 0 (length v))) v))
      by (rewrite length_map, length_seq; exact Hi).
    rewrite (map_nth (fun i0 => dot (map (fun j => if Nat.eqb i0 j then 1 else 0)
                                       (seq 0 (length v))) v)).
    rewrite seq_nth by exact Hi. simpl.
    rewrite dot_unit_row. simpl. rewrite Nat.sub_0_r. reflexivity.
Qed.

(** More unknowns than equations: a homogeneous system has a non-zero
    solution. *)
Lemma wide_kernel p : forall m (X : list vec),
  length X = p -> Forall (fun r => length r = m) X -> (p < m)%nat ->
  exists v, length v = m /\ v <> zeros m /\ Forall (fun r => dot r v = 0) X.
Proof.
  induction p as [|p IH]; intros m X Hlen Hrows Hlt.
  - destruct X; [|discriminate]. destruct m as [|m]; [lia|].
    exists (1 :: zeros m). split; [simpl; vlen|]. split; [|constructor].
    intro H. simpl in H. injection H as H. lra.
  - destruct m as [|m]; [lia|].
    set (sys := map (fun r : vec => (r, @nil R)) X).
    assert (Hfst : map fst sys = X).
    { unfold sys. rewrite map_map. simpl. apply map_id. }
    assert (Hwf : Forall (eqn_wf 0 (S m)) sys).
    { unfold sys. apply Forall_map. eapply Forall_impl; [|exact Hrows].
      intros r Hr. split; simpl; auto. }
    destruct (pivot sys) as [[pv others]|] eqn:Hp.
    2:{ apply pivot_none in Hp. unfold sys in Hp.
        destruct X; simpl in *; discriminate. }
    pose proof (pivot_perm _ Hp) as Hperm.
    pose proof (Permutation_Forall Hperm Hwf) as Hwf'.
    apply Forall_cons_iff in Hwf'. destruct Hwf' as [Hpw How].
    assert (Hol : length others = p).
    { apply Permutation_length in Hperm. unfold sys in Hperm.
      rewrite length_map in Hperm. simpl in Hperm. lia. }
    pose proof (pivot_max _ Hp) as Hmax.
    destruct (Req_dec_T (lead pv) 0) as [Hz|Hnz].
    + exists (1 :: zeros m). split; [simpl; vlen|]. split.
      { intro H. simpl in H. injection H as H. lra. }
      rewrite <- Hfst. apply Forall_map.
      rewrite Forall_forall in Hmax, Hwf. apply Forall_forall. intros e He.
      specialize (Hmax e He). specialize (Hwf e He).
      rewrite Hz, Rabs_R0 in Hmax.
      assert (lead e = 0).
      { pose proof (Rabs_pos (lead e)).
        destruct (Req_dec_T (lead e) 0) as [|Hne]; auto.
        apply Rabs_pos_lt in Hne. lra. }
      destruct e as [[|ae re] be]; [destruct Hwf; discriminate|].
      unfold lead in *; simpl in *. rewrite dot_zeros_r. lra.
    + destruct pv as [[|ap rp] bp]; [destruct Hpw; discriminate|].
      unfold lead in Hnz; simpl in Hnz.
      destruct Hpw as [Hrp Hbp]; simpl in Hrp, Hbp.
      destruct (IH m (map fst (map (eliminate (ap :: rp, bp)) others)))
        as (v' & Hv' & Hv'nz & Hker).
      * rewrite !length_map. exact Hol.
      * apply Forall_map.
        pose proof (@eliminate_all_wf 0 m (ap :: rp, bp) others) as He.
        eapply Forall_impl; [|apply He; [split; simpl; auto | exact How]].
        intros e [H1 _]. exact H1.
      * lia.
      * exists (- (dot rp v' / ap) :: v'). split; [simpl; lia|]. split.
        { intro H. simpl in H. injection H as _ H. auto. }
        rewrite <- Hfst.
        apply (Permutation_Forall
                 (Permutation_sym (Permutation_map fst Hperm))).
        simpl. constructor.
        { simpl. field; auto. }
        rewrite map_map in Hker. rewrite Forall_map in Hker.
        apply Forall_map. rewrite Forall_forall in Hker, How.
        apply Forall_forall. intros e He.
        specialize (Hker e He). specialize (How e He).
        destruct e as [[|ae re] be]; [destruct How; discriminate|].
        destruct How as [Hre Hbe]; simpl in *.
        unfold lead in Hker; simpl in Hker.
        rewrite dot_vsub_l, dot_scale_l in Hker by vlen.
        replace (dot re v') with (ae / ap * dot rp v') by lra.
        field; auto.
Qed.

(** ** The linear solve of [probabilistic_least_squares] *)

Lemma gram_wf D : wf_matrix D -> wf_matrix (einsum_gram D).
Proof. intro H. apply (gram_rows_length H). Qed.

Lemma gram_square D : nrows (einsum_gram D) = ncols (einsum_gram D).
Proof. exact (gram_length D). Qed.

Lemma swapaxes_wf D : wf_matrix (swapaxes D).
Proof. unfold wf_matrix, swapaxes; simpl. apply transpose_rows. Qed.

Lemma swapaxes_nrows D : nrows (swapaxes D) = ncols D.
Proof. unfold nrows, swapaxes; simpl. apply transpose_length. Qed.

Lemma pls_precision_ok D reg :
  wf_matrix D -> regularization_ok D reg ->
  exists U, pls_precision D reg = Ok U /\
            wf_matrix U /\ nrows U = ncols D /\ ncols U = ncols D.
Proof.
  intros HD Hreg. destruct reg as [r|]; simpl.
  - destruct Hreg as (Hr & Hrn & Hrc).
    rewrite broadcast_same.
    + simpl. eexists. split; [reflexivity|].
      unfold to_matrix; simpl. rewrite gram_square; simpl.
      assert (Hl : length (zipWith Rplus (concat (mrows (einsum_gram D)))
                             (concat (mrows r))) = (ncols D * ncols D)%nat).
      { rewrite zipWith_length.
        rewrite (concat_rows_length (gram_wf HD)), (concat_rows_length Hr).
        fold (nrows (einsum_gram D)). fold (nrows r).
        rewrite gram_square, Hrn, Hrc. simpl. lia. }
      split; [|split].
      * unfold wf_matrix; simpl. apply chunks_rows. exact Hl.
      * unfold nrows; simpl. apply chunks_length.
      * reflexivity.
    + unfold of_matrix; simpl. rewrite gram_square, Hrn, Hrc. reflexivity.
    + apply of_matrix_wf. apply gram_wf. exact HD.
    + apply of_matrix_wf. exact Hr.
  - exists (einsum_gram D). split; [reflexivity|].
    split; [apply gram_wf; exact HD|]. split; [apply gram_square | reflexivity].
Qed.

(** The whole function on well-shaped arguments: it raises what the
    linear solve raises, and otherwise returns the values below. *)
Lemma pls_eval D y reg flag bs :
  wf_matrix D -> regularization_ok D reg ->
  shape y = bs ++ [nrows D] -> wf y ->
  exists U, pls_precision D reg = Ok U /\
    wf_matrix U /\ nrows U = ncols D /\ ncols U = ncols D /\
    probabilistic_least_squares D y reg flag =
    (P <- linalg_solve U (swapaxes D) ;;
     let X := mrows P in
     if negb flag
     then Ok (Mean_Variance (posterior_mean D X y bs) (posterior_variance D X y bs))
     else pls_tail U (posterior_mean D X y bs) (posterior_variance D X y bs)).
Proof.
  intros HD Hreg Hs Hy.
  destruct (pls_precision_ok reg HD Hreg) as (U & HU & Uwf & Un & Uc).
  exists U. repeat (split; [assumption|]).
  rewrite pls_split, HU. simpl.
  destruct (linalg_solve U (swapaxes D)) as [P|e] eqn:HP; simpl; auto.
  assert (Usq : nrows U = ncols U) by congruence.
  assert (Hbr : nrows (swapaxes D) = nrows U)
    by (rewrite swapaxes_nrows; congruence).
  destruct (linalg_solve_sound Uwf (swapaxes_wf D) Usq Hbr HP)
    as (Pc & Pn & Pwf & _).
  destruct P as [c X]; simpl in *. subst c.
  apply pls_rest_eval; auto.
  change (length X = nrows U) in Pn. congruence.
Qed.

Lemma pls_solve_full_rank D :
  wf_matrix D -> full_column_rank D ->
  exists X, linalg_solve (einsum_gram D) (swapaxes D) = Ok (mk_matrix (nrows D) X) /\
    length X = ncols D /\ Forall (fun x => length x = nrows D) X /\
    forall c, length c = ncols D -> matvec X (matvec (mrows D) c) = c.
Proof.
  intros HD Hfull.
  pose proof (gram_nonsingular HD Hfull) as Hns.
  assert (Hsq : nrows (einsum_gram D) = ncols (einsum_gram D)) by apply gram_square.
  assert (Hbr : nrows (swapaxes D) = nrows (einsum_gram D)).
  { rewrite swapaxes_nrows, gram_square. reflexivity. }
  destruct (linalg_solve_complete (gram_wf HD) (swapaxes_wf D) Hsq Hbr) as [P HP].
  { rewrite gram_square. exact Hns. }
  destruct (linalg_solve_sound (gram_wf HD) (swapaxes_wf D) Hsq Hbr HP)
    as (Pc & Pn & Pwf & Pm & _).
  destruct P as [c X]; simpl in Pc, Pwf. subst c.
  change (matmul (nrows D) (mrows (einsum_gram D)) X
          = transpose (ncols D) (mrows D)) in Pm.
  exists X. split; [exact HP|].
  change (length X = nrows (einsum_gram D)) in Pn. rewrite gram_square in Pn.
  simpl in Pn.
  split; [exact Pn|]. split; [exact Pwf|].
  intros c Hc.
  apply (@nonsingular_inj _ _ _ _ Hns); auto.
  - rewrite matvec_length. exact Pn.
  - rewrite <- (@matvec_matmul (nrows D)) by exact Pwf.
    rewrite Pm. rewrite (gram_matvec HD). reflexivity.
Qed.

(** With more observations than coefficients [I - D X] is not zero. *)
Lemma residual_dof_nonzero D X :
  wf_matrix D -> length X = ncols D ->
  Forall (fun x => length x = nrows D) X ->
  (ncols D < nrows D)%nat -> residual_dof D X <> 0.
Proof.
  intros HD HXl HXr Hlt Hzero.
  destruct (@wide_kernel (ncols D) (nrows D) X HXl HXr Hlt) as (v & Hv & Hnz & Hker).
  apply Hnz.
  unfold residual_dof in Hzero. rewrite vsum_squares in Hzero.
  apply dot_self_zero in Hzero.
  assert (Hle : length (concat (eye_rows (nrows D)))
                = length (concat (matmul (nrows D) (mrows D) X))).
  { rewrite (concat_rows_length (eye_rows_rows (nrows D))), eye_rows_length.
    rewrite (concat_rows_length (@matmul_rows (nrows D) (mrows D) X HXr)).
    rewrite matmul_length. reflexivity. }
  unfold residual_entries in Hzero.
  rewrite zipWith_length, <- Hle, Nat.min_id in Hzero.
  apply vsub_zeros_eq in Hzero; [|exact Hle].
  apply (f_equal (chunks (nrows D) (nrows D))) in Hzero.
  rewrite <- (eye_rows_length (nrows D)) in Hzero at 1.
  rewrite chunks_concat in Hzero by apply eye_rows_rows.
  rewrite <- (matmul_length (nrows D) (mrows D) X) in Hzero at 2.
  rewrite chunks_concat in Hzero by (apply matmul_rows; exact HXr).
  apply (f_equal (fun M => matvec M v)) in Hzero.
  rewrite <- Hv in Hzero at 1. rewrite matvec_eye in Hzero.
  rewrite matvec_matmul in Hzero by exact HXr.
  apply matvec_zeros_iff in Hker. rewrite Hker in Hzero.
  rewrite matvec_zeros_r in Hzero. exact Hzero.
Qed.

(** ** Noiseless observations *)

Lemma chunks_single {A} c (d : list A) : length d = c -> chunks 1 c d = [d].
Proof.
  intro H. unfold chunks; simpl. rewrite slice_0, firstn_all2 by lia.
  reflexivity.
Qed.

Lemma vsum_zeros n : vsum (zeros n) = 0.
Proof. induction n; simpl; auto. fold (zeros n). rewrite IHn. lra. Qed.

Lemma map_square_zeros n : map (fun x => x * x) (zeros n) = zeros n.
Proof.
  unfold zeros. induction n; simpl; auto. rewrite IHn. f_equal. ring.
Qed.

(** On [y = D c] the call returns [c]; the residuals vanish and the
    residual variance is the quotient of zero by the residual degrees of
    freedom. *)
Lemma pls_noiseless D c :
  wf_matrix D -> full_column_rank D -> length c = ncols D ->
  exists X,
    linalg_solve (einsum_gram D) (swapaxes D) = Ok (mk_matrix (nrows D) X) /\
    length X = ncols D /\ Forall (fun x => length x = nrows D) X /\
    (forall c', length c' = ncols D -> matvec X (matvec (mrows D) c') = c') /\
    probabilistic_least_squares D
      (mk_ndarray [nrows D] (matvec (mrows D) c)) None false =
    Ok (Mean_Variance (mk_ndarray [ncols D] c)
          (mk_ndarray [] [fdiv (Fin 0) (Fin (residual_dof D X))])).
Proof.
  intros HD Hfull Hc.
  destruct (pls_solve_full_rank HD Hfull) as (X & HX & HXl & HXr & Hinv).
  exists X. repeat (split; [assumption|]).
  set (y := mk_ndarray [nrows D] (matvec (mrows D) c)).
  assert (Hy : wf y) by (unfold wf, y; simpl; rewrite matvec_length; unfold nrows; lia).
  destruct (@pls_eval D y None false [] HD I eq_refl Hy)
    as (U & HU & _ & _ & _ & Heq).
  simpl in HU. injection HU as HU. subst U.
  rewrite Heq, HX. simpl.
  assert (Hobs : observations D y [] = [matvec (mrows D) c]).
  { unfold observations; simpl. apply chunks_single. apply matvec_length. }
  f_equal. f_equal.
  - unfold posterior_mean. rewrite Hobs. simpl.
    rewrite app_nil_r, Hinv by exact Hc. reflexivity.
  - assert (Hrss : data (residual_sums D X y []) = [0]).
    { unfold residual_sums, fitted_values. rewrite Hobs. simpl flat_map.
      rewrite app_nil_r, Hinv by exact Hc.
      unfold sum_last, square, amap; simpl. f_equal.
      fold (vsub (matvec (mrows D) c) (matvec (mrows D) c)).
      rewrite vsub_self_zeros, matvec_length, map_square_zeros.
      rewrite slice_0, firstn_all2
        by (rewrite zeros_length; unfold nrows; lia).
      apply vsum_zeros. }
    unfold posterior_variance. rewrite Hrss. reflexivity.
Qed.

(** * The claims *)

Lemma test_design_wf : wf_matrix test_design.
Proof. repeat constructor. Qed.

Lemma test_design_full_rank : full_column_rank test_design.
Proof.
  intros c Hc H. destruct c as [|c1 [|c2 [|]]]; try discriminate.
  simpl in H. injection H as H1 H2 H3. unfold zeros; simpl. repeat (f_equal; try lra).
Qed.




(** C5, amended.  In exact arithmetic, a rank-deficient design without
    regularization makes the call raise [LinAlgError: Singular matrix]:
    the elimination of the Gram matrix meets a pivot that is zero, and
    nothing is returned. *)
Theorem C5_rank_deficient_design_raises D y return_posterior_precision :
  wf_matrix D -> rank_deficient D ->
  probabilistic_least_squares D y None return_posterior_precision =
  Raise (LinAlgError Singular_matrix).
Proof.
  intros HD Hdef. rewrite pls_split. simpl.
  rewrite linalg_solve_singular; auto.
  - apply gram_wf; exact HD.
  - apply swapaxes_wf.
  - apply gram_square.
  - rewrite swapaxes_nrows, gram_square. reflexivity.
  - rewrite gram_square. apply (gram_singular HD Hdef).
Qed.

Lemma C5_rank_deficient_design_raises_witness :
  probabilistic_least_squares (mk_matrix 2 [[1; 2]; [2; 4]])
    (mk_ndarray [2%nat] [1; 1]) None true =
  Raise (LinAlgError Singular_matrix).
Proof.
  apply C5_rank_deficient_design_raises.
  - repeat constructor.
  - exists [2; -1]. split; [reflexivity|]. split.
    + unfold zeros; simpl. intro H. injection H as H _. lra.
    + unfold zeros; simpl. repeat (f_equal; try lra).
Defined.

(** ** The branch that returns the posterior precision *)

(** One unit, given as a vector or as a batch of one: the unscaled
    precision is divided by the one residual variance. *)
Lemma pls_tail_single U dm (mean : ndarray R) (rv : ndarray float) r j :
  wf_matrix U -> nrows U = ncols U ->
  atleast_2d mean = mk_ndarray [1%nat; ncols U] dm ->
  shape rv = repeat 1%nat j -> (j <= 2)%nat -> data rv = [r] ->
  pls_tail U mean rv =
  Ok (Mean_Variance_Precision
        (squeeze (mk_ndarray [1%nat; ncols U] dm)) rv
        (squeeze (mk_ndarray [1%nat; ncols U; ncols U]
                    (map (fun u => fdiv (Fin u) r) (concat (mrows U)))))).
Proof.
  intros HU Hsq Hm Hs Hj Hd. unfold pls_tail. rewrite Hm.
  unfold unpack2; simpl shape; simpl bind.
  rewrite (@broadcast_scalar_r _ _ _ _ _ _ j r); auto.
  - simpl bind. unfold reshape, size; simpl shape.
    rewrite Hsq.
    replace (Nat.eqb (product [1%nat; ncols U; ncols U]) (product [ncols U; ncols U]))
      with true by (symmetry; apply Nat.eqb_eq; simpl; lia).
    reflexivity.
  - apply of_matrix_wf. exact HU.
Qed.

(** Two or more units and two or more coefficients: the division
    broadcasts the variances along the last axis of the matrix, and fails
    or yields an array that cannot be reshaped. *)
Lemma pls_tail_batch U (mean : ndarray R) (rv : ndarray float) n :
  nrows U = ncols U -> (2 <= n)%nat -> (2 <= ncols U)%nat ->
  shape mean = [n; ncols U] -> shape rv = [n] ->
  pls_tail U mean rv =
  Raise (ValueError (if Nat.eqb (ncols U) n then cannot_reshape
                     else operands_not_broadcast)).
Proof.
  intros Hsq Hn Hp Hm Hs. unfold pls_tail.
  replace (atleast_2d mean) with mean
    by (unfold atleast_2d; rewrite Hm; reflexivity).
  unfold unpack2. rewrite Hm. cbn [bind].
  assert (Ha : shape (of_matrix U) = [ncols U; ncols U])
    by (unfold of_matrix; simpl; rewrite Hsq; reflexivity).
  unfold broadcast, ndim. rewrite Ha, Hs.
  change (Nat.max (length [ncols U; ncols U]) (length [n])) with 2%nat.
  change (pad 2 [ncols U; ncols U]) with [ncols U; ncols U].
  change (pad 2 [n]) with [1%nat; n].
  cbn [compatible zipWith].
  assert (H1 : dims_agree (ncols U) 1 = true)
    by (unfold dims_agree; simpl; apply orb_true_r).
  assert (H2 : dims_agree (ncols U) n = Nat.eqb (ncols U) n).
  { unfold dims_agree.
    replace (Nat.eqb n 1) with false by (symmetry; apply Nat.eqb_neq; lia).
    replace (Nat.eqb (ncols U) 1) with false
      by (symmetry; apply Nat.eqb_neq; lia).
    rewrite !orb_false_r. reflexivity. }
  rewrite H1, H2. cbn [andb].
  destruct (Nat.eqb_spec (ncols U) n) as [E|E]; cbn [andb bind]; auto.
  unfold reshape, size. cbn [shape].
  replace (Nat.eqb (product [n; ncols U; ncols U])
             (product [bdim (ncols U) 1; bdim (ncols U) n]))
    with false; [reflexivity|].
  symmetry. apply Nat.eqb_neq. unfold bdim.
  replace (Nat.eqb (ncols U) 1) with false
    by (symmetry; apply Nat.eqb_neq; lia).
  simpl. subst n. nia.
Qed.

(** Whatever the regularization, a batch of two or more observation
    vectors with two or more coefficients never yields a precision. *)
Lemma pls_batched_precision_raises D d reg n :
  wf_matrix D -> regularization_ok D reg ->
  (2 <= n)%nat -> (2 <= ncols D)%nat -> length d = (n * nrows D)%nat ->
  let y := mk_ndarray [n; nrows D] d in
  probabilistic_least_squares D y reg true = Raise (LinAlgError Singular_matrix)
  \/ probabilistic_least_squares D y reg true =
     Raise (ValueError (if Nat.eqb (ncols D) n then cannot_reshape
                        else operands_not_broadcast)).
Proof.
  intros HD Hreg Hn Hp Hd y.
  assert (Hy : wf y) by (unfold wf, y; simpl; lia).
  destruct (@pls_eval D y reg true [n] HD Hreg eq_refl Hy)
    as (U & HU & Uwf & Un & Uc & Heq).
  rewrite Heq.
  assert (Usq : nrows U = ncols U) by congruence.
  assert (Hbr : nrows (swapaxes D) = nrows U)
    by (rewrite swapaxes_nrows; congruence).
  rewrite (linalg_solve_gauss _ _ Usq Hbr).
  destruct (gauss _ _ _) as [X|]; simpl; [right | left; reflexivity].
  rewrite <- Uc. apply pls_tail_batch; auto; try lia.
  unfold posterior_mean; simpl. congruence.
Qed.

(** C3.  With a batch of two or more observation vectors, two or more
    coefficients and a design of full column rank, the call that asks for
    the posterior precision raises [ValueError]: it returns no precision at
    all, where the unscaled precision divided by each unit's residual
    variance was specified. *)
Theorem C3_batched_precision_raises D d n :
  wf_matrix D -> full_column_rank D ->
  (2 <= n)%nat -> (2 <= ncols D)%nat -> length d = (n * nrows D)%nat ->
  probabilistic_least_squares D (mk_ndarray [n; nrows D] d) None true =
  Raise (ValueError (if Nat.eqb (ncols D) n then cannot_reshape
                     else operands_not_broadcast)).
Proof.
  intros HD Hfull Hn Hp Hd.
  set (y := mk_ndarray [n; nrows D] d).
  assert (Hy : wf y) by (unfold wf, y; simpl; lia).
  destruct (@pls_eval D y None true [n] HD I eq_refl Hy)
    as (U & HU & _ & _ & _ & Heq).
  simpl in HU. injection HU as HU. subst U.
  destruct (pls_solve_full_rank HD Hfull) as (X & HX & _).
  rewrite Heq, HX. cbn [bind negb mrows].
  apply (@pls_tail_batch (einsum_gram D)); auto.
  apply gram_square.
Qed.

Lemma C3_batched_precision_raises_witness :
  probabilistic_least_squares (mk_matrix 2 [[1; 0]; [0; 1]; [1; 1]])
    (mk_ndarray [2%nat; 3%nat] [1; 2; 4; 2; 1; 4]) None true
  = Raise (ValueError cannot_reshape).
Proof.
  apply (@C3_batched_precision_raises
           (mk_matrix 2 [[1; 0]; [0; 1]; [1; 1]]) [1; 2; 4; 2; 1; 4] 2%nat).
  - repeat constructor.
  - intros c Hc H. destruct c as [|c1 [|c2 [|]]]; try discriminate.
    simpl in H. injection H as H1 H2 H3.
    unfold zeros; simpl. repeat (f_equal; try lra).
  - lia.
  - simpl. lia.
  - reflexivity.
Defined.

(** ** Cholesky factorization and positive definiteness *)

Lemma nth_tl (v : vec) j : nth j (tl v) 0 = nth (S j) v 0.
Proof. destruct v; simpl; auto. destruct j; auto. Qed.

Lemma nth_hd (v : vec) : hd 0 v = nth 0 v 0.
Proof. destruct v; auto. Qed.

Lemma nth_zipWith_gen {A B C} (f : A -> B -> C) xs ys i dx dy :
  length xs = length ys ->
  nth i (zipWith f xs ys) (f dx dy) = f (nth i xs dx) (nth i ys dy).
Proof.
  revert ys i; induction xs as [|x xs IH]; intros [|y ys] i H; simpl in *;
    try discriminate.
  - destruct i; auto.
  - destruct i; auto.
Qed.

Lemma matvec_cons_rows n (rest : list vec) x1 x' :
  Forall (fun r => length r = S n) rest ->
  matvec rest (x1 :: x') =
  vadd (scale x1 (map (hd 0) rest)) (matvec (map (@tl R) rest) x').
Proof.
  induction 1 as [|r rest Hr Hrest IH]; simpl; auto.
  destruct r as [|h t]; [discriminate|].
  unfold vadd in *; simpl. rewrite <- IH. f_equal. simpl. ring.
Qed.

Lemma schur_row_lengths n (c0 : vec) : forall (cs : vec) (rest : list vec),
  length c0 = n -> Forall (fun r => length r = S n) rest ->
  Forall (fun r => length r = n)
    (zipWith (fun ci r => vsub (tl r) (scale ci c0)) cs rest).
Proof.
  intros cs rest Hc Hrest. revert cs.
  induction Hrest as [|r rs Hr Hrs IH]; intros [|ci cs]; simpl; constructor.
  - destruct r; simpl in *; [discriminate|]. vlen.
  - apply IH.
Qed.

Lemma schur_rows n (c : vec) (rest : list vec) :
  length rest = n -> Forall (fun r => length r = S n) rest -> length c = n ->
  square_rows n (schur_complement c rest).
Proof.
  intros Hl Hr Hc. unfold schur_complement. split.
  - rewrite zipWith_length. lia.
  - apply schur_row_lengths; auto.
Qed.

Lemma dot_vadd_r x u v :
  length u = length v -> dot x (vadd u v) = dot x u + dot x v.
Proof.
  intro H. rewrite dot_comm, dot_vadd_l by exact H.
  rewrite (dot_comm u), (dot_comm v). reflexivity.
Qed.

Lemma dot_scale_r f x u : dot x (scale f u) = f * dot x u.
Proof. rewrite dot_comm, dot_scale_l, dot_comm. reflexivity. Qed.

Lemma quad_block n a u (rest : list vec) x1 x' :
  Forall (fun r => length r = S n) rest -> length rest = length x' ->
  quad ((a :: u) :: rest) (x1 :: x')
  = a * x1 * x1 + x1 * dot u x' + x1 * dot (map (hd 0) rest) x'
    + quad (map (@tl R) rest) x'.
Proof.
  intros Hrows Hl. unfold quad. simpl.
  rewrite (matvec_cons_rows x1 x' Hrows).
  rewrite dot_vadd_r, dot_scale_r by (vlen; rewrite matvec_length; vlen).
  rewrite (dot_comm x' (map (hd 0) rest)). ring.
Qed.

Lemma schur_matvec_gen n (c0 : vec) x' : forall (cs : vec) (rest : list vec),
  length c0 = n -> Forall (fun r => length r = S n) rest ->
  length cs = length rest ->
  matvec (zipWith (fun ci r => vsub (tl r) (scale ci c0)) cs rest) x'
  = vsub (matvec (map (@tl R) rest) x') (scale (dot c0 x') cs).
Proof.
  intros cs rest Hc Hrows. revert cs.
  induction Hrows as [|r rs Hr Hrs IH]; intros [|ci cs] Hl; simpl in *;
    try discriminate; auto.
  rewrite IH by lia.
  destruct r as [|h t]; [discriminate|]. simpl in *.
  rewrite dot_vsub_l, dot_scale_l by vlen.
  unfold vsub; simpl. f_equal. ring.
Qed.

Lemma quad_schur n (c : vec) (rest : list vec) x' :
  length c = n -> length rest = n -> Forall (fun r => length r = S n) rest ->
  quad (schur_complement c rest) x'
  = quad (map (@tl R) rest) x' - dot c x' * dot c x'.
Proof.
  intros Hc Hl Hrows. unfold quad, schur_complement.
  rewrite (@schur_matvec_gen n) by (auto; lia).
  rewrite dot_vsub_r, dot_scale_r by (vlen; rewrite matvec_length; vlen).
  rewrite (dot_comm x' c). ring.
Qed.

(** Completing the square on the first variable. *)
Lemma quad_complete_square n a (rest : list vec) x1 x' :
  0 < a -> length rest = n -> Forall (fun r => length r = S n) rest ->
  length x' = n ->
  let l := sqrt a in
  let c := map (fun r => hd 0 r / l) rest in
  quad ((a :: map (hd 0) rest) :: rest) (x1 :: x')
  = (l * x1 + dot c x') * (l * x1 + dot c x')
    + quad (schur_complement c rest) x'.
Proof.
  intros Ha Hl Hrows Hx l c.
  assert (Hpos : 0 < l) by (apply sqrt_lt_R0; exact Ha).
  assert (Hll : l * l = a) by (apply sqrt_sqrt; lra).
  assert (Hc : c = scale (/ l) (map (hd 0) rest)).
  { unfold c, scale. rewrite map_map. apply map_ext. intro r.
    unfold Rdiv. ring. }
  rewrite (@quad_block n) by (auto; lia).
  rewrite (@quad_schur n) by (auto; unfold c; vlen).
  assert (Hb : dot (map (hd 0) rest) x' = l * dot c x').
  { rewrite Hc, dot_scale_l. field. lra. }
  rewrite Hb, <- Hll. ring.
Qed.

Lemma symmetric_block n a u (rest : list vec) :
  symmetric ((a :: u) :: rest) -> length u = n -> length rest = n ->
  u = map (hd 0) rest /\ symmetric (map (@tl R) rest).
Proof.
  intros Hsym Hu Hl. split.
  - apply vec_ext; [vlen|]. intro j.
    specialize (Hsym 0%nat (S j)). simpl in Hsym. rewrite Hsym.
    change (nth j (map (hd 0) rest) 0)
      with (nth j (map (hd 0) rest) (hd 0 (@nil R))).
    rewrite map_nth. destruct (nth j rest []); reflexivity.
  - intros i j. specialize (Hsym (S i) (S j)). simpl in Hsym.
    change (@nil R) with (tl (@nil R)).
    rewrite !map_nth, !nth_tl. exact Hsym.
Qed.

Lemma schur_entry n (c : vec) (rest : list vec) i j :
  length c = n -> length rest = n -> Forall (fun r => length r = S n) rest ->
  (i < n)%nat ->
  nth j (nth i (schur_complement c rest) []) 0
  = nth j (nth i (map (@tl R) rest) []) 0 - nth i c 0 * nth j c 0.
Proof.
  intros Hc Hl Hrows Hi. unfold schur_complement.
  change (@nil R) with ((fun ci r => vsub (tl r) (scale ci c)) 0 (@nil R)) at 1.
  rewrite nth_zipWith_gen by lia.
  assert (Hr : length (nth i rest []) = S n).
  { rewrite Forall_forall in Hrows. apply Hrows. apply nth_In. lia. }
  rewrite nth_vsub, nth_scale
    by (destruct (nth i rest []); simpl in *; [discriminate | vlen]).
  change (@nil R) with (tl (@nil R)) at 2. rewrite map_nth. reflexivity.
Qed.

Lemma schur_symmetric n (c : vec) (rest : list vec) :
  length c = n -> length rest = n -> Forall (fun r => length r = S n) rest ->
  symmetric (map (@tl R) rest) -> symmetric (schur_complement c rest).
Proof.
  intros Hc Hl Hrows Hsym i j.
  destruct (@schur_rows n c rest Hl Hrows Hc) as [HSl HSr].
  assert (Hout : forall i' j', (n <= i')%nat ->
            nth j' (nth i' (schur_complement c rest) []) 0 = 0
            /\ nth i' (nth j' (schur_complement c rest) []) 0 = 0).
  { intros i' j' Hi'. split.
    - rewrite (nth_overflow (schur_complement c rest)) by lia.
      destruct j'; reflexivity.
    - destruct (Nat.lt_ge_cases j' n) as [Hj|Hj].
      + apply nth_overflow. rewrite Forall_forall in HSr.
        rewrite (HSr (nth j' (schur_complement c rest) [])); [lia|].
        apply nth_In. lia.
      + rewrite (nth_overflow (schur_complement c rest)) by lia.
        destruct i'; reflexivity. }
  destruct (Nat.lt_ge_cases i n) as [Hi|Hi];
    [destruct (Nat.lt_ge_cases j n) as [Hj|Hj]|].
  - rewrite !(@schur_entry n) by auto. rewrite (Hsym i j). ring.
  - destruct (Hout j i Hj) as [H1 H2]. rewrite H1, H2. reflexivity.
  - destruct (Hout i j Hi) as [H1 H2]. rewrite H1, H2. reflexivity.
Qed.

(** The rows of a square matrix with a first row. *)
Lemma square_rows_cons n (P : list vec) :
  square_rows (S n) P ->
  exists a u rest, P = (a :: u) :: rest /\ length u = n /\ length rest = n /\
                   Forall (fun r => length r = S n) rest.
Proof.
  intros [Hl Hr]. destruct P as [|[|a u] rest]; try discriminate.
  - apply Forall_cons_iff in Hr. destruct Hr; discriminate.
  - apply Forall_cons_iff in Hr. destruct Hr as [Hu Hrest].
    exists a, u, rest. simpl in *. repeat split; auto; lia.
Qed.

(** A matrix the factorization accepts is positive definite. *)
Lemma cholesky_positive_definite n : forall P L,
  square_rows n P -> symmetric P -> cholesky_rows n P = Some L ->
  positive_definite n P.
Proof.
  induction n as [|n IH]; intros P L Hsq Hsym HL x Hx Hnz.
  - destruct x; [exfalso; apply Hnz; reflexivity | discriminate].
  - destruct (square_rows_cons Hsq) as (a & u & rest & -> & Hu & Hl & Hrows).
    destruct (symmetric_block Hsym Hu Hl) as [-> HsymC].
    simpl in HL. destruct (Rlt_dec 0 a) as [Ha|]; [|discriminate].
    set (c := map (fun r => hd 0 r / sqrt a) rest) in *.
    destruct (cholesky_rows n (schur_complement c rest)) as [L'|] eqn:HL';
      [|discriminate].
    assert (Hc : length c = n) by (unfold c; vlen).
    pose proof (IH _ _ (@schur_rows n c rest Hl Hrows Hc)
                  (@schur_symmetric n c rest Hc Hl Hrows HsymC) HL') as Hpd.
    destruct x as [|x1 x']; [discriminate|]. simpl in Hx.
    rewrite (@quad_complete_square n) by (auto; lia). fold c.
    destruct (list_eq_dec Req_dec_T x' (zeros n)) as [E|E].
    + subst x'.
      assert (Hx1 : x1 <> 0).
      { intro E. apply Hnz. subst x1. reflexivity. }
      assert (Hq : quad (schur_complement c rest) (zeros n) = 0)
        by (unfold quad; apply dot_zeros_l).
      rewrite Hq, dot_zeros_r.
      pose proof (sqrt_lt_R0 a Ha) as Hs.
      assert (Hne : sqrt a * x1 <> 0)
        by (apply Rmult_integral_contrapositive_currified; lra).
      apply Rsqr_pos_lt in Hne. unfold Rsqr in Hne. lra.
    + specialize (Hpd x' ltac:(lia) E).
      pose proof (Rle_0_sqr (sqrt a * x1 + dot c x')) as H0.
      unfold Rsqr in H0. lra.
Qed.

(** The factorization accepts every symmetric positive definite matrix. *)
Lemma cholesky_complete n : forall P,
  square_rows n P -> symmetric P -> positive_definite n P ->
  exists L, cholesky_rows n P = Some L.
Proof.
  induction n as [|n IH]; intros P Hsq Hsym Hpd.
  - simpl. eauto.
  - destruct (square_rows_cons Hsq) as (a & u & rest & -> & Hu & Hl & Hrows).
    destruct (symmetric_block Hsym Hu Hl) as [-> HsymC].
    assert (Ha : 0 < a).
    { specialize (Hpd (1 :: zeros n)).
      rewrite (@quad_block n) in Hpd by (auto; vlen).
      rewrite !dot_zeros_r in Hpd.
      replace (quad (map (@tl R) rest) (zeros n)) with 0 in Hpd
        by (unfold quad; rewrite dot_zeros_l; reflexivity).
      assert (0 < a * 1 * 1 + 1 * 0 + 1 * 0 + 0); [|lra].
      apply Hpd; [simpl; vlen|].
      unfold zeros; simpl. intro H. injection H as H. lra. }
    simpl. destruct (Rlt_dec 0 a) as [_|]; [|contradiction].
    set (c := map (fun r => hd 0 r / sqrt a) rest).
    assert (Hc : length c = n) by (unfold c; vlen).
    destruct (IH (schur_complement c rest)) as [L' HL'].
    + apply schur_rows; auto.
    + apply (@schur_symmetric n c rest Hc Hl Hrows HsymC).
    + intros x' Hx' Hnz.
      pose proof (sqrt_lt_R0 a Ha) as Hpos.
      specialize (Hpd (- (dot c x' / sqrt a) :: x')).
      rewrite (@quad_complete_square n) in Hpd by (auto; lia). fold c in Hpd.
      replace (sqrt a * - (dot c x' / sqrt a) + dot c x') with 0 in Hpd
        by (field; lra).
      rewrite Rmult_0_l, Rplus_0_l in Hpd. apply Hpd; [simpl; lia|].
      unfold zeros; simpl. intro H. injection H as _ H. apply Hnz. exact H.
    + rewrite HL'. eauto.
Qed.

Lemma zipWith_cons_rows n (c : vec) (L : list vec) :
  Forall (fun r => length r = n) L ->
  Forall (fun r => length r = S n) (zipWith cons c L).
Proof.
  intro H. revert c. induction H as [|r L Hr HL IH]; intros [|ci c]; simpl;
    constructor; simpl; auto.
Qed.

Lemma zipWith_cons_kernel (c : vec) (L : list vec) v' :
  length c = length L ->
  Forall (fun r => dot r (0 :: v') = 0) (zipWith cons c L) ->
  Forall (fun r => dot r v' = 0) L.
Proof.
  revert L; induction c as [|ci c IH]; intros [|r L] Hl H; simpl in *;
    try discriminate; constructor.
  - apply Forall_cons_iff in H. destruct H as [H _]. simpl in H. lra.
  - apply Forall_cons_iff in H. destruct H as [_ H]. apply IH; auto.
Qed.

(** The factor is square and non-singular: it is lower triangular with a
    positive diagonal. *)
Lemma cholesky_factor n : forall P L,
  square_rows n P -> cholesky_rows n P = Some L ->
  square_rows n L /\ nonsingular n L.
Proof.
  induction n as [|n IH]; intros P L Hsq HL.
  - simpl in HL. injection HL as <-. split; [split; auto|].
    intros v Hv _. destruct v; auto; discriminate.
  - destruct (square_rows_cons Hsq) as (a & u & rest & -> & Hu & Hl & Hrows).
    simpl in HL. destruct (Rlt_dec 0 a) as [Ha|]; [|discriminate].
    set (c := map (fun r => hd 0 r / sqrt a) rest) in *.
    destruct (cholesky_rows n (schur_complement c rest)) as [L'|] eqn:HL';
      [|discriminate].
    injection HL as <-.
    assert (Hc : length c = n) by (unfold c; vlen).
    destruct (IH _ _ (@schur_rows n c rest Hl Hrows Hc) HL') as [[HLl HLr] Hns].
    split; [split|].
    + simpl. rewrite zipWith_length. lia.
    + constructor; [simpl; vlen|]. apply zipWith_cons_rows. exact HLr.
    + intros v Hv Hker. destruct v as [|v1 v']; [discriminate|].
      apply Forall_cons_iff in Hker. destruct Hker as [H1 Hrest].
      simpl in H1. rewrite dot_zeros_l in H1.
      pose proof (sqrt_lt_R0 a Ha) as Hs.
      assert (v1 = 0) by nra. subst v1.
      apply zipWith_cons_kernel in Hrest; [|lia].
      unfold zeros; simpl. f_equal. apply Hns; auto.
Qed.

(** ** [np.linalg.cholesky] factors the positive definite matrices *)

Lemma linalg_cholesky_rows (a : matrix) :
  nrows a = ncols a ->
  linalg_cholesky a =
  match cholesky_rows (nrows a) (mrows a) with
  | Some L => Ok (mk_matrix (ncols a) L)
  | None => Raise (LinAlgError Matrix_is_not_positive_definite)
  end.
Proof.
  intro H. unfold linalg_cholesky. rewrite H, Nat.eqb_refl. reflexivity.
Qed.

(** ** One turn of the sampling loop *)

Section Sample_voxel.

Variables (mean precision : ndarray R) (n p k : nat).

Hypothesis mean_shape : shape mean = [n; p].
Hypothesis precision_shape : shape precision = [n; p; p].
Hypothesis precision_wf : wf precision.

Lemma index3_unit i :
  index3 precision i
  = mk_matrix p (chunks p p (slice i (p * p) (data precision))).
Proof. unfold index3. rewrite precision_shape. reflexivity. Qed.

Lemma unit_square i :
  (i < n)%nat -> square_rows p (mrows (index3 precision i)).
Proof.
  intro Hi. rewrite index3_unit. simpl. split.
  - apply chunks_length.
  - apply chunks_rows. apply (slice_length (n:=n)); auto.
    unfold wf in precision_wf. rewrite precision_wf, precision_shape.
    simpl. lia.
Qed.

Lemma broadcast_column_shape (a b : ndarray R) :
  shape a = [p; 1%nat] -> shape b = [p; k] ->
  exists v, broadcast Rplus a b = Ok v /\ shape v = [p; k].
Proof.
  intros Ha Hb. unfold broadcast, ndim. rewrite Ha, Hb.
  change (Nat.max (length [p; 1%nat]) (length [p; k])) with 2%nat.
  change (pad 2 [p; 1%nat]) with [p; 1%nat].
  change (pad 2 [p; k]) with [p; k].
  cbn [compatible zipWith]. rewrite dims_agree_refl.
  replace (dims_agree 1 k) with true
    by (unfold dims_agree; rewrite (Nat.eqb_refl 1), orb_true_r; reflexivity).
  cbn [andb]. eexists. split; [reflexivity|].
  cbn [shape]. rewrite bdim_refl. reflexivity.
Qed.

Lemma setitem3_shape (samples v : ndarray R) i :
  shape samples = [n; p; k] -> shape v = [p; k] ->
  exists samples', setitem3 samples i v = Ok samples'
                   /\ shape samples' = [n; p; k].
Proof.
  intros Hs Hv. unfold setitem3. rewrite Hs.
  unfold broadcast, ndim. cbn [shape]. rewrite Hv, pad_same, compatible_refl.
  cbn [bind shape]. rewrite bdim_refl_all.
  destruct (list_eq_dec Nat.eq_dec [p; k] [p; k]) as [_|E]; [|contradiction].
  eexists. split; reflexivity.
Qed.

Lemma sample_voxel_step i (samples : ndarray R) (g : rng) :
  (i < n)%nat -> shape samples = [n; p; k] ->
  match cholesky_rows p (mrows (index3 precision i)) with
  | None =>
      sample_voxel mean precision p k i (samples, g)
      = Raise (LinAlgError Matrix_is_not_positive_definite)
  | Some _ =>
      exists samples',
        sample_voxel mean precision p k i (samples, g)
        = Ok (samples', snd (randn g p k))
        /\ shape samples' = [n; p; k]
  end.
Proof.
  intros Hi Hs. unfold sample_voxel.
  destruct (unit_square Hi) as [Hul Hur].
  assert (Hsq : nrows (index3 precision i) = ncols (index3 precision i)).
  { unfold nrows. rewrite Hul, index3_unit. reflexivity. }
  rewrite (linalg_cholesky_rows _ Hsq).
  replace (nrows (index3 precision i)) with p by (unfold nrows; auto).
  destruct (cholesky_rows p (mrows (index3 precision i))) as [L|] eqn:HL;
    cbn [randn bind]; auto.
  destruct (cholesky_factor (conj Hul Hur) HL) as [[HLl HLr] Hns].
  replace (ncols (index3 precision i)) with p by (rewrite index3_unit; auto).
  set (Z := to_matrix (mk_ndarray [p; k]
                         (map (draws g) (seq (position g) (p * k))))).
  assert (HZwf : wf_matrix Z).
  { unfold Z, to_matrix, wf_matrix; simpl. apply chunks_rows.
    rewrite length_map, length_seq. reflexivity. }
  assert (HZn : nrows Z = p) by (unfold Z, to_matrix, nrows; simpl; apply chunks_length).
  assert (Hasq : nrows (mk_matrix p L) = ncols (mk_matrix p L)) by exact HLl.
  assert (Hbr : nrows Z = nrows (mk_matrix p L))
    by (rewrite HZn; symmetry; exact HLl).
  assert (Hns' : nonsingular (nrows (mk_matrix p L)) (mrows (mk_matrix p L)))
    by (unfold nrows; simpl; rewrite HLl; exact Hns).
  destruct (@linalg_solve_complete (mk_matrix p L) Z HLr HZwf Hasq Hbr Hns')
    as [X HX].
  destruct (@linalg_solve_sound (mk_matrix p L) Z HLr HZwf Hasq Hbr X HX)
    as (HXc & HXn & _).
  rewrite HX. cbn [bind].
  destruct (@broadcast_column_shape (index_column mean i) (of_matrix X))
    as (v & Hv & Hvs).
  { unfold index_column. rewrite mean_shape. reflexivity. }
  { unfold of_matrix; simpl. rewrite HXn, HXc. unfold nrows; simpl.
    rewrite HLl. reflexivity. }
  rewrite Hv. cbn [bind].
  destruct (@setitem3_shape samples v i Hs Hvs) as (samples' & Hset & Hshape).
  rewrite Hset. cbn [bind]. exists samples'. split; [reflexivity | exact Hshape].
Qed.

End Sample_voxel.

(** ** The sampling loop and the whole of [sample_coef_posterior] *)

Section Sample_loop.

Variables (mean precision : ndarray R) (n p k : nat).

Hypothesis mean_shape : shape mean = [n; p].
Hypothesis precision_shape : shape precision = [n; p; p].
Hypothesis precision_wf : wf precision.

Let body := sample_voxel mean precision p k.
Let unit i := mrows (index3 precision i).

Lemma for_range_succeeds range : forall samples g,
  Forall (fun i => (i < n)%nat /\ cholesky_rows p (unit i) <> None) range ->
  shape samples = [n; p; k] ->
  exists samples' g',
    for_range body range (samples, g) = Ok (samples', g')
    /\ shape samples' = [n; p; k].
Proof.
  induction range as [|i range IH]; intros samples g Hr Hs; cbn [for_range].
  - eauto.
  - apply Forall_cons_iff in Hr. destruct Hr as [[Hi Hc] Hr].
    pose proof (@sample_voxel_step mean precision n p k mean_shape
                  precision_shape precision_wf i samples g Hi Hs) as Hstep.
    fold (unit i) in Hstep.
    destruct (cholesky_rows p (unit i)); [|contradiction].
    destruct Hstep as (samples' & Hstep & Hs').
    unfold body at 1. rewrite Hstep. cbn [bind]. apply IH; auto.
Qed.

Lemma for_range_raises range : forall samples g,
  Forall (fun i => (i < n)%nat) range ->
  Exists (fun i => cholesky_rows p (unit i) = None) range ->
  shape samples = [n; p; k] ->
  for_range body range (samples, g)
  = Raise (LinAlgError Matrix_is_not_positive_definite).
Proof.
  induction range as [|i range IH]; intros samples g Hr He Hs;
    cbn [for_range].
  - inversion He.
  - apply Forall_cons_iff in Hr. destruct Hr as [Hi Hr].
    pose proof (@sample_voxel_step mean precision n p k mean_shape
                  precision_shape precision_wf i samples g Hi Hs) as Hstep.
    fold (unit i) in Hstep.
    destruct (cholesky_rows p (unit i)) eqn:Hc.
    + destruct Hstep as (samples' & Hstep & Hs').
      unfold body at 1. rewrite Hstep. cbn [bind]. apply IH; auto.
      apply Exists_cons in He. destruct He as [He|He]; [congruence | exact He].
    + unfold body at 1. rewrite Hstep. reflexivity.
Qed.

End Sample_loop.

Lemma np_zeros_ok n p (n_samples : Z) :
  (0 <= n_samples)%Z ->
  np_zeros [Z.of_nat n; Z.of_nat p; n_samples]
  = Ok (mk_ndarray [n; p; Z.to_nat n_samples]
          (repeat 0 (product [n; p; Z.to_nat n_samples]))).
Proof.
  intro H. unfold np_zeros. cbn [existsb map].
  replace (Z.of_nat n <? 0)%Z with false by (symmetry; apply Z.ltb_ge; lia).
  replace (Z.of_nat p <? 0)%Z with false by (symmetry; apply Z.ltb_ge; lia).
  replace (n_samples <? 0)%Z with false by (symmetry; apply Z.ltb_ge; lia).
  cbn [orb]. rewrite !Nat2Z.id. reflexivity.
Qed.

Lemma np_zeros_negative n p (n_samples : Z) :
  (n_samples < 0)%Z ->
  np_zeros [Z.of_nat n; Z.of_nat p; n_samples]
  = Raise (ValueError negative_dimensions).
Proof.
  intro H. unfold np_zeros. cbn [existsb].
  replace (n_samples <? 0)%Z with true by (symmetry; apply Z.ltb_lt; lia).
  rewrite !orb_true_r. reflexivity.
Qed.

Section Sample.

Variables (mean precision : ndarray R) (n p : nat) (n_samples : Z) (g : rng).

(** The mean holds [n] units of [p] coefficients, the precision [n]
    matrices of [p] x [p] entries. *)
Hypothesis mean_units : shape (atleast_2d mean) = [n; p].
Hypothesis precision_wf : wf precision.
Hypothesis precision_size : size precision = (n * (p * p))%nat.

Lemma sample_unfold :
  sample_coef_posterior mean precision n_samples g =
  (samples <- np_zeros [Z.of_nat n; Z.of_nat p; n_samples] ;;
   '(samples, g) <-
     for_range (sample_voxel (atleast_2d mean)
                  (mk_ndarray [n; p; p] (data precision)) p (Z.to_nat n_samples))
       (seq 0 n) (samples, g) ;;
   Ok (squeeze samples, g)).
Proof.
  unfold sample_coef_posterior, unpack2. rewrite mean_units. cbn [bind].
  unfold reshape. rewrite precision_size.
  replace (Nat.eqb (product [n; p; p]) (n * (p * p))) with true
    by (symmetry; apply Nat.eqb_eq; simpl; lia).
  reflexivity.
Qed.

Lemma reshaped_wf : wf (mk_ndarray [n; p; p] (data precision)).
Proof.
  unfold wf in *. unfold size in precision_size. simpl.
  rewrite precision_wf, precision_size. lia.
Qed.

Lemma range_bound : Forall (fun i => (i < n)%nat) (seq 0 n).
Proof. apply Forall_forall. intros i Hi. apply in_seq in Hi. lia. Qed.

(** Every unit symmetric positive definite: the call returns, and the
    shape of the samples is that of [n] x [p] x [n_samples] squeezed. *)
Lemma sample_succeeds :
  (0 <= n_samples)%Z ->
  (forall i, (i < n)%nat ->
     symmetric (unit_precision n p precision i)
     /\ positive_definite p (unit_precision n p precision i)) ->
  exists samples g',
    sample_coef_posterior mean precision n_samples g = Ok (samples, g')
    /\ shape samples
       = filter (fun d => negb (Nat.eqb d 1)) [n; p; Z.to_nat n_samples].
Proof.
  intros Hk Hpd. rewrite sample_unfold, np_zeros_ok by exact Hk. cbn [bind].
  destruct (@for_range_succeeds (atleast_2d mean)
              (mk_ndarray [n; p; p] (data precision)) n p (Z.to_nat n_samples)
              mean_units eq_refl reshaped_wf (seq 0 n)
              (mk_ndarray [n; p; Z.to_nat n_samples]
                 (repeat 0 (product [n; p; Z.to_nat n_samples]))) g)
    as (samples & g' & Hloop & Hshape).
  - apply Forall_forall. intros i Hi. apply in_seq in Hi.
    split; [lia|]. destruct (Hpd i ltac:(lia)) as [Hsym Hp].
    destruct (@cholesky_complete p (unit_precision n p precision i)) as [L HL]; auto.
    + apply (@unit_square (mk_ndarray [n; p; p] (data precision)) n p
               eq_refl reshaped_wf). lia.
    + unfold unit_precision in HL. rewrite HL. discriminate.
  - reflexivity.
  - rewrite Hloop. cbn [bind]. exists (squeeze samples), g'.
    split; [reflexivity|]. unfold squeeze; simpl shape. rewrite Hshape.
    reflexivity.
Qed.

(** Some unit symmetric and not positive definite: the call raises. *)
Lemma sample_raises :
  (0 <= n_samples)%Z ->
  (exists i, (i < n)%nat
     /\ symmetric (unit_precision n p precision i)
     /\ ~ positive_definite p (unit_precision n p precision i)) ->
  sample_coef_posterior mean precision n_samples g
  = Raise (LinAlgError Matrix_is_not_positive_definite).
Proof.
  intros Hk (i & Hi & Hsym & Hnpd).
  rewrite sample_unfold, np_zeros_ok by exact Hk. cbn [bind].
  rewrite (@for_range_raises (atleast_2d mean)
             (mk_ndarray [n; p; p] (data precision)) n p (Z.to_nat n_samples)
             mean_units eq_refl reshaped_wf).
  - reflexivity.
  - apply range_bound.
  - apply Exists_exists. exists i. split; [apply in_seq; lia|].
    fold (unit_precision n p precision i).
    destruct (cholesky_rows p (unit_precision n p precision i)) as [L|] eqn:HL;
      auto.
    exfalso. apply Hnpd.
    apply (@cholesky_positive_definite p _ L); auto.
    apply (@unit_square (mk_ndarray [n; p; p] (data precision)) n p
             eq_refl reshaped_wf). exact Hi.
  - reflexivity.
Qed.

End Sample.

(** ** Small matrices used as examples *)

(** The 1 x 1 precision [[1]] is symmetric positive definite. *)
Lemma one_by_one_spd i :
  (i < 1)%nat ->
  symmetric (unit_precision 1 1 (mk_ndarray [1%nat; 1%nat] [1]) i)
  /\ positive_definite 1 (unit_precision 1 1 (mk_ndarray [1%nat; 1%nat] [1]) i).
Proof.
  intro Hi. assert (i = 0%nat) by lia. subst i.
  change (unit_precision 1 1 (mk_ndarray [1%nat; 1%nat] [1]) 0) with [[1]].
  split.
  - intros [|i] [|j]; simpl; auto.
    + destruct j; reflexivity.
    + destruct i; reflexivity.
    + destruct i, j; reflexivity.
  - intros x Hx Hnz. destruct x as [|x1 [|]]; try discriminate.
    unfold quad; simpl.
    assert (x1 <> 0) by (intro E; apply Hnz; subst; reflexivity).
    nra.
Qed.

(** The symmetric matrix [[1, 2], [2, 1]] is not positive definite. *)
Lemma indefinite_2x2 :
  let P := unit_precision 1 2 (mk_ndarray [2%nat; 2%nat] [1; 2; 2; 1]) 0 in
  symmetric P /\ ~ positive_definite 2 P.
Proof.
  change (unit_precision 1 2 (mk_ndarray [2%nat; 2%nat] [1; 2; 2; 1]) 0)
    with [[1; 2]; [2; 1]].
  split.
  - intros i j.
    destruct i as [|[|i]], j as [|[|j]]; simpl; auto;
      try (destruct i; reflexivity); try (destruct j; reflexivity).
    destruct i, j; reflexivity.
  - intro H. specialize (H [1; -1] eq_refl).
    unfold quad, zeros in H; simpl in H.
    assert (0 < 1 * (1 * 1 + (2 * -1 + 0)) + (-1 * (2 * 1 + (1 * -1 + 0)) + 0)).
    { apply H. intro E. injection E as E _. lra. }
    lra.
Qed.

(** C6, amended.  In exact arithmetic, when the precision of some unit is
    symmetric and not positive definite, [sample_coef_posterior] raises
    [LinAlgError: Matrix is not positive definite] and returns no
    samples. *)
Theorem C6_not_positive_definite_raises mean precision n p n_samples g :
  shape (atleast_2d mean) = [n; p] ->
  wf precision -> size precision = (n * (p * p))%nat ->
  (0 <= n_samples)%Z ->
  (exists i, (i < n)%nat
     /\ symmetric (unit_precision n p precision i)
     /\ ~ positive_definite p (unit_precision n p precision i)) ->
  sample_coef_posterior mean precision n_samples g
  = Raise (LinAlgError Matrix_is_not_positive_definite).
Proof. apply sample_raises. Qed.

Lemma C6_not_positive_definite_raises_witness :
  sample_coef_posterior (mk_ndarray [2%nat] [0; 0])
    (mk_ndarray [2%nat; 2%nat] [1; 2; 2; 1]) 3 zero_rng
  = Raise (LinAlgError Matrix_is_not_positive_definite).
Proof.
  apply (@C6_not_positive_definite_raises _ _ 1%nat 2%nat).
  - reflexivity.
  - reflexivity.
  - reflexivity.
  - lia.
  - exists 0%nat. split; [lia | exact indefinite_2x2].
Defined.

(** C7, amended.  A negative [n_samples] makes the call raise
    [ValueError] when the array of samples is allocated; [n_samples = 0]
    is accepted, and the call returns an empty array. *)
Theorem C7_nonpositive_n_samples mean precision n p n_samples g :
  shape (atleast_2d mean) = [n; p] ->
  wf precision -> size precision = (n * (p * p))%nat ->
  (forall i, (i < n)%nat ->
     symmetric (unit_precision n p precision i)
     /\ positive_definite p (unit_precision n p precision i)) ->
  ((n_samples < 0)%Z ->
   sample_coef_posterior mean precision n_samples g
   = Raise (ValueError negative_dimensions))
  /\ (n_samples = 0%Z ->
      exists samples g',
        sample_coef_posterior mean precision n_samples g = Ok (samples, g')
        /\ shape samples = filter (fun d => negb (Nat.eqb d 1)) [n; p; 0%nat]).
Proof.
  intros Hm Hwf Hsize Hpd. split.
  - intro Hneg. rewrite (@sample_unfold mean precision n p); auto.
    rewrite np_zeros_negative by exact Hneg. reflexivity.
  - intro H0. subst n_samples.
    apply (@sample_succeeds mean precision n p 0%Z g); auto. lia.
Qed.

Lemma C7_nonpositive_n_samples_witness :
  sample_coef_posterior (mk_ndarray [1%nat] [0])
    (mk_ndarray [1%nat; 1%nat] [1]) (-1) zero_rng
  = Raise (ValueError negative_dimensions)
  /\ exists samples g',
       sample_coef_posterior (mk_ndarray [1%nat] [0])
         (mk_ndarray [1%nat; 1%nat] [1]) 0 zero_rng = Ok (samples, g')
       /\ shape samples
          = filter (fun d => negb (Nat.eqb d 1)) [1%nat; 1%nat; 0%nat].
Proof.
  split.
  - apply (proj1 (@C7_nonpositive_n_samples (mk_ndarray [1%nat] [0])
                    (mk_ndarray [1%nat; 1%nat] [1]) 1%nat 1%nat (-1) zero_rng
                    eq_refl eq_refl eq_refl one_by_one_spd)).
    lia.
  - apply (proj2 (@C7_nonpositive_n_samples (mk_ndarray [1%nat] [0])
                    (mk_ndarray [1%nat; 1%nat] [1]) 1%nat 1%nat 0 zero_rng
                    eq_refl eq_refl eq_refl one_by_one_spd)).
    reflexivity.
Defined.

(** C7 as stated fails at [n_samples = 0]: the call raises nothing. *)
Lemma C7_zero_samples_counterexample :
  exists samples g',
    sample_coef_posterior (mk_ndarray [1%nat] [0])
      (mk_ndarray [1%nat; 1%nat] [1]) 0 zero_rng = Ok (samples, g')
    /\ shape samples = [0%nat].
Proof.
  destruct (@sample_succeeds (mk_ndarray [1%nat] [0])
              (mk_ndarray [1%nat; 1%nat] [1]) 1%nat 1%nat 0%Z zero_rng
              eq_refl eq_refl eq_refl ltac:(lia) one_by_one_spd)
    as (samples & g' & H & Hs).
  exists samples, g'. split; [exact H | exact Hs].
Qed.

(** C9, amended.  A single-unit call with [n_samples = 1] and a positive
    definite precision returns an array with one axis of length [n_coefs]
    when [n_coefs] is not 1, and an array without axes when [n_coefs = 1]:
    the squeeze removes every axis of length one. *)
Theorem C9_single_sample_shape mean precision p g :
  shape mean = [p] -> wf precision -> size precision = (p * p)%nat ->
  symmetric (unit_precision 1 p precision 0) ->
  positive_definite p (unit_precision 1 p precision 0) ->
  exists samples g',
    sample_coef_posterior mean precision 1 g = Ok (samples, g')
    /\ shape samples = if Nat.eqb p 1 then [] else [p].
Proof.
  intros Hm Hwf Hsize Hsym Hpd.
  destruct (@sample_succeeds mean precision 1%nat p 1%Z g)
    as (samples & g' & H & Hs); auto.
  - unfold atleast_2d. rewrite Hm. reflexivity.
  - rewrite Hsize. lia.
  - lia.
  - intros i Hi. assert (i = 0%nat) by lia. subst i. split; assumption.
  - exists samples, g'. split; [exact H|]. rewrite Hs.
    simpl. destruct (Nat.eqb p 1); reflexivity.
Qed.

Lemma C9_single_sample_shape_witness :
  exists samples g',
    sample_coef_posterior (mk_ndarray [1%nat] [0])
      (mk_ndarray [1%nat; 1%nat] [1]) 1 zero_rng = Ok (samples, g')
    /\ shape samples = if Nat.eqb 1 1 then [] else [1%nat].
Proof.
  apply (@C9_single_sample_shape _ _ 1%nat).
  - reflexivity.
  - reflexivity.
  - reflexivity.
  - apply one_by_one_spd. lia.
  - apply one_by_one_spd. lia.
Defined.

(** C9 as stated fails for one coefficient: the result has no axis left,
    it is not an array of one axis of length 1. *)
Lemma C9_one_coefficient_counterexample :
  exists samples g',
    sample_coef_posterior (mk_ndarray [1%nat] [0])
      (mk_ndarray [1%nat; 1%nat] [1]) 1 zero_rng = Ok (samples, g')
    /\ shape samples = [] /\ shape samples <> [1%nat].
Proof.
  destruct (@sample_succeeds (mk_ndarray [1%nat] [0])
              (mk_ndarray [1%nat; 1%nat] [1]) 1%nat 1%nat 1%Z zero_rng
              eq_refl eq_refl eq_refl ltac:(lia) one_by_one_spd)
    as (samples & g' & H & Hs).
  exists samples, g'. split; [exact H|]. simpl in Hs.
  split; [exact Hs | rewrite Hs; discriminate].
Qed.

(** ** The sampler at the precision [[1, 1], [1, 2]] *)

Lemma cholesky_skew_precision :
  linalg_cholesky skew_precision = Ok (mk_matrix 2 [[1; 0]; [1; 1]]).
Proof.
  unfold linalg_cholesky, skew_precision; simpl.
  destruct (Rlt_dec 0 1) as [_|H]; [|exfalso; lra].
  rewrite sqrt_1.
  replace (2 - 1 / 1 * (1 / 1)) with 1 by field.
  destruct (Rlt_dec 0 1) as [_|H]; [|exfalso; lra].
  rewrite sqrt_1. unfold zeros; simpl.
  replace (1 / 1) with 1 by field. reflexivity.
Qed.

Lemma solve_skew_factor :
  linalg_solve (mk_matrix 2 [[1; 0]; [1; 1]]) (mk_matrix 2 [[1; 0]; [0; 1]])
  = Ok (mk_matrix 2 [[1; 0]; [-1; 1]]).
Proof.
  set (a := mk_matrix 2 [[1; 0]; [1; 1]]).
  set (b := mk_matrix 2 [[1; 0]; [0; 1]]).
  assert (Ha : wf_matrix a) by (repeat constructor).
  assert (Hb : wf_matrix b) by (repeat constructor).
  assert (Hns : nonsingular (nrows a) (mrows a)).
  { intros v Hv H. destruct v as [|v1 [|v2 [|]]]; try discriminate.
    simpl in H. apply Forall_cons_iff in H. destruct H as [H1 H].
    apply Forall_cons_iff in H. destruct H as [H2 _].
    simpl in H1, H2. unfold zeros; simpl. repeat (f_equal; try lra). }
  destruct (@linalg_solve_complete a b Ha Hb eq_refl eq_refl Hns) as [X HX].
  rewrite HX. f_equal.
  apply (@linalg_solve_unique a b Ha Hb eq_refl eq_refl [[1; 0]; [-1; 1]] X HX).
  - reflexivity.
  - repeat constructor.
  - cbv [matmul map lc vadd scale zeros repeat zipWith mrows ncols a b].
    repeat (f_equal; try lra).
Qed.

Lemma sample_skew_precision :
  sample_coef_posterior (mk_ndarray [2%nat] [0; 0]) (of_matrix skew_precision)
    2 unit_draws
  = Ok (mk_ndarray [2%nat; 2%nat] [1; 0; -1; 1],
        mk_rng (draws unit_draws) 4).
Proof.
  unfold sample_coef_posterior.
  cbn [atleast_2d shape data unpack2 bind of_matrix skew_precision mrows ncols
       nrows length concat app reshape size product fold_right Nat.mul Nat.eqb
       np_zeros existsb Z.ltb Z.compare Z.of_nat Pos.of_succ_nat Pos.succ orb
       map Z.to_nat Pos.to_nat Pos.iter_op Nat.add repeat seq for_range].
  unfold sample_voxel.
  cbn [randn unit_draws draws position Nat.mul Nat.add seq map Nat.eqb orb].
  change (index3 _ 0) with skew_precision.
  rewrite cholesky_skew_precision. cbn [bind].
  change (to_matrix _) with (mk_matrix 2 [[1; 0]; [0; 1]]).
  rewrite solve_skew_factor. cbn [bind].
  simpl. unfold squeeze. cbn [shape data].
  change (Pos.to_nat 1) with 1%nat. change (Pos.to_nat 2) with 2%nat.
  cbn [filter Nat.eqb negb]. do 3 f_equal. repeat (f_equal; try lra).
Qed.

(** C1.  The transform of the sampler does not produce the target
    covariance.  At the precision [P = [[1, 1], [1, 2]]], whose factor is
    [L = [[1, 0], [1, 1]]], with zero mean and with the identity as the
    matrix of standard normal draws, the call returns
    [T = [[1, 0], [-1, 1]]], the inverse of [L]: the columns of the samples
    are [T z].  Their covariance is [T T^T], and [T T^T P] is not the
    identity, whereas the inverse of the precision is
    [[2, -1], [-1, 1]]]. *)
Theorem C1_sampler_covariance_mismatch :
  exists samples g',
    sample_coef_posterior (mk_ndarray [2%nat] [0; 0])
      (of_matrix skew_precision) 2 unit_draws = Ok (samples, g')
    /\ to_matrix samples = mk_matrix 2 [[1; 0]; [-1; 1]]
    /\ (let T := mrows (to_matrix samples) in
        matmul 2 (matmul 2 T (transpose 2 T)) (mrows skew_precision)
        <> eye_rows 2)
    /\ matmul 2 [[2; -1]; [-1; 1]] (mrows skew_precision) = eye_rows 2.
Proof.
  eexists. eexists. split; [exact sample_skew_precision|].
  split; [reflexivity|]. split.
  - cbv [to_matrix shape data mrows chunks slice map seq firstn skipn Nat.mul
         Nat.add matmul transpose hd tl lc vadd scale zeros repeat zipWith
         skew_precision eye_rows Nat.eqb].
    intro H. injection H as H _. lra.
  - cbv [matmul map lc vadd scale zeros repeat zipWith skew_precision mrows
         eye_rows seq Nat.eqb].
    repeat (f_equal; try lra).
Qed.

(** ** One observation vector, plain or as a batch of one *)

Lemma sample_atleast_2d (m m' : ndarray R) P n_samples g :
  atleast_2d m = atleast_2d m' ->
  sample_coef_posterior m P n_samples g = sample_coef_posterior m' P n_samples g.
Proof. intro H. unfold sample_coef_posterior. rewrite H. reflexivity. Qed.

Lemma squeeze_idem {A} (a : ndarray A) : squeeze (squeeze a) = squeeze a.
Proof.
  unfold squeeze. cbn [shape data]. f_equal.
  induction (shape a) as [|x l IH]; [reflexivity|].
  cbn [filter]. destruct (negb (Nat.eqb x 1)) eqn:E; cbn [filter];
    rewrite ?E, IH; reflexivity.
Qed.

Section Batch_of_one.

Variables (D U : matrix) (X : list vec) (d : vec).

Let m := nrows D.
Let p := ncols D.
Let y1 := mk_ndarray [m] d.
Let yb := mk_ndarray [1%nat; m] d.

Lemma batch_of_one_mean :
  exists dm, posterior_mean D X yb [1%nat] = mk_ndarray [1%nat; p] dm
             /\ posterior_mean D X y1 [] = mk_ndarray [p] dm.
Proof. eexists. split; reflexivity. Qed.

Lemma batch_of_one_variance :
  exists r, posterior_variance D X yb [1%nat] = mk_ndarray [1%nat] [r]
            /\ posterior_variance D X y1 [] = mk_ndarray [] [r].
Proof. eexists. split; reflexivity. Qed.

Hypothesis U_wf : wf_matrix U.
Hypothesis U_square : nrows U = ncols U.
Hypothesis U_cols : ncols U = p.

Lemma batch_of_one_outputs flag :
  exists o1 ob,
    (if negb flag
     then Ok (Mean_Variance (posterior_mean D X y1 []) (posterior_variance D X y1 []))
     else pls_tail U (posterior_mean D X y1 []) (posterior_variance D X y1 []))
    = Ok o1
    /\ (if negb flag
        then Ok (Mean_Variance (posterior_mean D X yb [1%nat])
                   (posterior_variance D X yb [1%nat]))
        else pls_tail U (posterior_mean D X yb [1%nat])
               (posterior_variance D X yb [1%nat]))
       = Ok ob
    /\ squeeze_output ob = squeeze_output o1
    /\ atleast_2d (mean_of ob) = atleast_2d (mean_of o1)
    /\ (flag = true -> forall n_samples g,
          sample_from n_samples g ob = sample_from n_samples g o1)
    /\ (forall n_samples g,
          sample_from_extended n_samples g ob
          = sample_from_extended n_samples g o1)
    /\ (flag = true \/ p <> 1%nat -> squeeze_output o1 = o1)
    /\ (flag = false -> shape (mean_of o1) = [p]).
Proof.
  destruct batch_of_one_mean as (dm & Hmb & Hm1).
  destruct batch_of_one_variance as (r & Hvb & Hv1).
  rewrite Hmb, Hm1, Hvb, Hv1.
  destruct flag; cbn [negb].
  - rewrite (@pls_tail_single U dm (mk_ndarray [p] dm) (mk_ndarray [] [r]) r 0%nat);
      auto; [|rewrite U_cols; reflexivity].
    rewrite (@pls_tail_single U dm (mk_ndarray [1%nat; p] dm)
               (mk_ndarray [1%nat] [r]) r 1%nat);
      auto; [|rewrite U_cols; reflexivity].
    eexists. eexists. split; [reflexivity|]. split; [reflexivity|].
    split; [reflexivity|]. split; [reflexivity|].
    split; [intros _ n_samples g; reflexivity|].
    split; [reflexivity|]. split.
    + intros _. cbn [squeeze_output]. rewrite !squeeze_idem. reflexivity.
    + discriminate.
  - eexists. eexists. split; [reflexivity|]. split; [reflexivity|].
    split; [reflexivity|]. split; [reflexivity|]. split; [discriminate|].
    split; [reflexivity|]. split; [|reflexivity].
    intros [H|H]; [discriminate|].
    unfold squeeze_output, squeeze. cbn [shape data filter].
    apply Nat.eqb_neq in H. rewrite H. reflexivity.
Qed.

End Batch_of_one.

(** The two calls raise the same exception, or return outputs that agree
    once squeezed. *)
Lemma pls_batch_of_one_cases D d reg flag :
  wf_matrix D -> regularization_ok D reg -> length d = nrows D ->
  let y1 := mk_ndarray [nrows D] d in
  let yb := mk_ndarray [1%nat; nrows D] d in
  (exists e, probabilistic_least_squares D yb reg flag = Raise e
             /\ probabilistic_least_squares D y1 reg flag = Raise e)
  \/ (exists o1 ob,
        probabilistic_least_squares D y1 reg flag = Ok o1
        /\ probabilistic_least_squares D yb reg flag = Ok ob
        /\ squeeze_output ob = squeeze_output o1
        /\ atleast_2d (mean_of ob) = atleast_2d (mean_of o1)
        /\ (flag = true -> forall n_samples g,
              sample_from n_samples g ob = sample_from n_samples g o1)
        /\ (forall n_samples g,
          sample_from_extended n_samples g ob
          = sample_from_extended n_samples g o1)
        /\ (flag = true \/ ncols D <> 1%nat -> squeeze_output o1 = o1)
        /\ (flag = false -> shape (mean_of o1) = [ncols D])).
Proof.
  intros HD Hreg Hd y1 yb.
  assert (Hy1 : wf y1) by (unfold wf, y1; simpl; lia).
  assert (Hyb : wf yb) by (unfold wf, yb; simpl; lia).
  destruct (@pls_eval D y1 reg flag [] HD Hreg eq_refl Hy1)
    as (U & HU & Uwf & Un & Uc & Heq1).
  destruct (@pls_eval D yb reg flag [1%nat] HD Hreg eq_refl Hyb)
    as (U' & HU' & _ & _ & _ & Heqb).
  assert (U' = U) by congruence. subst U'.
  rewrite Heq1, Heqb.
  destruct (linalg_solve U (swapaxes D)) as [P|e]; cbn [bind].
  - right.
    destruct (@batch_of_one_outputs D U (mrows P) d Uwf ltac:(congruence) Uc flag)
      as (o1 & ob & H1 & Hb & Hrest).
    exists o1, ob. split; [exact H1|]. split; [exact Hb | exact Hrest].
  - left. exists e. split; reflexivity.
Qed.

(** The sampler reads its arguments through its first three lines only. *)
Lemma sample_coef_posterior_reads (m m' P P' : ndarray R) n_samples g :
  sampler_arguments m P = sampler_arguments m' P' ->
  sample_coef_posterior m P n_samples g
  = sample_coef_posterior m' P' n_samples g.
Proof.
  unfold sampler_arguments, sample_coef_posterior, unpack2, reshape.
  destruct (shape (atleast_2d m)) as [|n [|q [|]]];
    destruct (shape (atleast_2d m')) as [|n' [|q' [|]]];
    cbn [bind];
    repeat match goal with
           | |- context [if ?b then _ else _] => destruct b
           end;
    cbn [bind]; intro H; try discriminate H; try reflexivity.
  injection H as Hm Hn Hq _ HP. subst n' q'. rewrite Hm, HP. reflexivity.
Qed.

(** So it does over any arithmetic, with infinite or NaN elements as
    well. *)
Lemma numeric_sample_coef_posterior_reads {F} {ar : Numeric.Arithmetic F}
    (m m' P P' : ndarray F) n_samples g :
  sampler_arguments m P = sampler_arguments m' P' ->
  Numeric.sample_coef_posterior m P n_samples g
  = Numeric.sample_coef_posterior m' P' n_samples g.
Proof.
  unfold sampler_arguments, Numeric.sample_coef_posterior, unpack2, reshape.
  destruct (shape (atleast_2d m)) as [|n [|q [|]]];
    destruct (shape (atleast_2d m')) as [|n' [|q' [|]]];
    cbn [bind];
    repeat match goal with
           | |- context [if ?b then _ else _] => destruct b
           end;
    cbn [bind]; intro H; try discriminate H; try reflexivity.
  injection H as Hm Hn Hq _ HP. subst n' q'. rewrite Hm, HP. reflexivity.
Qed.

(** C8, amended.  Calling [probabilistic_least_squares] on one observation
    vector given as a batch of one raises what the plain call raises, or
    returns outputs that agree with those of the plain call once both are
    squeezed, and with the outputs of the plain call as they are when the
    posterior precision is asked for or the design has more than one
    coefficient.  [sample_coef_posterior] returns the same samples from the
    mean of either output, and from the mean and precision of either
    output: over the reals when the precision is finite, and over the
    extended reals whatever the precision holds. *)
Theorem C8_batch_of_one D d reg flag :
  wf_matrix D -> regularization_ok D reg -> length d = nrows D ->
  let y1 := mk_ndarray [nrows D] d in
  let yb := mk_ndarray [1%nat; nrows D] d in
  result_map squeeze_output (probabilistic_least_squares D yb reg flag)
  = result_map squeeze_output (probabilistic_least_squares D y1 reg flag)
  /\ (flag = true \/ ncols D <> 1%nat ->
      result_map squeeze_output (probabilistic_least_squares D yb reg flag)
      = probabilistic_least_squares D y1 reg flag)
  /\ (forall precision n_samples g,
        result_map (fun o => sample_coef_posterior (mean_of o) precision n_samples g)
          (probabilistic_least_squares D yb reg flag)
        = result_map (fun o => sample_coef_posterior (mean_of o) precision n_samples g)
            (probabilistic_least_squares D y1 reg flag))
  /\ (forall n_samples g,
        result_map (sample_from n_samples g)
          (probabilistic_least_squares D yb reg true)
        = result_map (sample_from n_samples g)
            (probabilistic_least_squares D y1 reg true))
  /\ (forall n_samples g,
        result_map (sample_from_extended n_samples g)
          (probabilistic_least_squares D yb reg true)
        = result_map (sample_from_extended n_samples g)
            (probabilistic_least_squares D y1 reg true)).
Proof.
  intros HD Hreg Hd. cbv zeta.
  destruct (@pls_batch_of_one_cases D d reg flag HD Hreg Hd)
    as [(e & Hb & H1) | (o1 & ob & H1 & Hb & Hsq & Hm & _ & _ & Hplain & _)];
  destruct (@pls_batch_of_one_cases D d reg true HD Hreg Hd)
    as [(e' & Hb' & H1') | (o1' & ob' & H1' & Hb' & _ & _ & Hs & Ha & _)];
  rewrite ?H1, ?Hb, ?H1', ?Hb'; cbn [result_map];
  repeat split; intros; try reflexivity;
  try (f_equal; first [exact Hsq | apply sample_atleast_2d; exact Hm
                       | apply Hs; reflexivity | apply Ha
                       | rewrite Hsq; apply Hplain; assumption]).
Qed.

Lemma C8_batch_of_one_witness :
  let y1 := mk_ndarray [3%nat] [1; 3; 6] in
  let yb := mk_ndarray [1%nat; 3%nat] [1; 3; 6] in
  result_map squeeze_output (probabilistic_least_squares test_design yb None true)
  = result_map squeeze_output (probabilistic_least_squares test_design y1 None true)
  /\ result_map squeeze_output (probabilistic_least_squares test_design yb None true)
     = probabilistic_least_squares test_design y1 None true
  /\ (forall precision n_samples g,
        result_map (fun o => sample_coef_posterior (mean_of o) precision n_samples g)
          (probabilistic_least_squares test_design yb None true)
        = result_map (fun o => sample_coef_posterior (mean_of o) precision n_samples g)
            (probabilistic_least_squares test_design y1 None true))
  /\ (forall n_samples g,
        result_map (sample_from n_samples g)
          (probabilistic_least_squares test_design yb None true)
        = result_map (sample_from n_samples g)
            (probabilistic_least_squares test_design y1 None true))
  /\ (forall n_samples g,
        result_map (sample_from_extended n_samples g)
          (probabilistic_least_squares test_design yb None true)
        = result_map (sample_from_extended n_samples g)
            (probabilistic_least_squares test_design y1 None true)).
Proof.
  destruct (@C8_batch_of_one test_design [1; 3; 6] None true
              test_design_wf I eq_refl) as (H1 & H2 & H3 & H4 & H5).
  split; [exact H1|]. split; [exact (H2 (or_introl eq_refl))|].
  split; [exact H3|]. split; [exact H4 | exact H5].
Defined.

(** C8 as stated fails with one coefficient when the precision is not
    asked for: the plain call on the design [[1], [1]] returns a mean of
    shape (1,), which is not squeezed, and the squeezed mean of the batch
    of one has shape (). *)
Lemma C8_one_coefficient_counterexample :
  let D := mk_matrix 1 [[1]; [1]] in
  let y1 := mk_ndarray [2%nat] [2; 2] in
  let yb := mk_ndarray [1%nat; 2%nat] [2; 2] in
  exists o1 ob,
    probabilistic_least_squares D y1 None false = Ok o1
    /\ result_map squeeze_output (probabilistic_least_squares D yb None false)
       = Ok ob
    /\ shape (mean_of o1) = [1%nat]
    /\ shape (mean_of ob) = []
    /\ ob <> o1.
Proof.
  intros D y1 yb.
  assert (HD : wf_matrix D) by (repeat constructor).
  destruct (@pls_batch_of_one_cases D [2; 2] None false HD I eq_refl)
    as [(e & Hb & H1) | (o1 & ob & H1 & Hb & Hsq & _ & _ & _ & _ & Hshape)].
  - exfalso.
    assert (Hfull : full_column_rank D).
    { intros c Hc H. destruct c as [|c1 [|]]; try discriminate.
      simpl in H. injection H as H _. unfold zeros; simpl.
      repeat (f_equal; try lra). }
    destruct (@pls_eval D y1 None false [] HD I eq_refl eq_refl)
      as (U & HU & _ & _ & _ & Heq).
    cbn [pls_precision] in HU. injection HU as <-.
    destruct (pls_solve_full_rank HD Hfull) as (X & HX & _).
    rewrite HX in Heq. cbn [bind negb] in Heq. cbv zeta in Heq.
    change (probabilistic_least_squares D y1 None false = Raise e) in H1.
    congruence.
  - exists o1, (squeeze_output ob).
    change (probabilistic_least_squares D y1 None false = Ok o1) in H1.
    change (probabilistic_least_squares D yb None false = Ok ob) in Hb.
    rewrite Hb. split; [exact H1|]. split; [reflexivity|].
    specialize (Hshape eq_refl). split; [exact Hshape|].
    assert (Hs : shape (mean_of (squeeze_output ob)) = []).
    { rewrite Hsq. destruct o1 as [m v|m v q]; cbn [mean_of] in Hshape;
        cbn [squeeze_output mean_of squeeze shape]; rewrite Hshape;
        reflexivity. }
    split; [exact Hs|].
    intro E. rewrite E in Hs. rewrite Hshape in Hs. discriminate.
Qed.

(** ** Frame rules *)

Lemma preserves_refl L s : Store.preserves L s s.
Proof. split; auto. Qed.

Lemma preserves_trans L s1 s2 s3 :
  Store.preserves L s1 s2 -> Store.preserves L s2 s3 -> Store.preserves L s1 s3.
Proof. intros [H1 H2] [H3 H4]. split; [congruence | lia]. Qed.

Lemma framed_ret {A} L (Q : A -> Prop) a : Q a -> Store.framed L Q (Store.ret a).
Proof.
  intros HQ s a' s' _ H. unfold Store.ret in H. inversion H; subst.
  split; [apply preserves_refl | exact HQ].
Qed.

Lemma framed_bind {A B} L (Q : A -> Prop) (Q' : B -> Prop) m k :
  Store.framed L Q m -> (forall a, Q a -> Store.framed L Q' (k a)) ->
  Store.framed L Q' (Store.mbind m k).
Proof.
  intros Hm Hk s b s' HL H. unfold Store.mbind in H.
  destruct (m s) as [[a s1]|e] eqn:E; [|discriminate].
  destruct (Hm s a s1 HL E) as [Hp HQ].
  destruct (Hk a HQ s1 b s') as [Hp' HQ']; auto.
  - destruct Hp. lia.
  - split; [eapply preserves_trans; eauto | exact HQ'].
Qed.

Lemma framed_weaken {A} L (Q Q' : A -> Prop) m :
  Store.framed L Q m -> (forall a, Q a -> Q' a) -> Store.framed L Q' m.
Proof.
  intros Hm HQ s a s' HL H. destruct (Hm s a s' HL H). split; auto.
Qed.

Lemma framed_lift {A} L (r : result A) : Store.framed L Store.any (Store.lift r).
Proof.
  intros s a s' _ H. unfold Store.lift in H. destruct r; inversion H; subst.
  split; [apply preserves_refl | exact I].
Qed.

Lemma framed_read {V} L (r : Store.ref V) : Store.framed L Store.any (Store.read r).
Proof.
  intros s a s' _ H. unfold Store.read in H. inversion H; subst.
  split; [apply preserves_refl | exact I].
Qed.

Lemma framed_new_buffer {V} L b (g : Store.buffer -> V) :
  Store.framed L (Store.fresh L) (Store.new_buffer b g).
Proof.
  intros s a s' HL H. unfold Store.new_buffer in H. inversion H; subst.
  split; [split|]; unfold Store.extend; simpl.
  - rewrite firstn_app. replace (L - length (Store.heap s))%nat with 0%nat by lia.
    simpl. apply app_nil_r.
  - rewrite length_app. lia.
  - exact HL.
Qed.

Lemma overwrite_prefix {A} L b (h : list A) x :
  (L <= b)%nat -> (L <= length h)%nat ->
  firstn L (firstn b h ++ x :: skipn (S b) h) = firstn L h.
Proof.
  intros HL Hh. rewrite firstn_app, firstn_firstn.
  replace (Nat.min L b) with L by lia.
  rewrite length_firstn.
  replace (L - Nat.min b (length h))%nat with 0%nat by lia.
  simpl. apply app_nil_r.
Qed.

Lemma overwrite_length {A} b (h : list A) x :
  (length h <= length (firstn b h ++ x :: skipn (S b) h))%nat.
Proof.
  rewrite length_app, length_firstn. cbn [length].
  rewrite length_skipn. lia.
Qed.

(** Writing a buffer allocated after the first [L] preserves them. *)
Lemma framed_write L (r : Store.ref (ndarray R)) d :
  Store.fresh L r -> Store.framed L Store.any (Store.write r d).
Proof.
  intros Hr s a s' HL H. unfold Store.write in H. injection H as <- <-.
  unfold Store.fresh in Hr. split; [split|exact I].
  - apply overwrite_prefix; assumption.
  - apply overwrite_length.
Qed.

Lemma framed_alloc L a : Store.framed L (Store.fresh L) (Store.alloc a).
Proof. apply framed_new_buffer. Qed.

Lemma framed_alloc_float L a :
  Store.framed L (Store.fresh L) (Store.alloc_float a).
Proof. apply framed_new_buffer. Qed.

Lemma framed_alloc_matrix L a :
  Store.framed L (Store.fresh L) (Store.alloc_matrix a).
Proof. apply framed_new_buffer. Qed.

Lemma framed_call1 {A B} L (new : B -> Store.M (Store.ref B)) (f : A -> result B) r :
  (forall b, Store.framed L (Store.fresh L) (new b)) ->
  Store.framed L (Store.fresh L) (Store.call1 new f r).
Proof.
  intro Hnew. unfold Store.call1.
  eapply framed_bind; [apply framed_read | intros a _].
  eapply framed_bind; [apply framed_lift | intros b _]. apply Hnew.
Qed.

Lemma framed_call2 {A B C} L (new : C -> Store.M (Store.ref C))
    (f : A -> B -> result C) r1 r2 :
  (forall c, Store.framed L (Store.fresh L) (new c)) ->
  Store.framed L (Store.fresh L) (Store.call2 new f r1 r2).
Proof.
  intro Hnew. unfold Store.call2.
  eapply framed_bind; [apply framed_read | intros a _].
  eapply framed_bind; [apply framed_read | intros b _].
  eapply framed_bind; [apply framed_lift | intros c _]. apply Hnew.
Qed.

Lemma framed_call_shape L r : Store.framed L Store.any (Store.call_shape r).
Proof.
  unfold Store.call_shape.
  eapply framed_bind; [apply framed_read | intros a _]. apply framed_lift.
Qed.

Lemma framed_reshape_view {A} L (r : Store.ref (ndarray A)) s :
  Store.framed L (fun r' => Store.buf r' = Store.buf r) (Store.reshape_view r s).
Proof.
  unfold Store.reshape_view.
  eapply framed_bind; [apply framed_read | intros a _].
  eapply framed_bind; [apply framed_lift | intros b _].
  apply framed_ret. reflexivity.
Qed.

Lemma framed_new_zeros L dims :
  Store.framed L (Store.fresh L) (Store.new_zeros dims).
Proof.
  unfold Store.new_zeros.
  eapply framed_bind; [apply framed_lift | intros z _]. apply framed_alloc.
Qed.

Lemma framed_randn_new L n k :
  Store.framed L (Store.fresh L) (Store.randn_new n k).
Proof.
  intros s a s' HL H. unfold Store.randn_new in H.
  destruct (randn (Store.generator s) n k) as [z g].
  apply (@framed_alloc L z (Store.mk_state (Store.heap s) g) a s' HL H).
Qed.

Lemma framed_setitem3_write L a i v :
  Store.fresh L a -> Store.framed L Store.any (Store.setitem3_write a i v).
Proof.
  intro Ha. unfold Store.setitem3_write.
  eapply framed_bind; [apply framed_read | intros x _].
  eapply framed_bind; [apply framed_read | intros y _].
  eapply framed_bind; [apply framed_lift | intros x' _].
  apply framed_write. exact Ha.
Qed.

Lemma framed_for_each L body range :
  (forall i, Store.framed L Store.any (body i)) ->
  Store.framed L Store.any (Store.for_each body range).
Proof.
  intro Hbody. induction range as [|i range IH]; simpl.
  - apply framed_ret. exact I.
  - eapply framed_bind; [apply Hbody | intros _ _; exact IH].
Qed.

Create HintDb frame.
#[local] Hint Resolve framed_alloc framed_alloc_float framed_alloc_matrix
  framed_call1 framed_call2 framed_call_shape framed_reshape_view
  framed_new_zeros framed_randn_new framed_lift framed_read : frame.

(** One more call of the source, then the rest. *)
Ltac frame_call :=
  eapply framed_bind; [solve [eauto with frame] | intros ? ?].

Lemma framed_sample_voxel L mean precision n_coefs n_samples samples i :
  Store.fresh L samples ->
  Store.framed L Store.any
    (Store.sample_voxel mean precision n_coefs n_samples samples i).
Proof.
  intro Hs. unfold Store.sample_voxel.
  do 4 frame_call. apply framed_setitem3_write. exact Hs.
Qed.

(** [sample_coef_posterior] writes no buffer that existed before the
    call, and the array it returns is in a buffer of its own. *)
Lemma framed_sample_coef_posterior L mean precision n_samples :
  Store.framed L (Store.fresh L)
    (Store.sample_coef_posterior mean precision n_samples).
Proof.
  unfold Store.sample_coef_posterior.
  eapply framed_bind; [apply framed_call_shape | intros [n_voxels n_coefs] _].
  frame_call.
  eapply framed_bind; [apply framed_new_zeros | intros samples Hs].
  eapply framed_bind.
  - apply framed_for_each. intro i. apply framed_sample_voxel. exact Hs.
  - intros _ _. apply framed_ret. exact Hs.
Qed.

(** [probabilistic_least_squares] writes no buffer that existed before the
    call, and the arrays it returns are in buffers of their own. *)
Lemma framed_probabilistic_least_squares L design_matrix y regularization_matrix flag :
  Store.framed L (Store.fresh_outputs L)
    (Store.probabilistic_least_squares design_matrix y regularization_matrix flag).
Proof.
  unfold Store.probabilistic_least_squares.
  eapply framed_bind with (Q := Store.any).
  { destruct regularization_matrix as [r|].
    - frame_call. frame_call. apply framed_ret. exact I.
    - eapply framed_weaken; [solve [eauto with frame] | intros; exact I]. }
  intros unscaled _.
  do 12 frame_call.
  destruct flag; cbn [negb].
  - eapply framed_bind;
      [apply framed_call_shape | intros [n_voxels n_coefs] _].
    frame_call.
    eapply framed_bind; [apply framed_reshape_view | intros q Hq].
    apply framed_ret. unfold Store.fresh_outputs, Store.fresh, Store.view in *.
    cbn [Store.buf] in *. rewrite Hq. repeat split; assumption.
  - apply framed_ret. split; assumption.
Qed.

(** The arrays of [s] have the same value in [s'] when the buffers of [s]
    are preserved. *)
Lemma preserves_value {V} s s' (r : Store.ref V) :
  Store.preserves (length (Store.heap s)) s s' ->
  (Store.buf r < length (Store.heap s))%nat ->
  Store.value s' r = Store.value s r.
Proof.
  intros [Hp Hl] Hr. unfold Store.value. f_equal.
  rewrite firstn_all in Hp.
  rewrite <- (firstn_skipn (length (Store.heap s)) (Store.heap s')), Hp.
  apply app_nth1. exact Hr.
Qed.

(** ** The functions over the store compute what the functions on values
    compute *)

Lemma holds_value {V} s (r : Store.ref V) v : holds s r v -> Store.value s r = v.
Proof.
  intros (b & Hb & Hv). unfold Store.value.
  rewrite (nth_error_nth _ _ _ Hb). exact Hv.
Qed.

Lemma holds_bound {V} s (r : Store.ref V) v :
  holds s r v -> (Store.buf r < length (Store.heap s))%nat.
Proof.
  intros (b & Hb & _). apply nth_error_Some. rewrite Hb. discriminate.
Qed.

Lemma holds_view {V W} s (r : Store.ref V) v (f : V -> W) :
  holds s r v -> holds s (Store.view f r) (f v).
Proof.
  intros (b & Hb & Hv). exists b. split; [exact Hb|]. simpl. congruence.
Qed.

Lemma holds_extend {V} s b (r : Store.ref V) v :
  holds s r v -> holds (Store.extend s b) r v.
Proof.
  intros (c & Hc & Hv). exists c. split; [|exact Hv]. simpl.
  rewrite nth_error_app1; [exact Hc|].
  apply nth_error_Some. rewrite Hc. discriminate.
Qed.

Lemma holds_new {V} s b (g : Store.buffer -> V) :
  holds (Store.extend s b) (Store.mk_ref (length (Store.heap s)) g) (g b).
Proof.
  exists b. split; [|reflexivity]. simpl.
  rewrite nth_error_app2, Nat.sub_diag by lia. reflexivity.
Qed.

Lemma holds_update_other {V} s i b (r : Store.ref V) v :
  holds s r v -> Store.buf r <> i -> holds (Store.update s i b) r v.
Proof.
  intros (c & Hc & Hv) Hne. exists c. split; [|exact Hv].
  unfold Store.update; cbn [Store.heap].
  assert (Hlt : (Store.buf r < length (Store.heap s))%nat)
    by (apply nth_error_Some; rewrite Hc; discriminate).
  destruct (Nat.lt_ge_cases (Store.buf r) i) as [Hl|Hg].
  - rewrite nth_error_app1 by (rewrite length_firstn; lia).
    rewrite nth_error_firstn.
    replace (Nat.ltb (Store.buf r) i) with true
      by (symmetry; apply Nat.ltb_lt; exact Hl).
    exact Hc.
  - rewrite nth_error_app2 by (rewrite length_firstn; lia).
    rewrite length_firstn.
    replace (Nat.min i (length (Store.heap s))) with i by lia.
    destruct (Store.buf r - i)%nat as [|j] eqn:E; [lia|].
    cbn [nth_error]. rewrite nth_error_skipn.
    replace (S i + j)%nat with (Store.buf r) by lia. exact Hc.
Qed.

Lemma holds_update_same {V} s i b (g : Store.buffer -> V) :
  (i < length (Store.heap s))%nat ->
  holds (Store.update s i b) (Store.mk_ref i g) (g b).
Proof.
  intro Hi. exists b. split; [|reflexivity].
  unfold Store.update; cbn [Store.heap Store.buf].
  rewrite nth_error_app2 by (rewrite length_firstn; lia).
  rewrite length_firstn.
  replace (i - Nat.min i (length (Store.heap s)))%nat with 0%nat by lia.
  reflexivity.
Qed.

Lemma stable_refl s : stable s s.
Proof. split; [intros W r w H; exact H | reflexivity]. Qed.

Lemma stable_extend s b : stable s (Store.extend s b).
Proof. split; [intros W r w H; apply holds_extend; exact H | reflexivity]. Qed.

Lemma allocator_alloc : allocator Store.alloc.
Proof. exists Store.Reals, Store.reals. split; reflexivity. Qed.

Lemma allocator_alloc_float : allocator Store.alloc_float.
Proof. exists Store.Floats, Store.floats. split; reflexivity. Qed.

Lemma allocator_alloc_matrix : allocator Store.alloc_matrix.
Proof. exists Store.Rows, Store.rows. split; reflexivity. Qed.

Section Refinement_rules.

Context {X V : Type} (rel : Store.state -> X -> V -> Prop).
Variables (s : Store.state) (P : result V).

Lemma refines_ret x v : rel s x v -> refines rel (Store.ret x s) (Ok v).
Proof. intro H. exact H. Qed.

Lemma refines_new {B} (new : B -> Store.M (Store.ref B)) b k :
  allocator new ->
  (forall s', stable s s' -> forall rc, holds s' rc b ->
     refines rel (k rc s') P) ->
  refines rel (Store.mbind (new b) k s) P.
Proof.
  intros (cell & g & Hnew & Hg) Hk. unfold Store.mbind. rewrite Hnew.
  apply Hk; [apply stable_extend|].
  rewrite <- (Hg b) at 2. apply holds_new.
Qed.

Lemma refines_lift {B} (r : result B) k :
  (forall e, r = Raise e -> P = Raise e) ->
  (forall b, r = Ok b -> refines rel (k b s) P) ->
  refines rel (Store.mbind (Store.lift r) k s) P.
Proof.
  intros He Hk. unfold Store.mbind, Store.lift. destruct r as [b|e].
  - apply Hk. reflexivity.
  - rewrite (He e eq_refl). reflexivity.
Qed.

Lemma refines_read {B} (r : Store.ref B) b k :
  holds s r b -> refines rel (k b s) P ->
  refines rel (Store.mbind (Store.read r) k s) P.
Proof.
  intros Hr Hk. unfold Store.mbind, Store.read. cbv beta iota.
  rewrite (holds_value Hr). exact Hk.
Qed.

Lemma refines_call1 {A B} (new : B -> Store.M (Store.ref B))
    (f : A -> result B) r a k :
  allocator new -> holds s r a ->
  (forall e, f a = Raise e -> P = Raise e) ->
  (forall c, f a = Ok c -> forall s', stable s s' ->
     forall rc, holds s' rc c -> refines rel (k rc s') P) ->
  refines rel (Store.mbind (Store.call1 new f r) k s) P.
Proof.
  intros Hnew Hr He Hk.
  cbv beta iota delta [Store.mbind Store.call1 Store.read Store.lift].
  rewrite (holds_value Hr). destruct (f a) as [c|e] eqn:E.
  - apply (@refines_new _ new c k Hnew). apply Hk. reflexivity.
  - rewrite (He e eq_refl). reflexivity.
Qed.

Lemma refines_call2 {A B C} (new : C -> Store.M (Store.ref C))
    (f : A -> B -> result C) r1 r2 a b k :
  allocator new -> holds s r1 a -> holds s r2 b ->
  (forall e, f a b = Raise e -> P = Raise e) ->
  (forall c, f a b = Ok c -> forall s', stable s s' ->
     forall rc, holds s' rc c -> refines rel (k rc s') P) ->
  refines rel (Store.mbind (Store.call2 new f r1 r2) k s) P.
Proof.
  intros Hnew Hr1 Hr2 He Hk.
  cbv beta iota delta [Store.mbind Store.call2 Store.read Store.lift].
  rewrite (holds_value Hr1), (holds_value Hr2).
  destruct (f a b) as [c|e] eqn:E.
  - apply (@refines_new _ new c k Hnew). apply Hk. reflexivity.
  - rewrite (He e eq_refl). reflexivity.
Qed.

Lemma refines_call_shape r a k :
  holds s r a ->
  (forall e, unpack2 a = Raise e -> P = Raise e) ->
  (forall np, unpack2 a = Ok np -> refines rel (k np s) P) ->
  refines rel (Store.mbind (Store.call_shape r) k s) P.
Proof.
  intros Hr He Hk.
  cbv beta iota delta [Store.mbind Store.call_shape Store.read Store.lift].
  rewrite (holds_value Hr). destruct (unpack2 a) as [np|e] eqn:E.
  - apply Hk. reflexivity.
  - rewrite (He e eq_refl). reflexivity.
Qed.

Lemma refines_reshape_view {A} (r : Store.ref (ndarray A)) a sh k :
  holds s r a ->
  (forall e, reshape a sh = Raise e -> P = Raise e) ->
  (forall b, reshape a sh = Ok b -> forall rc, holds s rc b ->
     refines rel (k rc s) P) ->
  refines rel (Store.mbind (Store.reshape_view r sh) k s) P.
Proof.
  intros Hr He Hk.
  cbv beta iota delta [Store.mbind Store.reshape_view Store.read Store.lift
                       Store.ret].
  rewrite (holds_value Hr). destruct (reshape a sh) as [b|e] eqn:E.
  - apply (Hk b eq_refl).
    unfold reshape in E. destruct (Nat.eqb _ _); [|discriminate].
    injection E as <-. apply (holds_view (fun a => mk_ndarray sh (data a)) Hr).
  - rewrite (He e eq_refl). reflexivity.
Qed.

End Refinement_rules.

Lemma mbind_assoc {A B C} (m : Store.M A) (k : A -> Store.M B)
    (k' : B -> Store.M C) s :
  Store.mbind (Store.mbind m k) k' s
  = Store.mbind m (fun a => Store.mbind (k a) k') s.
Proof.
  unfold Store.mbind. destruct (m s) as [[a s1]|e]; reflexivity.
Qed.

Create HintDb refine.
#[local] Hint Resolve allocator_alloc allocator_alloc_float
  allocator_alloc_matrix holds_view : refine.

(** After a call that allocates, what held still holds. *)
Ltac lift_holds s Hst :=
  repeat match goal with
         | H : holds s _ _ |- _ => apply (proj1 Hst) in H
         | H : Store.generator s = _ |- _ => rewrite <- (proj2 Hst) in H
         end.

Ltac refine_rule :=
  match goal with
  | |- refines _ (Store.mbind (Store.call2 _ _ _ _) _ _) _ =>
      eapply refines_call2
  | |- refines _ (Store.mbind (Store.call1 _ _ _) _ _) _ =>
      eapply refines_call1
  end.

Ltac refine_call :=
  refine_rule;
  [ solve [eauto with refine]
  | solve [eauto with refine] ..
  | let e := fresh "e" in let He := fresh "He" in
    intros e He; first [rewrite He; reflexivity | discriminate He]
  | let c := fresh "c" in let Hc := fresh "Hc" in
    let s' := fresh "s" in let Hst := fresh "Hst" in
    let rc := fresh "r" in let Hrc := fresh "Hr" in
    intros c Hc s' Hst rc Hrc;
    first [rewrite Hc | injection Hc as <-]; cbn [bind];
    match type of Hst with stable ?s0 _ => lift_holds s0 Hst end;
    clear Hst ].

Lemma mbind_ret {A B} (a : A) (k : A -> Store.M B) s :
  Store.mbind (Store.ret a) k s = k a s.
Proof. reflexivity. Qed.

Ltac refine_raise :=
  let e := fresh "e" in let He := fresh "He" in
  intros e He; rewrite He; reflexivity.

(** From the call of [np.linalg.solve] to the return. *)
Ltac refine_pls flag :=
  do 12 refine_call; destruct flag; cbn [negb];
  [ eapply refines_call_shape; [solve [eauto with refine] | refine_raise |];
    let n_voxels := fresh "n_voxels" in let n_coefs := fresh "n_coefs" in
    let Hnp := fresh "Hnp" in
    intros [n_voxels n_coefs] Hnp; rewrite Hnp; cbn [bind];
    refine_call;
    eapply refines_reshape_view; [solve [eauto with refine] | refine_raise |];
    let b := fresh "b" in let Hb := fresh "Hb" in
    let rb := fresh "rb" in let Hrb := fresh "Hrb" in
    intros b Hb rb Hrb; rewrite Hb; cbn [bind];
    apply refines_ret; cbn [holds_output]; eauto 6 with refine
  | apply refines_ret; cbn [holds_output]; eauto with refine ].

Theorem pls_refines s design_matrix y regularization_matrix flag d yv regv :
  holds s design_matrix d -> holds s y yv ->
  holds_option s regularization_matrix regv ->
  refines holds_output
    (Store.probabilistic_least_squares design_matrix y regularization_matrix flag s)
    (probabilistic_least_squares d yv regv flag).
Proof.
  intros HD Hy Hreg.
  unfold Store.probabilistic_least_squares, probabilistic_least_squares.
  destruct regularization_matrix as [r|], regv as [rv|];
    try contradiction; cbn [holds_option] in Hreg.
  - rewrite mbind_assoc. refine_call. rewrite mbind_assoc. refine_call.
    rewrite mbind_ret. refine_pls flag.
  - refine_call. refine_pls flag.
Qed.

Lemma holds_written s (r : Store.ref (ndarray R)) a v :
  owns r -> holds s r v -> holds (Store.update s (Store.buf r) (Store.Reals a)) r a.
Proof.
  intros Ho Hr. destruct r as [i g]. cbn [Store.buf].
  replace a with (g (Store.Reals a)) at 2 by (apply (Ho a)).
  apply holds_update_same. apply (holds_bound Hr).
Qed.

Section Refinement_of_writes.

Context {X V : Type} (rel : Store.state -> X -> V -> Prop).
Variables (s : Store.state) (P : result V).

Lemma refines_new_zeros dims k :
  (forall e, np_zeros dims = Raise e -> P = Raise e) ->
  (forall z, np_zeros dims = Ok z -> forall s', stable s s' ->
     forall rc, holds s' rc z -> owns rc ->
     (forall W (r : Store.ref W) w, holds s r w -> Store.buf r <> Store.buf rc) ->
     refines rel (k rc s') P) ->
  refines rel (Store.mbind (Store.new_zeros dims) k s) P.
Proof.
  intros He Hk.
  cbv beta iota delta [Store.mbind Store.new_zeros Store.lift].
  destruct (np_zeros dims) as [z|e] eqn:E.
  - cbv beta iota delta [Store.alloc Store.new_buffer].
    apply (Hk z eq_refl).
    + apply stable_extend.
    + apply (@holds_new _ s (Store.Reals z) Store.reals).
    + intro a. reflexivity.
    + intros W r w Hr. apply holds_bound in Hr. cbn [Store.buf]. lia.
  - rewrite (He e eq_refl). reflexivity.
Qed.

Lemma refines_randn_new n c k :
  (forall s', heap_stable s s' ->
     Store.generator s' = snd (randn (Store.generator s) n c) ->
     forall rc, holds s' rc (fst (randn (Store.generator s) n c)) ->
     refines rel (k rc s') P) ->
  refines rel (Store.mbind (Store.randn_new n c) k s) P.
Proof.
  intro Hk.
  cbv beta iota delta [Store.mbind Store.randn_new].
  destruct (randn (Store.generator s) n c) as [a g] eqn:E.
  cbv beta iota delta [Store.alloc Store.new_buffer Store.extend Store.heap
                       Store.generator].
  apply Hk.
  - intros W r w Hr.
    apply (@holds_extend _ s (Store.Reals a) r w Hr).
  - reflexivity.
  - apply (@holds_new _ s (Store.Reals a) Store.reals).
Qed.

End Refinement_of_writes.

Lemma refines_setitem3_write {V} (rel : Store.state -> unit -> V -> Prop)
    s (P : result V) a i v x y :
  holds s a x -> holds s v y -> owns a ->
  (forall e, setitem3 x i y = Raise e -> P = Raise e) ->
  (forall x', setitem3 x i y = Ok x' -> forall s', holds s' a x' ->
     stable_but a s s' -> Store.generator s' = Store.generator s ->
     refines rel (Ok (tt, s')) P) ->
  refines rel (Store.setitem3_write a i v s) P.
Proof.
  intros Ha Hv Ho He Hk.
  cbv beta iota delta [Store.mbind Store.setitem3_write Store.read Store.lift
                       Store.write].
  rewrite (holds_value Ha), (holds_value Hv).
  destruct (setitem3 x i y) as [x'|e] eqn:E.
  - apply (Hk x' eq_refl).
    + apply (holds_written x' Ho Ha).
    + intros W r w Hr Hne. apply holds_update_other; assumption.
    + reflexivity.
  - rewrite (He e eq_refl). reflexivity.
Qed.

Lemma sample_voxel_refines s mean precision samples n_coefs n_samples i mv pv sv :
  holds s mean mv -> holds s precision pv -> holds s samples sv ->
  owns samples ->
  Store.buf mean <> Store.buf samples ->
  Store.buf precision <> Store.buf samples ->
  refines (loop_invariant mean precision samples mv pv)
    (Store.sample_voxel mean precision n_coefs n_samples samples i s)
    (sample_voxel mv pv n_coefs n_samples i (sv, Store.generator s)).
Proof.
  intros Hm Hp Hs Ho Hnm Hnp.
  unfold Store.sample_voxel, sample_voxel.
  apply refines_randn_new. intros s1 Hst Hg z Hz.
  destruct (randn (Store.generator s) n_coefs n_samples) as [zv g'].
  cbn [fst snd] in Hg, Hz.
  apply Hst in Hm, Hp, Hs.
  do 3 refine_call.
  eapply refines_setitem3_write; [exact Hs | exact Hr1 | exact Ho | refine_raise |].
  intros x' Hx' s' Hx Hsb Hgen. rewrite Hx'. cbn [bind].
  repeat split.
  - apply Hsb; assumption.
  - apply Hsb; assumption.
  - exact Hx.
  - cbn [snd]. congruence.
Qed.

Lemma for_each_refines mean precision samples n_coefs n_samples mv pv range :
  owns samples ->
  Store.buf mean <> Store.buf samples ->
  Store.buf precision <> Store.buf samples ->
  forall s sv,
  holds s mean mv -> holds s precision pv -> holds s samples sv ->
  refines (loop_invariant mean precision samples mv pv)
    (Store.for_each (Store.sample_voxel mean precision n_coefs n_samples samples)
       range s)
    (for_range (sample_voxel mv pv n_coefs n_samples) range
       (sv, Store.generator s)).
Proof.
  intros Ho Hnm Hnp. induction range as [|i range IH]; intros s sv Hm Hp Hs.
  - repeat split; assumption.
  - cbn [Store.for_each for_range]. unfold Store.mbind.
    pose proof (@sample_voxel_refines s mean precision samples n_coefs
                  n_samples i mv pv sv Hm Hp Hs Ho Hnm Hnp) as Hbody.
    destruct (Store.sample_voxel mean precision n_coefs n_samples samples i s)
      as [[u s1]|e];
      destruct (sample_voxel mv pv n_coefs n_samples i (sv, Store.generator s))
        as [[sv1 g1]|e']; cbn [refines] in Hbody; try contradiction.
    + destruct Hbody as (Hm1 & Hp1 & Hs1 & Hg1). cbn [fst snd] in Hs1, Hg1.
      cbn [bind]. rewrite <- Hg1. apply IH; assumption.
    + cbn [bind]. exact Hbody.
Qed.

Theorem sample_refines s mean precision n_samples mv pv :
  holds s mean mv -> holds s precision pv ->
  refines holds_samples
    (Store.sample_coef_posterior mean precision n_samples s)
    (sample_coef_posterior mv pv n_samples (Store.generator s)).
Proof.
  intros Hm Hp.
  unfold Store.sample_coef_posterior, sample_coef_posterior.
  eapply refines_call_shape; [solve [eauto with refine] | refine_raise |].
  intros [n_voxels n_coefs] Hnp. rewrite Hnp. cbn [bind].
  eapply refines_reshape_view; [solve [eauto with refine] | refine_raise |].
  intros b Hb rb Hrb. rewrite Hb. cbn [bind].
  apply refines_new_zeros; [refine_raise |].
  intros z Hz s' Hst samples Hs Ho Hfresh. rewrite Hz. cbn [bind].
  assert (Hm2 : holds s (Store.view atleast_2d mean) (atleast_2d mv))
    by (apply holds_view; exact Hm).
  pose proof (Hfresh _ _ _ Hm2) as Hnm.
  pose proof (Hfresh _ _ _ Hrb) as Hnp'.
  apply (proj1 Hst) in Hm2, Hrb.
  pose proof (@for_each_refines (Store.view atleast_2d mean) rb samples n_coefs
                (Z.to_nat n_samples) (atleast_2d mv) b (seq 0 n_voxels)
                Ho Hnm Hnp' s' z Hm2 Hrb Hs) as Hloop.
  rewrite (proj2 Hst) in Hloop. unfold Store.mbind.
  destruct (Store.for_each _ _ s') as [[u s1]|e];
    destruct (for_range _ _ (z, Store.generator s)) as [[sv1 g1]|e'];
    cbn [refines] in Hloop; try contradiction; cbn [bind].
  - destruct Hloop as (_ & _ & Hs1 & Hg1). cbn [fst snd] in Hs1, Hg1.
    split; cbn [fst snd]; [apply holds_view; exact Hs1 | exact Hg1].
  - exact Hloop.
Qed.

(** ** The arguments are not written *)

(** C10.  A call of [probabilistic_least_squares] or of
    [sample_coef_posterior] that returns leaves every array that existed
    before the call with the value it had, the arguments among them
    ([design_matrix], [y], [regularization_matrix], [mean], [precision]),
    and the arrays it returns are in buffers allocated by the call. *)
Theorem C10_arguments_not_mutated (s : Store.state) :
  (forall design_matrix y regularization_matrix return_posterior_precision
          out s',
     Store.probabilistic_least_squares design_matrix y regularization_matrix
       return_posterior_precision s = Ok (out, s') ->
     Store.fresh_outputs (length (Store.heap s)) out /\
     forall V (r : Store.ref V),
       (Store.buf r < length (Store.heap s))%nat ->
       Store.value s' r = Store.value s r) /\
  (forall mean precision n_samples out s',
     Store.sample_coef_posterior mean precision n_samples s = Ok (out, s') ->
     Store.fresh (length (Store.heap s)) out /\
     forall V (r : Store.ref V),
       (Store.buf r < length (Store.heap s))%nat ->
       Store.value s' r = Store.value s r).
Proof.
  split.
  - intros design_matrix y regularization_matrix flag out s' Hrun.
    destruct (@framed_probabilistic_least_squares (length (Store.heap s))
                design_matrix y regularization_matrix flag s out s'
                (le_n _) Hrun) as [Hp Hq].
    split; [exact Hq | intros V r Hr; apply preserves_value; assumption].
  - intros mean precision n_samples out s' Hrun.
    destruct (@framed_sample_coef_posterior (length (Store.heap s))
                mean precision n_samples s out s' (le_n _) Hrun) as [Hp Hq].
    split; [exact Hq | intros V r Hr; apply preserves_value; assumption].
Qed.

Lemma C10_arguments_not_mutated_witness :
  (exists out s',
     Store.probabilistic_least_squares design_ref y_ref None false
       example_store = Ok (out, s') /\
     Store.fresh_outputs 4 out /\
     Store.value s' design_ref = test_design /\
     Store.value s' y_ref = mk_ndarray [3%nat] [1; 3; 5]) /\
  (exists out s',
     Store.sample_coef_posterior mean_ref precision_ref 2 example_store
     = Ok (out, s') /\
     Store.fresh 4 out /\
     Store.value s' mean_ref = mk_ndarray [2%nat] [0; 0] /\
     Store.value s' precision_ref = of_matrix skew_precision).
Proof.
  destruct (C10_arguments_not_mutated example_store) as [Hpls Hsample].
  split.
  - assert (Hy : matvec (mrows test_design) [1; 2] = [1; 3; 5])
      by (simpl; repeat (f_equal; try lra)).
    destruct (@pls_noiseless test_design [1; 2] test_design_wf
                test_design_full_rank eq_refl) as (X & _ & _ & _ & _ & Heq).
    rewrite Hy in Heq.
    assert (Hd : holds example_store design_ref test_design)
      by (eexists; split; reflexivity).
    assert (Hv : holds example_store y_ref (mk_ndarray [3%nat] [1; 3; 5]))
      by (eexists; split; reflexivity).
    pose proof (@pls_refines example_store design_ref y_ref None false
                  test_design (mk_ndarray [3%nat] [1; 3; 5]) None Hd Hv I)
      as Href.
    change (nrows test_design) with 3%nat in Heq. rewrite Heq in Href.
    destruct (Store.probabilistic_least_squares design_ref y_ref None false
                example_store) as [[out s']|e] eqn:Hrun;
      [|contradiction].
    exists out, s'. destruct (Hpls _ _ _ _ _ _ Hrun) as [Hfresh Hsame].
    split; [reflexivity|]. split; [exact Hfresh|].
    split; [apply (Hsame _ design_ref) | apply (Hsame _ y_ref)];
      simpl; lia.
  - assert (Hm : holds example_store mean_ref (mk_ndarray [2%nat] [0; 0]))
      by (eexists; split; reflexivity).
    assert (Hp : holds example_store precision_ref (of_matrix skew_precision))
      by (eexists; split; reflexivity).
    pose proof (@sample_refines example_store mean_ref precision_ref 2
                  _ _ Hm Hp) as Href.
    change (Store.generator example_store) with unit_draws in Href.
    rewrite sample_skew_precision in Href.
    destruct (Store.sample_coef_posterior mean_ref precision_ref 2
                example_store) as [[out s']|e] eqn:Hrun;
      [|contradiction].
    exists out, s'. destruct (Hsample _ _ _ _ _ Hrun) as [Hfresh Hsame].
    split; [reflexivity|]. split; [exact Hfresh|].
    split; [apply (Hsame _ mean_ref) | apply (Hsame _ precision_ref)];
      simpl; lia.
Defined.

(** * [dki_design_matrix] *)

(** ** Arrays over the measurements *)

Lemma zipWith_map {A B C D} (f : B -> C -> D) (u : A -> B) (v : A -> C) l :
  zipWith f (map u l) (map v l) = map (fun a => f (u a) (v a)) l.
Proof. induction l as [|a l IH]; simpl; [reflexivity | rewrite IH; reflexivity]. Qed.

Lemma per_measurement_wf l U : wf (per_measurement l U).
Proof. unfold wf, per_measurement; simpl. rewrite length_map. lia. Qed.

Lemma negative_per_measurement l U :
  negative (per_measurement l U) = per_measurement l (fun m => - U m).
Proof. unfold negative, amap, per_measurement; simpl. rewrite map_map. reflexivity. Qed.

Lemma scalar_times_per_measurement k l U :
  scalar_times k (per_measurement l U) = per_measurement l (fun m => k * U m).
Proof.
  unfold scalar_times, amap, per_measurement; simpl. rewrite map_map. reflexivity.
Qed.

Lemma over_per_measurement l U k :
  over (Ok (per_measurement l U)) k = Ok (per_measurement l (fun m => U m / k)).
Proof.
  unfold over, amap, per_measurement; simpl. rewrite map_map. reflexivity.
Qed.

Lemma np_ones_per_measurement l U :
  np_ones (len (per_measurement l U)) = per_measurement l (fun _ => 1).
Proof.
  unfold np_ones, len, per_measurement; simpl. f_equal.
  induction l as [|a l IH]; simpl; [reflexivity | rewrite IH; reflexivity].
Qed.

Lemma acts_as_self l V : acts_as l V (per_measurement l V).
Proof. left. reflexivity. Qed.

Lemma acts_as_power l V a n :
  acts_as l V a -> acts_as l (fun m => V m ^ n) (power a n).
Proof.
  intros [->|(v & -> & Hv)].
  - left. unfold power, amap, per_measurement; simpl. rewrite map_map. reflexivity.
  - right. exists (v ^ n). split; [reflexivity|].
    intros m Hm. rewrite (Hv m Hm). reflexivity.
Qed.

Lemma times_per_measurement l U V a :
  acts_as l V a ->
  times (Ok (per_measurement l U)) a
  = Ok (per_measurement l (fun m => U m * V m)).
Proof.
  intros [->|(v & -> & Hv)]; unfold times; cbn [bind].
  - rewrite broadcast_same; try apply per_measurement_wf; [|reflexivity].
    unfold per_measurement; simpl. rewrite zipWith_map. reflexivity.
  - rewrite (@broadcast_scalar_r _ _ _ Rmult (per_measurement l U)
               (mk_ndarray [1%nat] [v]) 1%nat v);
      try reflexivity; [| apply per_measurement_wf].
    unfold per_measurement; simpl. rewrite map_map. do 2 f_equal.
    apply map_ext_in. intros m Hm. rewrite (Hv m Hm). reflexivity.
Qed.

(** ** Assignments to the columns *)

(** The array whose rows are [F m], one per measurement. *)
Lemma rows_chunks (l : list measurement) (F : measurement -> vec) w :
  (forall m, length (F m) = w) ->
  chunks (length l) w (concat (map F l)) = map F l.
Proof.
  intro HF. rewrite <- (length_map F l). apply chunks_concat.
  apply Forall_forall. intros r Hr. apply in_map_iff in Hr.
  destruct Hr as (m & <- & _). apply HF.
Qed.

Lemma setitem_column_rows (l : list measurement) (F : measurement -> vec)
    (V : measurement -> R) c w :
  (forall m, length (F m) = w) ->
  setitem_column (mk_ndarray [length l; w] (concat (map F l))) c
    (per_measurement l V)
  = Ok (mk_ndarray [length l; w]
          (concat (map (fun m => firstn c (F m) ++ V m :: skipn (S c) (F m)) l))).
Proof.
  intro HF. unfold setitem_column. cbn [shape data].
  rewrite (rows_chunks l F HF).
  rewrite broadcast_same.
  - cbn [bind shape data].
    destruct (list_eq_dec Nat.eq_dec [length l] [length l]) as [_|E];
      [|contradiction].
    unfold per_measurement; cbn [data]. rewrite map_map.
    rewrite (zipWith_map (fun (_ x : R) => x)).
    rewrite (zipWith_map (fun r x => firstn c r ++ x :: skipn (S c) r)).
    reflexivity.
  - reflexivity.
  - unfold wf; simpl. rewrite !length_map. lia.
  - apply per_measurement_wf.
Qed.

Lemma assign_columns_step (l : list measurement) (F : measurement -> vec)
    (V : measurement -> R) c w values :
  (forall m, length (F m) = w) ->
  assign_columns (mk_ndarray [length l; w] (concat (map F l))) c
    (Ok (per_measurement l V) :: values)
  = assign_columns
      (mk_ndarray [length l; w]
         (concat (map (fun m => firstn c (F m) ++ V m :: skipn (S c) (F m)) l)))
      (S c) values.
Proof.
  intro HF. cbn [assign_columns bind].
  rewrite (setitem_column_rows l F V c HF). reflexivity.
Qed.

Lemma np_zeros_rows (l : list measurement) :
  np_zeros [Z.of_nat (length l); 22%Z]
  = Ok (mk_ndarray [length l; 22%nat] (concat (map (fun _ => repeat 0 22) l))).
Proof.
  unfold np_zeros. cbn [existsb map].
  replace (Z.of_nat (length l) <? 0)%Z with false
    by (symmetry; apply Z.ltb_ge; lia).
  cbn [orb Z.ltb Z.compare]. rewrite Nat2Z.id.
  change (Z.to_nat 22) with 22%nat. do 2 f_equal.
  induction l as [|a l IH]; [reflexivity|].
  cbn [length map concat]. rewrite <- IH.
  cbn [product fold_right]. rewrite <- repeat_app. reflexivity.
Qed.

(** ** The design matrix, evaluated *)

Ltac dki_column :=
  repeat first
    [ rewrite negative_per_measurement
    | rewrite scalar_times_per_measurement
    | rewrite over_per_measurement
    | rewrite np_ones_per_measurement
    | erewrite times_per_measurement
        by eauto using acts_as_self, acts_as_power ].

(** When every column of [bvecs] acts as one value per measurement of
    [l], the design matrix has the row [dki_row m] for each [m] of [l]. *)
Lemma dki_design_matrix_eval (l : list measurement) b bvec :
  b = map fst l ->
  (forall c, acts_as l (fun m => c (snd m)) (column c bvec)) ->
  dki_design_matrix (mk_GradientTable b bvec)
  = Ok (mk_ndarray [length l; 22%nat] (concat (map dki_row l))).
Proof.
  intros Hb Hc. unfold dki_design_matrix. cbn [bvals bvecs].
  assert (Hb' : array1 b = per_measurement l fst).
  { unfold array1, per_measurement. rewrite Hb, length_map. reflexivity. }
  rewrite Hb'. unfold len at 1. cbn [per_measurement shape hd].
  rewrite np_zeros_rows. cbn [bind].
  unfold dki_columns. cbv zeta.
  fold (per_measurement l fst).
  dki_column.
  cbn [repeat].
  do 22 (rewrite assign_columns_step by (intro; reflexivity);
         cbn [firstn skipn app]).
  cbn [assign_columns]. reflexivity.
Qed.

Lemma map_fst_combine {A B} (u : list A) (v : list B) :
  length u = length v -> map fst (combine u v) = u.
Proof.
  revert v. induction u as [|a u IH]; intros [|b v] H; simpl in *;
    try discriminate; [reflexivity|]. rewrite IH by lia. reflexivity.
Qed.

Lemma map_snd_combine {A B} (u : list A) (v : list B) :
  length u = length v -> map snd (combine u v) = v.
Proof.
  revert v. induction u as [|a u IH]; intros [|b v] H; simpl in *;
    try discriminate; [reflexivity|]. rewrite IH by lia. reflexivity.
Qed.

(** As many directions as b-values. *)
Lemma dki_design_matrix_rows gtab :
  length (bvecs gtab) = length (bvals gtab) ->
  dki_design_matrix gtab
  = Ok (mk_ndarray [length (bvals gtab); 22%nat]
          (concat (map dki_row (measurements gtab)))).
Proof.
  intro H. destruct gtab as [b bvec]. cbn [bvals bvecs] in *.
  unfold measurements. cbn [bvals bvecs].
  rewrite (@dki_design_matrix_eval (combine b bvec) b bvec).
  - rewrite length_combine, H, Nat.min_id. reflexivity.
  - symmetry. apply map_fst_combine. lia.
  - intro c. left. unfold column, array1, per_measurement.
    rewrite length_map, length_combine, H, Nat.min_id.
    rewrite <- (map_snd_combine b bvec) at 1 by lia.
    rewrite map_map. reflexivity.
Qed.

(** One direction for all the b-values. *)
Lemma dki_design_matrix_single b g :
  dki_design_matrix (mk_GradientTable b [g])
  = Ok (mk_ndarray [length b; 22%nat]
          (concat (map dki_row (map (fun bj => (bj, g)) b)))).
Proof.
  rewrite (@dki_design_matrix_eval (map (fun bj => (bj, g)) b) b [g]).
  - rewrite length_map. reflexivity.
  - rewrite map_map. cbn [fst]. symmetry. apply map_id.
  - intro c. right. exists (c g). split; [reflexivity|].
    intros m Hm. apply in_map_iff in Hm. destruct Hm as (bj & <- & _).
    reflexivity.
Qed.

(** ** Tables whose directions do not match the b-values *)

Lemma broadcast_vectors (f : R -> R -> R) (u v : ndarray R) n m :
  shape u = [n] -> shape v = [m] ->
  broadcast f u v
  = if dims_agree n m
    then Ok (mk_ndarray [bdim n m] (bdata f [n] [m] (data u) (data v)))
    else Raise (ValueError operands_not_broadcast).
Proof.
  intros Hu Hv. unfold broadcast, ndim. rewrite Hu, Hv.
  cbn [length Nat.max pad Nat.sub repeat app compatible zipWith].
  rewrite andb_true_r. reflexivity.
Qed.

Lemma dims_agree_cases n m :
  dims_agree n m = true <-> n = m \/ n = 1%nat \/ m = 1%nat.
Proof.
  unfold dims_agree. rewrite !orb_true_iff, !Nat.eqb_eq. tauto.
Qed.

(** The first assignment, [B[:, 0] = -b * bvec[:, 0] * bvec[:, 0]]. *)
Lemma first_column_raises (b : list R) (bvec : list direction) B :
  length bvec <> length b -> length bvec <> 1%nat ->
  shape B = [length b; 22%nat] ->
  (v <- times (times (Ok (negative (array1 b))) (column g0 bvec))
          (column g0 bvec) ;;
   setitem_column B 0 v)
  = Raise (ValueError operands_not_broadcast).
Proof.
  intros Hne H1 HB. unfold times. cbn [bind].
  rewrite (@broadcast_vectors Rmult _ _ (length b) (length bvec));
    [| reflexivity | unfold column, array1; cbn [shape]; rewrite length_map; reflexivity].
  destruct (dims_agree (length b) (length bvec)) eqn:E; [|reflexivity].
  apply dims_agree_cases in E. destruct E as [E|[E|E]]; try congruence.
  cbn [bind].
  rewrite (@broadcast_vectors Rmult _ _ (bdim (length b) (length bvec)) (length bvec));
    [| reflexivity | unfold column, array1; cbn [shape]; rewrite length_map; reflexivity].
  unfold bdim at 1 2. rewrite E. cbn [Nat.eqb].
  replace (dims_agree (length bvec) (length bvec)) with true
    by (symmetry; apply dims_agree_cases; auto).
  cbn [bind]. unfold setitem_column. rewrite HB, E.
  rewrite (@broadcast_vectors (fun _ x => x) _ _ 1%nat (bdim (length bvec) (length bvec)));
    [| reflexivity | reflexivity].
  replace (bdim (length bvec) (length bvec)) with (length bvec)
    by (unfold bdim; destruct (Nat.eqb _ 1); reflexivity).
  replace (dims_agree 1 (length bvec)) with true
    by (symmetry; apply dims_agree_cases; auto).
  cbn [bind shape]. unfold bdim. cbn [Nat.eqb].
  destruct (list_eq_dec Nat.eq_dec [length bvec] [1%nat]) as [F|_];
    [injection F as F; congruence | reflexivity].
Qed.

(** X4.  A table with two or more directions, or with none, whose number
    differs from the number of b-values makes [dki_design_matrix] raise
    [ValueError]: the first product, or the first assignment, cannot be
    broadcast. *)
Theorem dki_design_matrix_length_mismatch gtab :
  length (bvecs gtab) <> length (bvals gtab) ->
  length (bvecs gtab) <> 1%nat ->
  dki_design_matrix gtab = Raise (ValueError operands_not_broadcast).
Proof.
  destruct gtab as [b bvec]. cbn [bvals bvecs]. intros Hne H1.
  unfold dki_design_matrix. cbn [bvals bvecs].
  unfold np_zeros. cbn [existsb map].
  replace (Z.of_nat (len (array1 b)) <? 0)%Z with false
    by (symmetry; apply Z.ltb_ge; lia).
  cbn [orb Z.ltb Z.compare bind]. rewrite Nat2Z.id.
  unfold dki_columns; cbv zeta. cbn [assign_columns].
  pose proof (@first_column_raises b bvec
                (mk_ndarray [len (array1 b); Z.to_nat 22]
                   (repeat 0 (product [len (array1 b); Z.to_nat 22])))
                Hne H1 eq_refl) as H.
  cbn [bind] in H.
  destruct (times (times (Ok (negative (array1 b))) (column g0 bvec))
              (column g0 bvec)) as [v|e].
  - cbn [bind] in H |- *. rewrite H. reflexivity.
  - cbn [bind] in H |- *. exact H.
Qed.

(** ** The rows of the design matrix *)

Lemma slice_rows {A} (F : A -> vec) w (l : list A) : forall j m,
  (forall a, length (F a) = w) -> nth_error l j = Some m ->
  slice j w (concat (map F l)) = F m.
Proof.
  induction l as [|a l IH]; intros [|j] m HF H; simpl in H; try discriminate.
  - injection H as <-. rewrite slice_0. cbn [map concat].
    rewrite firstn_app, HF, Nat.sub_diag, firstn_O, app_nil_r.
    rewrite <- (HF a). apply firstn_all.
  - rewrite slice_S. cbn [map concat].
    rewrite skipn_app, HF, Nat.sub_diag, skipn_O.
    replace (skipn w (F a)) with (@nil R)
      by (rewrite <- (HF a); symmetry; apply skipn_all).
    cbn [app]. apply IH; assumption.
Qed.

Lemma dki_row_length m : length (dki_row m) = 22%nat.
Proof. reflexivity. Qed.

(** The row of a measurement applied to 22 coefficients. *)
Lemma dki_row_model b g (c : vec) :
  length c = 22%nat -> dot (dki_row (b, g)) c = dki_log_signal c b g.
Proof.
  intro H.
  do 22 (destruct c as [|? c]; [discriminate|]).
  destruct c; [|discriminate].
  cbv [dki_log_signal sum_axes axes map vsum fold_right component
       kurtosis_column diffusion_column occurrences filter Nat.eqb length nth
       dki_row dot fst snd g0 g1 g2].
  field.
Qed.

(** X1.  For a table with as many directions as b-values,
    [dki_design_matrix] returns an array of shape (N, 22), and the row of
    each measurement, applied to 22 coefficients, is the logarithm of the
    signal of the DKI model for these coefficients, at the b-value and the
    direction of the measurement. *)
Theorem dki_design_matrix_model gtab :
  length (bvecs gtab) = length (bvals gtab) ->
  exists B,
    dki_design_matrix gtab = Ok B
    /\ shape B = [length (bvals gtab); 22%nat]
    /\ forall j b g, nth_error (measurements gtab) j = Some (b, g) ->
       forall c, length c = 22%nat ->
         dot (row B j) c = dki_log_signal c b g.
Proof.
  intro H. rewrite (dki_design_matrix_rows gtab H).
  eexists. split; [reflexivity|]. split; [reflexivity|].
  intros j b g Hj c Hc. unfold row. cbn [shape data last].
  rewrite (@slice_rows _ dki_row 22%nat (measurements gtab) j (b, g)
             dki_row_length Hj).
  apply dki_row_model. exact Hc.
Qed.

Lemma dki_design_matrix_model_witness :
  exists B,
    dki_design_matrix example_gtab = Ok B
    /\ shape B = [2%nat; 22%nat]
    /\ forall j b g, nth_error (measurements example_gtab) j = Some (b, g) ->
       forall c, length c = 22%nat ->
         dot (row B j) c = dki_log_signal c b g.
Proof.
  apply (dki_design_matrix_model example_gtab). reflexivity.
Defined.

Lemma dki_row_opposite b g : dki_row (b, opposite g) = dki_row (b, g).
Proof.
  unfold dki_row, opposite. cbn [fst snd g0 g1 g2].
  repeat (f_equal; try field).
Qed.

Lemma combine_map_r {A B C} (f : B -> C) (u : list A) (v : list B) :
  combine u (map f v) = map (fun m => (fst m, f (snd m))) (combine u v).
Proof.
  revert v. induction u as [|a u IH]; intros [|b v]; simpl; auto.
  rewrite IH. reflexivity.
Qed.

(** X2.  The design matrix does not change when every direction is
    replaced by the opposite direction. *)
Theorem dki_design_matrix_antipodal gtab :
  length (bvecs gtab) = length (bvals gtab) ->
  dki_design_matrix (mk_GradientTable (bvals gtab) (map opposite (bvecs gtab)))
  = dki_design_matrix gtab.
Proof.
  intro H. rewrite (dki_design_matrix_rows gtab H).
  rewrite dki_design_matrix_rows
    by (cbn [bvals bvecs]; rewrite length_map; exact H).
  unfold measurements. cbn [bvals bvecs].
  rewrite combine_map_r, map_map. do 3 f_equal.
  apply map_ext. intros [b g]. cbn [fst snd]. apply dki_row_opposite.
Qed.

Lemma dki_design_matrix_antipodal_witness :
  dki_design_matrix
    (mk_GradientTable (bvals example_gtab) (map opposite (bvecs example_gtab)))
  = dki_design_matrix example_gtab.
Proof.
  apply (dki_design_matrix_antipodal example_gtab). reflexivity.
Defined.

(** X3.  The row of a measurement without diffusion weighting (b = 0) is
    zero but for its last element, which is one: such a measurement
    constrains the logarithm of the unweighted signal alone. *)
Theorem dki_design_matrix_b0_row gtab B j g :
  length (bvecs gtab) = length (bvals gtab) ->
  dki_design_matrix gtab = Ok B ->
  nth_error (measurements gtab) j = Some (0, g) ->
  row B j = zeros 21 ++ [1].
Proof.
  intros H HB Hj. rewrite (dki_design_matrix_rows gtab H) in HB.
  injection HB as <-. unfold row. cbn [shape data last].
  rewrite (@slice_rows _ dki_row 22%nat (measurements gtab) j (0, g)
             dki_row_length Hj).
  unfold dki_row, zeros. cbn [fst snd repeat app].
  repeat (f_equal; try field).
Qed.

Lemma dki_design_matrix_b0_row_witness :
  row (mk_ndarray [2%nat; 22%nat]
         (concat (map dki_row (measurements example_gtab)))) 0
  = zeros 21 ++ [1].
Proof.
  apply (@dki_design_matrix_b0_row example_gtab _ 0%nat (mk_direction 0 0 0)).
  - reflexivity.
  - apply (dki_design_matrix_rows example_gtab). reflexivity.
  - reflexivity.
Defined.

(** X5.  A table with a single direction is accepted whatever the number
    of b-values: broadcasting uses this direction for every b-value, and
    the result is that of the table with the direction repeated. *)
Theorem dki_design_matrix_single_direction b g :
  dki_design_matrix (mk_GradientTable b [g])
  = dki_design_matrix (mk_GradientTable b (repeat g (length b))).
Proof.
  rewrite dki_design_matrix_single.
  rewrite dki_design_matrix_rows
    by (cbn [bvals bvecs]; apply repeat_length).
  unfold measurements. cbn [bvals bvecs]. do 4 f_equal.
  induction b as [|bj b IH]; [reflexivity|].
  cbn [length repeat combine map]. rewrite IH. reflexivity.
Qed.

Lemma combine_app_same {A B} (u1 u2 : list A) (v1 v2 : list B) :
  length u1 = length v1 ->
  combine (u1 ++ u2) (v1 ++ v2) = combine u1 v1 ++ combine u2 v2.
Proof.
  revert v1. induction u1 as [|a u1 IH]; intros [|b v1] H; simpl in *;
    try discriminate; [reflexivity|]. rewrite IH by lia. reflexivity.
Qed.

(** X6.  The design matrix of two tables put end to end is the design
    matrix of the first on top of that of the second: a row depends on its
    own measurement only. *)
Theorem dki_design_matrix_app gtab1 gtab2 :
  length (bvecs gtab1) = length (bvals gtab1) ->
  length (bvecs gtab2) = length (bvals gtab2) ->
  exists B1 B2,
    dki_design_matrix gtab1 = Ok B1 /\ dki_design_matrix gtab2 = Ok B2 /\
    dki_design_matrix
      (mk_GradientTable (bvals gtab1 ++ bvals gtab2)
                        (bvecs gtab1 ++ bvecs gtab2))
    = Ok (mk_ndarray [(length (bvals gtab1) + length (bvals gtab2))%nat; 22%nat]
            (data B1 ++ data B2)).
Proof.
  intros H1 H2.
  rewrite (dki_design_matrix_rows gtab1 H1), (dki_design_matrix_rows gtab2 H2).
  eexists. eexists. split; [reflexivity|]. split; [reflexivity|].
  rewrite dki_design_matrix_rows
    by (cbn [bvals bvecs]; rewrite !length_app; congruence).
  unfold measurements. cbn [bvals bvecs data].
  rewrite length_app. do 2 f_equal.
  rewrite combine_app_same by (symmetry; exact H1).
  rewrite map_app, concat_app. reflexivity.
Qed.

Lemma dki_design_matrix_app_witness :
  exists B1 B2,
    dki_design_matrix example_gtab = Ok B1 /\
    dki_design_matrix example_gtab = Ok B2 /\
    dki_design_matrix
      (mk_GradientTable (bvals example_gtab ++ bvals example_gtab)
                        (bvecs example_gtab ++ bvecs example_gtab))
    = Ok (mk_ndarray [(2 + 2)%nat; 22%nat] (data B1 ++ data B2)).
Proof.
  apply (@dki_design_matrix_app example_gtab example_gtab); reflexivity.
Defined.

Lemma dki_design_matrix_length_mismatch_witness :
  dki_design_matrix
    (mk_GradientTable [0; 1000; 2000] [mk_direction 1 0 0; mk_direction 0 1 0])
  = Raise (ValueError operands_not_broadcast).
Proof.
  apply dki_design_matrix_length_mismatch; cbn [bvals bvecs length]; lia.
Defined.

(** * [probabilistic_least_squares]: the least squares problem it solves *)

(** ** One vector of observations *)

Lemma adjoint D r c :
  wf_matrix D ->
  dot (correlations D r) c = dot r (matvec (mrows D) c).
Proof.
  intro HD. unfold correlations.
  rewrite (matvec_transpose r HD). apply dot_lc. exact HD.
Qed.

(** The call on one vector of observations: it raises what the linear
    solve raises; otherwise the mean is [X y] for the solution [X] of
    [U X = D^T], and the variance is the quotient of the sum of squares of
    the residual by the sum of squares of the residual matrix. *)
Lemma pls_single_eval D reg (d : vec) :
  wf_matrix D -> regularization_ok D reg -> length d = nrows D ->
  exists U, pls_precision D reg = Ok U /\
    wf_matrix U /\ nrows U = ncols D /\ ncols U = ncols D /\
    match linalg_solve U (swapaxes D) with
    | Raise e =>
        probabilistic_least_squares D (mk_ndarray [nrows D] d) reg false
        = Raise e
    | Ok P =>
        let X := mrows P in
        length X = ncols D /\ Forall (fun x => length x = nrows D) X /\
        matmul (nrows D) (mrows U) X = transpose (ncols D) (mrows D) /\
        nonsingular (ncols D) (mrows U) /\
        probabilistic_least_squares D (mk_ndarray [nrows D] d) reg false
        = Ok (Mean_Variance
                (mk_ndarray [ncols D] (matvec X d))
                (mk_ndarray []
                   [fdiv (Fin (sum_of_squares (residual D (matvec X d) d)))
                         (Fin (residual_dof D X))]))
    end.
Proof.
  intros HD Hreg Hd.
  set (y := mk_ndarray [nrows D] d).
  assert (Hy : wf y) by (unfold wf, y; simpl; lia).
  destruct (@pls_eval D y reg false [] HD Hreg eq_refl Hy)
    as (U & HU & Uwf & Un & Uc & Heq).
  exists U. repeat (split; [assumption|]).
  assert (Usq : nrows U = ncols U) by congruence.
  assert (Hbr : nrows (swapaxes D) = nrows U)
    by (rewrite swapaxes_nrows; congruence).
  rewrite Heq.
  destruct (linalg_solve U (swapaxes D)) as [P|e] eqn:HP; [|reflexivity].
  destruct (linalg_solve_sound Uwf (swapaxes_wf D) Usq Hbr HP)
    as (Pc & Pn & Pwf & Pmul & Pns).
  cbv zeta. cbn [bind negb].
  assert (HXl : length (mrows P) = ncols D) by (rewrite <- Un; exact Pn).
  assert (HXr : Forall (fun x => length x = nrows D) (mrows P)).
  { unfold wf_matrix in Pwf. rewrite Pc in Pwf. exact Pwf. }
  split; [exact HXl|]. split; [exact HXr|].
  split; [exact Pmul|]. split; [rewrite <- Un; exact Pns|].
  assert (Hobs : observations D y [] = [d]).
  { unfold observations; simpl. apply chunks_single. exact Hd. }
  do 2 f_equal.
  - unfold posterior_mean. rewrite Hobs. simpl. rewrite app_nil_r. reflexivity.
  - unfold posterior_variance. f_equal.
    unfold residual_sums, fitted_values. rewrite Hobs.
    cbn [flat_map]. rewrite app_nil_r.
    unfold sum_last, square, amap. cbn [shape data].
    change (removelast ([] ++ [nrows D])) with (@nil nat).
    change (last ([] ++ [nrows D]) 1%nat) with (nrows D).
    cbn [product fold_right chunks seq map]. subst y. cbn [data].
    fold (vsub d (matvec (mrows D) (matvec (mrows P) d))).
    fold (residual D (matvec (mrows P) d) d).
    rewrite slice_0, firstn_all2.
    + rewrite vsum_squares. reflexivity.
    + rewrite length_map. unfold residual.
      rewrite vsub_length, matvec_length. unfold nrows. lia.
Qed.

(** What a successful call on one vector of observations returned. *)
Lemma pls_single_ok D reg (d : vec) mean var :
  wf_matrix D -> regularization_ok D reg -> length d = nrows D ->
  probabilistic_least_squares D (mk_ndarray [nrows D] d) reg false
  = Ok (Mean_Variance mean var) ->
  exists U X, pls_precision D reg = Ok U /\
    nrows U = ncols D /\ ncols U = ncols D /\ wf_matrix U /\
    nonsingular (ncols D) (mrows U) /\
    length X = ncols D /\ Forall (fun x => length x = nrows D) X /\
    matmul (nrows D) (mrows U) X = transpose (ncols D) (mrows D) /\
    mean = mk_ndarray [ncols D] (matvec X d) /\
    var = mk_ndarray []
            [fdiv (Fin (sum_of_squares (residual D (matvec X d) d)))
                  (Fin (residual_dof D X))].
Proof.
  intros HD Hreg Hd Hrun.
  destruct (@pls_single_eval D reg d HD Hreg Hd) as (U & HU & Uwf & Un & Uc & H).
  destruct (linalg_solve U (swapaxes D)) as [P|e]; [|congruence].
  cbv zeta in H. destruct H as (HXl & HXr & Hmul & Hns & Heq).
  rewrite Heq in Hrun. injection Hrun as <- <-.
  exists U, (mrows P). repeat (split; [assumption|]). split; reflexivity.
Qed.

(** X7.  When the call on one vector of observations [y] returns, the
    posterior mean [c] solves the normal equations [U c = D^T y], where [U]
    is the unscaled posterior precision: [D^T D], plus the regularization
    matrix when there is one. *)
Theorem pls_normal_equations D reg (d : vec) U mean var :
  wf_matrix D -> regularization_ok D reg -> length d = nrows D ->
  pls_precision D reg = Ok U ->
  probabilistic_least_squares D (mk_ndarray [nrows D] d) reg false
  = Ok (Mean_Variance mean var) ->
  shape mean = [ncols D]
  /\ matvec (mrows U) (data mean) = correlations D d.
Proof.
  intros HD Hreg Hd HU Hrun.
  destruct (@pls_single_ok D reg d mean var HD Hreg Hd Hrun)
    as (U' & X & HU' & _ & _ & _ & _ & HXl & HXr & Hmul & -> & _).
  assert (U' = U) by congruence. subst U'.
  split; [reflexivity|]. cbn [data].
  rewrite <- (@matvec_matmul (nrows D) (mrows U) X d HXr), Hmul. reflexivity.
Qed.

(** The regression test: the fit of [y = 1 + 2 x] at [x = 0, 1, 2]. *)
Lemma test_run :
  exists var,
    probabilistic_least_squares test_design (mk_ndarray [3%nat] [1; 3; 5])
      None false
    = Ok (Mean_Variance (mk_ndarray [2%nat] [1; 2]) var).
Proof.
  destruct (@pls_noiseless test_design [1; 2] test_design_wf
              test_design_full_rank eq_refl) as (X & _ & _ & _ & _ & Heq).
  assert (Hy : matvec (mrows test_design) [1; 2] = [1; 3; 5])
    by (simpl; repeat (f_equal; try lra)).
  rewrite Hy in Heq. eexists. exact Heq.
Qed.

Lemma pls_normal_equations_witness :
  matvec (mrows (einsum_gram test_design)) [1; 2]
  = correlations test_design [1; 3; 5].
Proof.
  destruct test_run as (var & Hrun).
  apply (@pls_normal_equations test_design None [1; 3; 5]
           (einsum_gram test_design) (mk_ndarray [2%nat] [1; 2]) var
           test_design_wf I eq_refl eq_refl Hrun).
Defined.

(** ** Symmetric matrices and sums of matrices *)

Lemma transpose_nth c : forall (M : list vec) i,
  (i < c)%nat -> nth i (transpose c M) [] = map (fun r => nth i r 0) M.
Proof.
  induction c as [|c IH]; intros M i Hi; [lia|].
  cbn [transpose]. destruct i as [|i].
  - cbn [nth]. apply map_ext. intros [|a r]; reflexivity.
  - cbn [nth]. rewrite IH by lia. rewrite map_map.
    apply map_ext. intro r. apply nth_tl.
Qed.

Lemma symmetric_transpose n (P : list vec) :
  square_rows n P -> symmetric P -> transpose n P = P.
Proof.
  intros [Hl Hr] Hsym.
  apply (nth_ext _ _ [] []); [rewrite transpose_length; congruence|].
  intros i Hi. rewrite transpose_length in Hi.
  rewrite transpose_nth by exact Hi.
  assert (Hri : length (nth i P []) = n).
  { rewrite Forall_forall in Hr. apply Hr. apply nth_In. lia. }
  apply vec_ext; [rewrite length_map; congruence|].
  intro j.
  transitivity (nth j (map (fun r : vec => nth i r 0) P)
                  ((fun r : vec => nth i r 0) [])).
  - f_equal. destruct i; reflexivity.
  - etransitivity; [exact (map_nth (fun r : vec => nth i r 0) P [] j)|].
    symmetry. apply Hsym.
Qed.

Lemma symmetric_dot n (P : list vec) u v :
  square_rows n P -> symmetric P ->
  dot u (matvec P v) = dot v (matvec P u).
Proof.
  intros Hsq Hsym.
  rewrite <- (symmetric_transpose Hsq Hsym) at 1.
  rewrite (matvec_transpose v (proj2 Hsq)).
  rewrite dot_comm. apply dot_lc. exact (proj2 Hsq).
Qed.

Lemma concat_zipWith_rows (f : R -> R -> R) c : forall (A B : list vec),
  Forall (fun r => length r = c) A -> Forall (fun r => length r = c) B ->
  concat (zipWith (zipWith f) A B) = zipWith f (concat A) (concat B).
Proof.
  induction A as [|a A IH]; intros [|b B] HA HB; cbn [zipWith concat].
  - reflexivity.
  - reflexivity.
  - destruct (a ++ concat A); reflexivity.
  - apply Forall_cons_iff in HA. destruct HA as [Ha HA].
    apply Forall_cons_iff in HB. destruct HB as [Hb' HB].
    rewrite zipWith_app by congruence. rewrite IH by assumption.
    reflexivity.
Qed.

Lemma matvec_sum (A B : list vec) v c :
  Forall (fun r => length r = c) A -> Forall (fun r => length r = c) B ->
  matvec (zipWith vadd A B) v = vadd (matvec A v) (matvec B v).
Proof.
  revert B. induction A as [|a A IH]; intros [|b B] HA HB;
    try reflexivity.
  apply Forall_cons_iff in HA. destruct HA as [Ha HA].
  apply Forall_cons_iff in HB. destruct HB as [Hb' HB].
  change (dot (vadd a b) v :: matvec (zipWith vadd A B) v
          = (dot a v + dot b v) :: vadd (matvec A v) (matvec B v)).
  f_equal.
  - apply dot_vadd_l. congruence.
  - apply IH; assumption.
Qed.

Lemma sum_rows (A B : list vec) c :
  Forall (fun r => length r = c) A -> Forall (fun r => length r = c) B ->
  Forall (fun r => length r = c) (zipWith vadd A B).
Proof.
  revert B. induction A as [|a A IH]; intros [|b B] HA HB;
    cbn [zipWith]; try constructor.
  - apply Forall_cons_iff in HA. apply Forall_cons_iff in HB.
    rewrite vadd_length. destruct HA, HB. lia.
  - apply Forall_cons_iff in HA. apply Forall_cons_iff in HB.
    apply IH; tauto.
Qed.

(** The unscaled posterior precision with a regularization matrix. *)
Lemma pls_precision_sum D L :
  wf_matrix D -> regularization_ok D (Some L) ->
  pls_precision D (Some L)
  = Ok (mk_matrix (ncols D)
          (zipWith vadd (mrows (einsum_gram D)) (mrows L))).
Proof.
  intros HD (HL & HLn & HLc). unfold pls_precision.
  rewrite broadcast_same.
  - cbn [bind]. unfold to_matrix, of_matrix. cbn [shape data].
    rewrite gram_square. cbn [ncols einsum_gram]. do 2 f_equal.
    rewrite <- (@concat_zipWith_rows Rplus (ncols D));
      [| apply (gram_wf HD) | rewrite <- HLc; exact HL].
    fold vadd.
    assert (Hlen : length (zipWith vadd (mrows (einsum_gram D)) (mrows L))
                   = ncols D).
    { rewrite zipWith_length. fold (nrows (einsum_gram D)). fold (nrows L).
      rewrite gram_square, HLn. cbn [ncols einsum_gram]. lia. }
    rewrite <- Hlen at 1. apply chunks_concat.
    apply sum_rows; [apply (gram_wf HD) | rewrite <- HLc; exact HL].
  - unfold of_matrix; simpl. rewrite gram_square, HLn, HLc. reflexivity.
  - apply of_matrix_wf. apply gram_wf. exact HD.
  - apply of_matrix_wf. exact HL.
Qed.

(** ** The posterior mean minimizes the penalized sum of squares *)

Lemma dot_vadd_square a b :
  length a = length b ->
  dot (vadd a b) (vadd a b) = dot a a + 2 * dot a b + dot b b.
Proof.
  intro H. rewrite dot_vadd_l by exact H.
  rewrite !dot_vadd_r by exact H. rewrite (dot_comm b a). ring.
Qed.

Lemma dot_vsub_square a b :
  length a = length b ->
  dot (vsub a b) (vsub a b) = dot a a - 2 * dot a b + dot b b.
Proof.
  intro H. rewrite dot_vsub_l by exact H.
  rewrite !dot_vsub_r by exact H. rewrite (dot_comm b a). ring.
Qed.

(** The residual of other coefficients. *)
Lemma residual_shift D (d c c' : vec) :
  length d = nrows D -> length c = length c' ->
  residual D c' d
  = vadd (residual D c d) (matvec (mrows D) (vsub c c')).
Proof.
  intros Hd Hc. unfold residual.
  rewrite matvec_vsub by exact Hc.
  assert (H1 : length (matvec (mrows D) c) = length d)
    by (rewrite matvec_length; symmetry; exact Hd).
  assert (H2 : length (matvec (mrows D) c') = length d)
    by (rewrite matvec_length; symmetry; exact Hd).
  apply vec_ext.
  - rewrite vadd_length, !vsub_length. lia.
  - intro i. rewrite nth_vadd by (rewrite !vsub_length; lia).
    rewrite !nth_vsub by congruence. ring.
Qed.

(** [D^T (y - D c) = D^T y - D^T D c] *)
Lemma correlations_residual D (d c : vec) :
  wf_matrix D -> length d = nrows D ->
  correlations D (residual D c d)
  = vsub (correlations D d) (matvec (mrows (einsum_gram D)) c).
Proof.
  intros HD Hd. unfold correlations, residual.
  rewrite matvec_vsub by (rewrite matvec_length; exact Hd).
  rewrite (@gram_matvec D HD c). reflexivity.
Qed.

(** The objective at other coefficients, from the normal equations
    [U c = D^T y]: the cross terms cancel. *)
Lemma objective_gap D reg (d c c' : vec) U :
  wf_matrix D -> regularization_ok D reg -> regularization_psd D reg ->
  length d = nrows D -> length c = ncols D -> length c' = ncols D ->
  pls_precision D reg = Ok U ->
  matvec (mrows U) c = correlations D d ->
  objective D reg d c' =
  objective D reg d c
  + sum_of_squares (matvec (mrows D) (vsub c c'))
  + penalty reg (vsub c c').
Proof.
  intros HD Hreg Hpsd Hd Hc Hc' HU Hnormal.
  unfold objective, sum_of_squares.
  rewrite (@residual_shift D d c c' Hd) by congruence.
  set (r := residual D c d). set (h := vsub c c').
  assert (Hh : length h = ncols D) by (unfold h; rewrite vsub_length; lia).
  assert (Hr : length r = nrows D).
  { unfold r, residual. rewrite vsub_length, matvec_length. unfold nrows in *. lia. }
  rewrite dot_vadd_square by (rewrite matvec_length; exact Hr).
  rewrite <- (@adjoint D r h HD). unfold r.
  rewrite (@correlations_residual D d c HD Hd), <- Hnormal.
  destruct reg as [L|]; cbn [penalty].
  - rewrite (@pls_precision_sum D L HD Hreg) in HU.
    assert (EU : U = mk_matrix (ncols D)
                       (zipWith vadd (mrows (einsum_gram D)) (mrows L)))
      by congruence.
    subst U. clear HU. cbn [mrows]. destruct Hreg as (HL & HLn & HLc). destruct Hpsd as [Hsym _].
    unfold wf_matrix in HL. rewrite HLc in HL.
    rewrite (@matvec_sum (mrows (einsum_gram D)) (mrows L) c (ncols D)
               (gram_wf HD) HL).
    set (Gc := matvec (mrows (einsum_gram D)) c).
    set (Lc := matvec (mrows L) c).
    assert (HGc : length Gc = ncols D).
    { unfold Gc. rewrite matvec_length. apply (gram_square D). }
    assert (HLc' : length Lc = ncols D)
      by (unfold Lc; rewrite matvec_length; exact HLn).
    assert (E : vsub (vadd Gc Lc) Gc = Lc).
    { apply vec_ext; [rewrite vsub_length, vadd_length; lia|].
      intro i. rewrite nth_vsub by (rewrite vadd_length; lia).
      rewrite nth_vadd by congruence. ring. }
    rewrite E.
    assert (Ec' : c' = vsub c h).
    { unfold h. apply vec_ext; [rewrite !vsub_length; lia|].
      intro i. rewrite !nth_vsub by (rewrite ?vsub_length; lia). ring. }
    replace (quad (mrows L) c') with (quad (mrows L) (vsub c h))
      by (rewrite <- Ec'; reflexivity).
    unfold quad.
    rewrite matvec_vsub by congruence. fold Lc.
    rewrite dot_vsub_l by congruence.
    rewrite !dot_vsub_r by (unfold Lc; rewrite !matvec_length; reflexivity).
    assert (Sq : square_rows (ncols D) (mrows L)) by (split; assumption).
    rewrite (@symmetric_dot (ncols D) (mrows L) c h Sq Hsym). fold Lc.
    rewrite (dot_comm Lc h). ring.
  - injection HU as <-.
    rewrite vsub_self_zeros, dot_zeros_l. ring.
Qed.

Lemma penalty_nonneg D reg (h : vec) :
  regularization_psd D reg -> length h = ncols D -> 0 <= penalty reg h.
Proof.
  intros Hpsd Hh. destruct reg as [L|]; cbn [penalty].
  - apply (proj2 Hpsd). exact Hh.
  - apply Rle_refl.
Qed.



(** ** Observations that do not fit the design *)



(** ** A batch of observations is fitted unit by unit *)

Lemma skipn_zipWith {A B C} (f : A -> B -> C) k : forall a b,
  skipn k (zipWith f a b) = zipWith f (skipn k a) (skipn k b).
Proof.
  induction k as [|k IH]; intros [|x a] [|y b]; cbn [skipn zipWith];
    try reflexivity.
  - destruct (skipn k a); reflexivity.
  - apply IH.
Qed.

Lemma firstn_zipWith {A B C} (f : A -> B -> C) k : forall a b,
  firstn k (zipWith f a b) = zipWith f (firstn k a) (firstn k b).
Proof.
  induction k as [|k IH]; intros [|x a] [|y b]; cbn [firstn zipWith];
    try reflexivity.
  rewrite IH. reflexivity.
Qed.

Lemma slice_zipWith {A B C} (f : A -> B -> C) i c a b :
  slice i c (zipWith f a b) = zipWith f (slice i c a) (slice i c b).
Proof. unfold slice. rewrite skipn_zipWith, firstn_zipWith. reflexivity. Qed.

Lemma slice_map {A B} (f : A -> B) i c d :
  slice i c (map f d) = map f (slice i c d).
Proof. unfold slice. rewrite skipn_map, firstn_map. reflexivity. Qed.

Lemma nth_error_chunks {A} n c (d : list A) i :
  (i < n)%nat -> nth_error (chunks n c d) i = Some (slice i c d).
Proof.
  intro Hi. unfold chunks.
  rewrite nth_error_map, nth_error_seq.
  replace (Nat.ltb i n) with true by (symmetry; apply Nat.ltb_lt; exact Hi).
  reflexivity.
Qed.

Lemma nth_chunks {A B} (f : list A -> B) n c (d : list A) i dflt :
  (i < n)%nat -> nth i (map f (chunks n c d)) dflt = f (slice i c d).
Proof.
  intro Hi.
  rewrite (nth_indep _ dflt (f [])) by (rewrite length_map, chunks_length; exact Hi).
  rewrite map_nth. f_equal.
  apply nth_error_nth. apply nth_error_chunks. exact Hi.
Qed.

(** X12.  A call on a batch of [n] vectors of observations that returns
    has fitted every unit on its own: the unit [i] of the means and the
    variance [i] are what the call on the vector [i] alone returns. *)
Theorem pls_batch_per_unit D reg n (d : vec) mean var :
  wf_matrix D -> regularization_ok D reg ->
  length d = (n * nrows D)%nat ->
  probabilistic_least_squares D (mk_ndarray [n; nrows D] d) reg false
  = Ok (Mean_Variance mean var) ->
  shape mean = [n; ncols D] /\ shape var = [n] /\
  forall i, (i < n)%nat ->
    probabilistic_least_squares D
      (mk_ndarray [nrows D] (slice i (nrows D) d)) reg false
    = Ok (Mean_Variance
            (mk_ndarray [ncols D] (slice i (ncols D) (data mean)))
            (mk_ndarray [] [nth i (data var) NaN])).
Proof.
  intros HD Hreg Hd Hrun.
  set (y := mk_ndarray [n; nrows D] d) in *.
  assert (Hy : wf y) by (unfold wf, y; simpl; lia).
  destruct (@pls_eval D y reg false [n] HD Hreg eq_refl Hy)
    as (U & HU & Uwf & Un & Uc & Heq).
  rewrite Heq in Hrun.
  destruct (linalg_solve U (swapaxes D)) as [P|e] eqn:HP; [|discriminate].
  cbv zeta in Hrun. cbn [bind negb] in Hrun. injection Hrun as <- <-.
  split; [reflexivity|]. split; [reflexivity|].
  intros i Hi.
  assert (Hdi : length (slice i (nrows D) d) = nrows D)
    by (apply (@slice_length _ n i (nrows D) d Hi Hd)).
  destruct (@pls_single_eval D reg (slice i (nrows D) d) HD Hreg Hdi)
    as (U' & HU' & _ & _ & _ & H).
  assert (U' = U) by congruence. subst U'. rewrite HP in H.
  cbv zeta in H. destruct H as (HXl & HXr & _ & _ & Hunit).
  rewrite Hunit.
  assert (Hobs : observations D y [n] = chunks n (nrows D) d).
  { unfold observations, y. cbn [product fold_right data].
    rewrite Nat.mul_1_r. reflexivity. }
  assert (Hnth : nth_error (chunks n (nrows D) d) i
                 = Some (slice i (nrows D) d))
    by (apply nth_error_chunks; exact Hi).
  do 3 f_equal.
  - unfold posterior_mean. cbn [data]. rewrite Hobs, flat_map_concat_map.
    symmetry.
    apply (@slice_rows _ (matvec (mrows P)) (ncols D) _ i _); [|exact Hnth].
    intro a. rewrite matvec_length. exact HXl.
  - unfold posterior_variance. cbn [data].
    unfold residual_sums, sum_last, square, amap. cbn [shape data].
    change (removelast ([n] ++ [nrows D])) with [n].
    change (last ([n] ++ [nrows D]) 1%nat) with (nrows D).
    cbn [product fold_right]. rewrite Nat.mul_1_r, map_map.
    rewrite (@nth_chunks _ _
               (fun r => fdiv (Fin (vsum r)) (Fin (residual_dof D (mrows P))))
               n (nrows D) _ i NaN Hi).
    rewrite slice_map, slice_zipWith, vsum_squares. do 3 f_equal.
    unfold y at 1. cbn [data].
    unfold fitted_values. rewrite Hobs, flat_map_concat_map.
    rewrite (@slice_rows _ (fun r => matvec (mrows D) (matvec (mrows P) r))
               (nrows D) _ i _ (fun a => matvec_length (mrows D) _) Hnth).
    reflexivity.
Qed.

(** A design of full column rank: the call without regularization
    returns. *)
Lemma pls_full_rank_returns D y bs :
  wf_matrix D -> full_column_rank D ->
  shape y = bs ++ [nrows D] -> wf y ->
  exists mean var,
    probabilistic_least_squares D y None false = Ok (Mean_Variance mean var).
Proof.
  intros HD Hfull Hs Hy.
  destruct (@pls_eval D y None false bs HD I Hs Hy)
    as (U & HU & _ & _ & _ & Heq).
  cbn [pls_precision] in HU. injection HU as <-.
  destruct (pls_solve_full_rank HD Hfull) as (X & HX & _).
  rewrite HX in Heq. cbn [bind negb] in Heq. cbv zeta in Heq.
  eexists. eexists. exact Heq.
Qed.

Lemma pls_batch_per_unit_witness :
  exists mean var,
    shape mean = [2%nat; 2%nat] /\ shape var = [2%nat] /\
    forall i, (i < 2)%nat ->
      probabilistic_least_squares test_design
        (mk_ndarray [3%nat] (slice i 3 [1; 3; 5; 0; 1; 1])) None false
      = Ok (Mean_Variance
              (mk_ndarray [2%nat] (slice i 2 (data mean)))
              (mk_ndarray [] [nth i (data var) NaN])).
Proof.
  destruct (@pls_full_rank_returns test_design
              (mk_ndarray [2%nat; 3%nat] [1; 3; 5; 0; 1; 1]) [2%nat]
              test_design_wf test_design_full_rank eq_refl eq_refl)
    as (mean & var & Hrun).
  exists mean, var.
  apply (@pls_batch_per_unit test_design None 2%nat [1; 3; 5; 0; 1; 1]
           mean var test_design_wf I eq_refl Hrun).
Defined.

(** ** The residual degrees of freedom *)

Lemma dot_unit_vector (v : vec) i :
  dot v (unit_vector (length v) i) = nth i v 0.
Proof.
  rewrite dot_comm. unfold unit_vector. rewrite dot_unit_row.
  rewrite Nat.sub_0_r. reflexivity.
Qed.

Lemma unit_vector_length n i : length (unit_vector n i) = n.
Proof. unfold unit_vector. rewrite length_map, length_seq. reflexivity. Qed.

Lemma unit_vector_nth n i j :
  (j < n)%nat -> nth j (unit_vector n i) 0 = if Nat.eqb i j then 1 else 0.
Proof.
  intro Hj. unfold unit_vector.
  rewrite (nth_indep _ 0 ((fun j => if Nat.eqb i j then 1 else 0) 0%nat))
    by (rewrite length_map, length_seq; exact Hj).
  rewrite (map_nth (fun j => if Nat.eqb i j then 1 else 0)).
  rewrite seq_nth by exact Hj. reflexivity.
Qed.

Lemma eye_rows_units n : eye_rows n = map (unit_vector n) (seq 0 n).
Proof. reflexivity. Qed.

Lemma nth_matvec (M : list vec) v i :
  nth i (matvec M v) 0 = dot (nth i M []) v.
Proof. exact (map_nth (fun r => dot r v) M [] i). Qed.

Lemma rows_as_map {A} (l : list A) d :
  l = map (fun i => nth i l d) (seq 0 (length l)).
Proof.
  apply (nth_ext _ _ d d).
  - rewrite length_map, length_seq. reflexivity.
  - intros i Hi.
    rewrite (nth_indep (map _ _) d ((fun i => nth i l d) 0%nat))
      by (rewrite length_map, length_seq; exact Hi).
    rewrite (map_nth (fun i => nth i l d)). rewrite seq_nth by exact Hi.
    reflexivity.
Qed.

Lemma sum_below_S n f : sum_below (S n) f = sum_below n f + f n.
Proof.
  unfold sum_below. rewrite seq_S, map_app, vsum_app. simpl. ring.
Qed.

Lemma sum_below_ext n f g :
  (forall i, (i < n)%nat -> f i = g i) -> sum_below n f = sum_below n g.
Proof.
  intro H. unfold sum_below. f_equal. apply map_ext_in.
  intros i Hi. apply in_seq in Hi. apply H. lia.
Qed.

Lemma sum_below_minus n f g :
  sum_below n (fun i => f i - g i) = sum_below n f - sum_below n g.
Proof.
  induction n as [|n IH]; [unfold sum_below; simpl; ring|].
  rewrite !sum_below_S, IH. ring.
Qed.

Lemma sum_below_plus n f g :
  sum_below n (fun i => f i + g i) = sum_below n f + sum_below n g.
Proof.
  induction n as [|n IH]; [unfold sum_below; simpl; ring|].
  rewrite !sum_below_S, IH. ring.
Qed.

Lemma sum_below_one n : sum_below n (fun _ => 1) = INR n.
Proof.
  induction n as [|n IH]; [unfold sum_below; simpl; reflexivity|].
  rewrite sum_below_S, IH, S_INR. reflexivity.
Qed.

Lemma sum_below_swap n m (f : nat -> nat -> R) :
  sum_below n (fun i => sum_below m (fun k => f i k))
  = sum_below m (fun k => sum_below n (fun i => f i k)).
Proof.
  induction n as [|n IH].
  - change (sum_below 0 (fun i => sum_below m (fun k => f i k))) with 0.
    induction m as [|m IHm]; [reflexivity|].
    rewrite sum_below_S, <- IHm. unfold sum_below. simpl. ring.
  - rewrite sum_below_S, IH, <- sum_below_plus.
    apply sum_below_ext. intros k _. rewrite sum_below_S. reflexivity.
Qed.

Lemma dot_sum_below (u v : vec) :
  dot u v = sum_below (length u) (fun k => nth k u 0 * nth k v 0).
Proof.
  revert v. induction u as [|a u IH]; intro v; [reflexivity|].
  destruct v as [|b v].
  - cbn [dot length]. unfold sum_below.
    rewrite <- (Rplus_0_l 0) at 1.
    induction (seq 0 (S (length u))) as [|k l IHl]; [simpl; lra|].
    cbn [map vsum fold_right]. unfold vsum in IHl. rewrite <- IHl.
    destruct k; simpl; ring.
  - cbn [dot length]. rewrite IH. unfold sum_below.
    cbn [seq map vsum fold_right nth]. rewrite <- seq_shift, map_map.
    reflexivity.
Qed.

Lemma gram_bilinear D (u v : vec) :
  wf_matrix D ->
  dot u (matvec (mrows (einsum_gram D)) v)
  = dot (matvec (mrows D) u) (matvec (mrows D) v).
Proof.
  intro HD. rewrite (@gram_matvec D HD v).
  fold (correlations D (matvec (mrows D) v)).
  rewrite dot_comm, (@adjoint D _ u HD). apply dot_comm.
Qed.

Section Projection.

Variables (D : matrix) (X : list vec).

Local Abbreviation m := (nrows D).
Local Abbreviation p := (ncols D).
Local Abbreviation G := (mrows (einsum_gram D)).

Hypothesis D_wf : wf_matrix D.
Hypothesis X_length : length X = p.
Hypothesis X_rows : Forall (fun x => length x = m) X.
Hypothesis normal : matmul m G X = transpose p (mrows D).
Hypothesis left_inverse :
  forall c, length c = p -> matvec X (matvec (mrows D) c) = c.

(** The column [i] of the pseudo-inverse, and the column [i] of the
    smoother matrix [D X]. *)
Local Abbreviation u i := (matvec X (unit_vector m i)).
Local Abbreviation a i := (matvec (mrows D) (u i)).

Lemma correlations_unit i : correlations D (unit_vector m i) = matvec G (u i).
Proof.
  unfold correlations. rewrite <- normal.
  apply matvec_matmul. exact X_rows.
Qed.

Lemma smoother_entry i j :
  (j < m)%nat -> nth j (a i) 0 = dot (a i) (a j).
Proof.
  intro Hj.
  rewrite <- (@dot_unit_vector (a i) j) at 1.
  replace (length (a i)) with m by (rewrite matvec_length; reflexivity).
  rewrite dot_comm, <- (@adjoint D (unit_vector m j) (u i) D_wf).
  rewrite correlations_unit, dot_comm.
  apply gram_bilinear. exact D_wf.
Qed.

(** The smoother matrix is symmetric: its rows are its columns. *)
Lemma smoother_row i :
  (i < m)%nat -> nth i (matmul m (mrows D) X) [] = a i.
Proof.
  intro Hi. unfold matmul.
  rewrite (nth_indep (map _ _) [] ((fun r => lc m r X) []))
    by (rewrite length_map; exact Hi).
  rewrite (map_nth (fun r => lc m r X)).
  assert (Hl : length (lc m (nth i (mrows D) []) X) = m)
    by (apply lc_length; exact X_rows).
  apply vec_ext; [rewrite Hl, matvec_length; reflexivity|].
  intro j. destruct (Nat.lt_ge_cases j m) as [Hj|Hj].
  - rewrite <- (@dot_unit_vector (lc m (nth i (mrows D) []) X) j), Hl.
    rewrite (@dot_lc m (nth i (mrows D) []) X (unit_vector m j) X_rows).
    rewrite <- nth_matvec.
    rewrite (@smoother_entry j i Hi), (@smoother_entry i j Hj).
    apply dot_comm.
  - rewrite !nth_overflow; [reflexivity | |].
    + rewrite matvec_length. exact Hj.
    + rewrite Hl. exact Hj.
Qed.

Lemma residual_row i :
  (i < m)%nat ->
  dot (vsub (unit_vector m i) (a i)) (vsub (unit_vector m i) (a i))
  = 1 - nth i (a i) 0.
Proof.
  intro Hi.
  rewrite dot_vsub_square
    by (rewrite unit_vector_length, matvec_length; reflexivity).
  rewrite <- (@smoother_entry i i Hi).
  assert (H1 : dot (unit_vector m i) (unit_vector m i) = 1).
  { rewrite <- (unit_vector_length m i) at 2.
    rewrite dot_unit_vector, unit_vector_nth by exact Hi.
    rewrite Nat.eqb_refl. reflexivity. }
  assert (H2 : dot (unit_vector m i) (a i) = nth i (a i) 0).
  { rewrite dot_comm. rewrite <- (@dot_unit_vector (a i) i).
    rewrite matvec_length. reflexivity. }
  rewrite H1, H2. ring.
Qed.

End Projection.

Section Trace.

Variables (D : matrix) (X : list vec).

Local Abbreviation m := (nrows D).
Local Abbreviation p := (ncols D).

Hypothesis D_wf : wf_matrix D.
Hypothesis X_length : length X = p.
Hypothesis X_rows : Forall (fun x => length x = m) X.
Hypothesis left_inverse :
  forall c, length c = p -> matvec X (matvec (mrows D) c) = c.

Lemma design_row_length i : (i < m)%nat -> length (nth i (mrows D) []) = p.
Proof.
  intro Hi. unfold wf_matrix in D_wf. rewrite Forall_forall in D_wf.
  apply D_wf. apply nth_In. exact Hi.
Qed.

Lemma inverse_row_length k : (k < p)%nat -> length (nth k X []) = m.
Proof.
  intro Hk. rewrite Forall_forall in X_rows.
  apply X_rows. apply nth_In. rewrite X_length. exact Hk.
Qed.

(** The trace of the smoother matrix [D X] is the trace of [X D], the
    identity of size [p]. *)
Lemma smoother_trace :
  sum_below m
    (fun i => nth i (matvec (mrows D) (matvec X (unit_vector m i))) 0)
  = INR p.
Proof.
  transitivity
    (sum_below m (fun i => sum_below p (fun k =>
       nth k (nth i (mrows D) []) 0 * nth i (nth k X []) 0))).
  { apply sum_below_ext. intros i Hi.
    rewrite nth_matvec, dot_sum_below, (design_row_length Hi).
    apply sum_below_ext. intros k Hk. f_equal.
    rewrite nth_matvec.
    rewrite <- (inverse_row_length Hk) at 1.
    apply dot_unit_vector. }
  rewrite sum_below_swap. rewrite <- (sum_below_one p).
  apply sum_below_ext. intros k Hk.
  transitivity (nth k (matvec X (matvec (mrows D) (unit_vector p k))) 0).
  - rewrite nth_matvec, dot_sum_below, (inverse_row_length Hk).
    apply sum_below_ext. intros i Hi. rewrite Rmult_comm. f_equal.
    rewrite nth_matvec.
    rewrite <- (design_row_length Hi) at 1.
    symmetry. apply dot_unit_vector.
  - rewrite left_inverse by apply unit_vector_length.
    rewrite unit_vector_nth by exact Hk. rewrite Nat.eqb_refl. reflexivity.
Qed.

End Trace.

(** The sum of the squares of the residual matrix, row by row. *)
Lemma residual_dof_rows D X :
  Forall (fun x => length x = nrows D) X ->
  residual_dof D X
  = sum_below (nrows D) (fun i =>
      sum_of_squares
        (vsub (unit_vector (nrows D) i)
              (nth i (matmul (nrows D) (mrows D) X) []))).
Proof.
  intro HX. unfold residual_dof, residual_entries, sum_below.
  set (H := matmul (nrows D) (mrows D) X).
  assert (HHl : length H = nrows D) by apply matmul_length.
  rewrite <- (@concat_zipWith_rows Rminus (nrows D));
    [| apply eye_rows_rows | apply matmul_rows; exact HX].
  rewrite (rows_as_map H []) at 1. rewrite HHl, eye_rows_units.
  rewrite zipWith_map_seq, concat_map, map_map, <- vsum_concat, map_map.
  f_equal. apply map_ext. intro i. apply vsum_squares.
Qed.

(** The residual degrees of freedom of a fit whose normal equations have
    one solution: observations minus coefficients. *)
Lemma residual_dof_value D X :
  wf_matrix D -> length X = ncols D ->
  Forall (fun x => length x = nrows D) X ->
  matmul (nrows D) (mrows (einsum_gram D)) X = transpose (ncols D) (mrows D) ->
  nonsingular (ncols D) (mrows (einsum_gram D)) ->
  residual_dof D X = INR (nrows D) - INR (ncols D).
Proof.
  intros HD HXl HXr Hmul Hns.
  assert (Hinv : forall c, length c = ncols D ->
                   matvec X (matvec (mrows D) c) = c).
  { intros c Hc.
    apply (@nonsingular_inj (ncols D) (mrows (einsum_gram D)) _ c Hns);
      [rewrite matvec_length; exact HXl | exact Hc |].
    rewrite <- (@matvec_matmul (nrows D) (mrows (einsum_gram D)) X _ HXr).
    rewrite Hmul. symmetry. apply (@gram_matvec D HD c). }
  rewrite (@residual_dof_rows D X HXr).
  rewrite <- (@smoother_trace D X HD HXl HXr Hinv).
  rewrite <- (sum_below_one (nrows D)), <- sum_below_minus.
  apply sum_below_ext. intros i Hi.
  rewrite (@smoother_row D X HD HXr Hmul i Hi).
  apply (@residual_row D X HD HXr Hmul i Hi).
Qed.



(** * [sample_coef_posterior]: the samples it returns *)

(** ** A column added to a matrix, a block written into an array *)

Lemma bdata_scalar_l {A B C} (f : A -> B -> C) s x : forall d,
  length d = product s ->
  bdata f (repeat 1%nat (length s)) s [x] d = map (f x) d.
Proof.
  induction s as [|n s IH]; intros d H; simpl in *.
  - destruct d as [|y [|]]; simpl in *; try discriminate; auto.
  - rewrite product_ones. change (slice 0 1 [x]) with [x].
    rewrite flat_map_concat_map.
    transitivity (map (f x) (concat (chunks n (product s) d))).
    2:{ rewrite concat_chunks by assumption. reflexivity. }
    rewrite concat_map. f_equal. unfold chunks. rewrite map_map.
    apply map_ext_in. intros i Hi. apply in_seq in Hi.
    fold (bidx n i). rewrite bidx_id by lia.
    apply IH. apply (slice_length (n:=n)); auto; lia.
Qed.

Lemma slice_one (v : vec) i :
  (i < length v)%nat -> slice i 1 v = [nth i v 0].
Proof.
  revert i. induction v as [|a v IH]; intros i Hi; [simpl in Hi; lia|].
  destruct i as [|i].
  - reflexivity.
  - rewrite slice_S. cbn [skipn nth]. apply IH. simpl in Hi. lia.
Qed.

Lemma zipWith_seq {B C} (g : R -> B -> C) (h : nat -> B) : forall (a : vec) s,
  zipWith g a (map h (seq s (length a)))
  = map (fun i => g (nth (i - s) a 0) (h i)) (seq s (length a)).
Proof.
  induction a as [|x a IH]; intro s; [reflexivity|].
  cbn [length seq map zipWith]. rewrite Nat.sub_diag. cbn [nth]. f_equal.
  rewrite IH. apply map_ext_in. intros i Hi. apply in_seq in Hi.
  replace (i - s)%nat with (S (i - S s)) by lia. reflexivity.
Qed.

(** [a[:, None] + X] for a vector [a] and a matrix [X]. *)
Lemma bdata_column (f : R -> R -> R) p k (a xs : vec) :
  length a = p -> length xs = (p * k)%nat ->
  bdata f [p; 1%nat] [p; k] a xs
  = concat (zipWith (fun x row => map (f x) row) a (chunks p k xs)).
Proof.
  intros Ha Hxs. subst p.
  set (p := length a) in *.
  change (bdata f [p; 1%nat] [p; k] a xs)
    with (flat_map
            (fun i => bdata f [1%nat] [k]
                        (slice (bidx p i) (product [1%nat]) a)
                        (slice (bidx p i) (product [k]) xs))
            (seq 0 (bdim p p))).
  replace (bdim p p) with p by (unfold bdim; destruct (Nat.eqb p 1); auto).
  rewrite flat_map_concat_map. f_equal.
  unfold chunks, p. rewrite zipWith_seq. fold p.
  apply map_ext_in. intros i Hi. apply in_seq in Hi.
  rewrite bidx_id by lia. rewrite Nat.sub_0_r.
  cbn [product fold_right]. rewrite !Nat.mul_1_r.
  rewrite slice_one by (fold p; lia).
  change [1%nat] with (repeat 1%nat (length [k])).
  apply bdata_scalar_l. cbn [product fold_right]. rewrite Nat.mul_1_r.
  apply (@slice_length _ p i k xs); [lia | exact Hxs].
Qed.

Lemma zipWith_second {A B} (a : list A) (b : list B) :
  length a = length b -> zipWith (fun _ x => x) a b = b.
Proof.
  revert b. induction a as [|x a IH]; intros [|y b] H; simpl in *;
    try discriminate; [reflexivity|]. rewrite IH by lia. reflexivity.
Qed.

Lemma shifted_rows (a : vec) (X : list vec) k :
  Forall (fun r => length r = k) X ->
  Forall (fun r => length r = k) (shifted a X).
Proof.
  revert a. induction X as [|r X IH]; intros [|x a] H; cbn; try constructor.
  - apply Forall_cons_iff in H. rewrite length_map. tauto.
  - apply Forall_cons_iff in H. apply IH. tauto.
Qed.

Lemma centered_shifted (a : vec) (X : list vec) :
  length a = length X -> centered a (shifted a X) = X.
Proof.
  revert a. induction X as [|r X IH]; intros [|x a] H; simpl in *;
    try discriminate; [reflexivity|].
  unfold centered, shifted in *. cbn [zipWith]. rewrite IH by lia. f_equal.
  rewrite map_map. rewrite <- (map_id r) at 2.
  apply map_ext. intro s. ring.
Qed.

Section Sample_values.

Variables (mean precision : ndarray R) (n p k : nat).

Hypothesis mean_shape : shape mean = [n; p].
Hypothesis mean_wf : wf mean.
Hypothesis precision_shape : shape precision = [n; p; p].
Hypothesis precision_wf : wf precision.

Lemma mean_unit_length i : (i < n)%nat -> length (slice i p (data mean)) = p.
Proof.
  intro Hi. apply (@slice_length _ n i p (data mean) Hi).
  unfold wf in mean_wf. rewrite mean_wf, mean_shape. simpl. lia.
Qed.

(** One turn of the loop: the block of the unit is overwritten with the
    solution of [L X = Z], shifted by the mean of the unit. *)
Lemma sample_voxel_values i (samples : ndarray R) (g : rng) L :
  (i < n)%nat -> shape samples = [n; p; k] -> wf samples ->
  cholesky_rows p (mrows (index3 precision i)) = Some L ->
  exists X,
    length X = p /\ Forall (fun r => length r = k) X /\
    matmul k L X = draws_block g (position g) p k /\
    sample_voxel mean precision p k i (samples, g)
    = Ok (mk_ndarray [n; p; k]
            (firstn (i * (p * k)) (data samples)
             ++ concat (shifted (slice i p (data mean)) X)
             ++ skipn (S i * (p * k)) (data samples)),
          mk_rng (draws g) (position g + p * k)).
Proof.
  intros Hi Hs Hwf HL. unfold sample_voxel.
  destruct (@unit_square precision n p precision_shape precision_wf i Hi)
    as [Hul Hur].
  assert (Hsq : nrows (index3 precision i) = ncols (index3 precision i)).
  { unfold nrows. rewrite Hul.
    rewrite (@index3_unit precision n p precision_shape). reflexivity. }
  rewrite (linalg_cholesky_rows _ Hsq).
  replace (nrows (index3 precision i)) with p by (unfold nrows; auto).
  rewrite HL. cbn [randn bind].
  destruct (cholesky_factor (conj Hul Hur) HL) as [[HLl HLr] Hns].
  replace (ncols (index3 precision i)) with p
    by (rewrite (@index3_unit precision n p precision_shape); auto).
  set (Z := to_matrix (mk_ndarray [p; k]
                         (map (draws g) (seq (position g) (p * k))))).
  assert (HZwf : wf_matrix Z).
  { unfold Z, to_matrix, wf_matrix; simpl. apply chunks_rows.
    rewrite length_map, length_seq. reflexivity. }
  assert (HZn : nrows Z = p)
    by (unfold Z, to_matrix, nrows; simpl; apply chunks_length).
  assert (Hasq : nrows (mk_matrix p L) = ncols (mk_matrix p L)) by exact HLl.
  assert (Hbr : nrows Z = nrows (mk_matrix p L))
    by (rewrite HZn; symmetry; exact HLl).
  assert (Hns' : nonsingular (nrows (mk_matrix p L)) (mrows (mk_matrix p L)))
    by (unfold nrows; simpl; rewrite HLl; exact Hns).
  destruct (@linalg_solve_complete (mk_matrix p L) Z HLr HZwf Hasq Hbr Hns')
    as [X HX].
  destruct (@linalg_solve_sound (mk_matrix p L) Z HLr HZwf Hasq Hbr X HX)
    as (HXc & HXn & HXwf & HXmul & _).
  rewrite HX. cbn [bind].
  exists (mrows X).
  assert (HXl : length (mrows X) = p).
  { unfold nrows in HXn. cbn [mrows] in HXn. congruence. }
  assert (HXk : ncols X = k) by exact HXc.
  assert (HXr : Forall (fun r => length r = k) (mrows X)).
  { unfold wf_matrix in HXwf. rewrite HXk in HXwf. exact HXwf. }
  split; [exact HXl|]. split; [exact HXr|]. split; [exact HXmul|].
  assert (Hv : broadcast Rplus (index_column mean i) (of_matrix X)
               = Ok (mk_ndarray [p; k]
                       (concat (shifted (slice i p (data mean)) (mrows X))))).
  { unfold index_column, of_matrix, broadcast, ndim.
    rewrite mean_shape. cbn [shape data length Nat.max].
    replace (nrows X) with p by (symmetry; exact HXl). rewrite HXk.
    change (pad 2 [p; 1%nat]) with [p; 1%nat].
    change (pad 2 [p; k]) with [p; k].
    cbn [compatible zipWith]. rewrite dims_agree_refl.
    replace (dims_agree 1 k) with true
      by (unfold dims_agree; rewrite (Nat.eqb_refl 1), orb_true_r; reflexivity).
    cbn [andb]. rewrite bdim_refl.
    change (bdim 1 k) with k. do 2 f_equal.
    rewrite (@bdata_column Rplus p k _ _ (mean_unit_length Hi)).
    - replace (chunks p k (concat (mrows X))) with (mrows X)
        by (rewrite <- HXl; symmetry; apply chunks_concat; exact HXr).
      reflexivity.
    - rewrite (concat_rows_length HXr), HXl. reflexivity. }
  rewrite Hv. cbn [bind]. unfold setitem3. rewrite Hs.
  assert (Hblock : length (slice i (p * k) (data samples)) = (p * k)%nat).
  { apply (@slice_length _ n i (p * k) (data samples) Hi).
    unfold wf in Hwf. rewrite Hwf, Hs. simpl. lia. }
  assert (Hnew : length (concat (shifted (slice i p (data mean)) (mrows X)))
                 = (p * k)%nat).
  { rewrite (concat_rows_length (shifted_rows _ HXr)).
    unfold shifted. rewrite zipWith_length, (mean_unit_length Hi), HXl.
    rewrite Nat.min_id. reflexivity. }
  rewrite broadcast_same.
  - cbn [bind shape data].
    destruct (list_eq_dec Nat.eq_dec [p; k] [p; k]) as [_|E]; [|contradiction].
    rewrite zipWith_second by congruence. reflexivity.
  - reflexivity.
  - unfold wf. cbn [shape data product fold_right]. rewrite Hblock. lia.
  - unfold wf. cbn [shape data product fold_right]. rewrite Hnew. lia.
Qed.

End Sample_values.

(** ** Blocks of an array after a block was overwritten *)

Lemma slice_overwrite_same {A} i c (old new rest : list A) :
  length new = c -> (i * c <= length old)%nat ->
  slice i c (firstn (i * c) old ++ new ++ rest) = new.
Proof.
  intros Hn Ho. unfold slice.
  rewrite skipn_app, length_firstn.
  replace (Nat.min (i * c) (length old)) with (i * c)%nat by lia.
  rewrite Nat.sub_diag, skipn_O.
  rewrite skipn_all2 by (rewrite length_firstn; lia).
  cbn [app]. rewrite firstn_app, Hn, Nat.sub_diag, firstn_O, app_nil_r.
  rewrite <- Hn. apply firstn_all.
Qed.

Lemma slice_overwrite_other {A} i j c (old rest : list A) :
  (j < i)%nat -> (i * c <= length old)%nat ->
  slice j c (firstn (i * c) old ++ rest) = slice j c old.
Proof.
  intros Hj Ho. unfold slice.
  rewrite skipn_app, length_firstn.
  replace (Nat.min (i * c) (length old)) with (i * c)%nat by lia.
  replace (j * c - i * c)%nat with 0%nat by nia.
  rewrite skipn_O, firstn_app, length_skipn, length_firstn.
  replace (Nat.min (i * c) (length old)) with (i * c)%nat by lia.
  replace (c - (i * c - j * c))%nat with 0%nat by nia.
  rewrite firstn_O, app_nil_r.
  rewrite skipn_firstn_comm, firstn_firstn.
  replace (Nat.min c (i * c - j * c)) with c by nia.
  reflexivity.
Qed.

Lemma overwrite_block_length {A} i c (old new : list A) n :
  length new = c -> length old = (n * c)%nat -> (i < n)%nat ->
  length (firstn (i * c) old ++ new ++ skipn (S i * c) old) = (n * c)%nat.
Proof.
  intros Hn Ho Hi. rewrite !length_app, length_firstn, length_skipn, Hn, Ho.
  nia.
Qed.

(** ** The loop over the units *)

Section Sample_loop_values.

Variables (mean precision : ndarray R) (n p k : nat).

Hypothesis mean_shape : shape mean = [n; p].
Hypothesis mean_wf : wf mean.
Hypothesis precision_shape : shape precision = [n; p; p].
Hypothesis precision_wf : wf precision.

Lemma for_range_values len : forall s samples g samples' g',
  (s + len <= n)%nat -> shape samples = [n; p; k] -> wf samples ->
  for_range (sample_voxel mean precision p k) (seq s len) (samples, g)
  = Ok (samples', g') ->
  shape samples' = [n; p; k] /\ wf samples' /\
  g' = mk_rng (draws g) (position g + len * (p * k)) /\
  (forall j, (j < s)%nat ->
     slice j (p * k) (data samples') = slice j (p * k) (data samples)) /\
  (forall j, (s <= j < s + len)%nat ->
     unit_drawn mean precision p k g (position g + (j - s) * (p * k))
       samples' j).
Proof.
  induction len as [|len IH]; intros s samples g samples' g' Hn Hs Hwf Hrun.
  - cbn [seq for_range] in Hrun. injection Hrun as <- <-.
    split; [exact Hs|]. split; [exact Hwf|]. split.
    + destruct g. cbn. f_equal. lia.
    + split; [reflexivity | intros j Hj; lia].
  - cbn [seq for_range] in Hrun.
    assert (Hi : (s < n)%nat) by lia.
    pose proof (@sample_voxel_step mean precision n p k mean_shape
                  precision_shape precision_wf s samples g Hi Hs) as Hstep.
    destruct (cholesky_rows p (mrows (index3 precision s))) as [L|] eqn:HL.
    2:{ rewrite Hstep in Hrun. discriminate. }
    clear Hstep.
    destruct (@sample_voxel_values mean precision n p k mean_shape mean_wf
                precision_shape precision_wf s samples g L Hi Hs Hwf HL)
      as (X & HXl & HXr & HXmul & Hstep).
    rewrite Hstep in Hrun. cbn [bind] in Hrun.
    set (samples1 := mk_ndarray [n; p; k]
                       (firstn (s * (p * k)) (data samples)
                        ++ concat (shifted (slice s p (data mean)) X)
                        ++ skipn (S s * (p * k)) (data samples))) in *.
    assert (Hold : length (data samples) = (n * (p * k))%nat).
    { unfold wf in Hwf. rewrite Hwf, Hs. simpl. lia. }
    assert (Hnew : length (concat (shifted (slice s p (data mean)) X))
                   = (p * k)%nat).
    { rewrite (concat_rows_length (shifted_rows _ HXr)).
      unfold shifted. rewrite zipWith_length, HXl.
      rewrite (@mean_unit_length mean n p mean_shape mean_wf s Hi).
      rewrite Nat.min_id. reflexivity. }
    assert (Hwf1 : wf samples1).
    { unfold wf, samples1. cbn [shape data product fold_right].
      rewrite (@overwrite_block_length _ s (p * k) _ _ n Hnew Hold Hi). lia. }
    destruct (IH (S s) samples1 _ samples' g' ltac:(lia) eq_refl Hwf1 Hrun)
      as (Hs' & Hwf' & Hg' & Hkeep & Hdrawn).
    cbn [draws position] in Hg'.
    split; [exact Hs'|]. split; [exact Hwf'|]. split.
    + rewrite Hg'. f_equal. lia.
    + split.
      * intros j Hj. rewrite (Hkeep j ltac:(lia)). unfold samples1. cbn [data].
        apply slice_overwrite_other; [exact Hj | nia].
      * intros j Hj. destruct (Nat.eq_dec j s) as [->|Hne].
        -- exists L, X. rewrite Nat.sub_diag, Nat.mul_0_l, Nat.add_0_r.
           repeat (split; [assumption|]).
           rewrite (Hkeep s ltac:(lia)). unfold samples1. cbn [data].
           apply slice_overwrite_same; [exact Hnew | nia].
        -- destruct (Hdrawn j ltac:(lia)) as (L' & X' & H1 & H2 & H3 & H4 & H5).
           exists L', X'. repeat (split; [assumption|]).
           split; [|exact H5].
           rewrite H4. unfold draws_block. cbn [draws position].
           do 3 f_equal. nia.
Qed.

End Sample_loop_values.

(** ** The factor that [np.linalg.cholesky] returns *)

Lemma map_hd_zipWith_cons (c : vec) : forall (L : list vec),
  length c = length L -> map (hd 0) (zipWith cons c L) = c.
Proof.
  induction c as [|ci c IH]; intros [|r L] H; simpl in *; try discriminate;
    [reflexivity|]. rewrite IH by lia. reflexivity.
Qed.

Lemma map_tl_zipWith_cons (c : vec) : forall (L : list vec),
  length c = length L -> map (@tl R) (zipWith cons c L) = L.
Proof.
  induction c as [|ci c IH]; intros [|r L] H; simpl in *; try discriminate;
    [reflexivity|]. rewrite IH by lia. reflexivity.
Qed.

Lemma scale_zeros x n : scale x (zeros n) = zeros n.
Proof.
  unfold scale, zeros. induction n as [|n IH]; [reflexivity|].
  cbn [repeat map]. rewrite IH. f_equal. ring.
Qed.

Lemma vadd_zeros_l (v : vec) : vadd (zeros (length v)) v = v.
Proof.
  unfold vadd, zeros. induction v as [|a v IH]; [reflexivity|].
  cbn [length repeat zipWith]. rewrite IH. f_equal. ring.
Qed.

(** The quadratic form of a symmetric matrix that was factored is that of
    [L L^T]: [x^T P x = |L^T x|^2]. *)
Lemma cholesky_quadratic n : forall P L,
  square_rows n P -> symmetric P -> cholesky_rows n P = Some L ->
  forall x, length x = n -> quad P x = sum_of_squares (lc n x L).
Proof.
  induction n as [|n IH]; intros P L Hsq Hsym HL x Hx.
  - destruct x; [|discriminate]. reflexivity.
  - destruct (square_rows_cons Hsq) as (a & u & rest & -> & Hu & Hl & Hrows).
    destruct (symmetric_block Hsym Hu Hl) as [-> HsymC].
    simpl in HL. destruct (Rlt_dec 0 a) as [Ha|]; [|discriminate].
    set (c := map (fun r => hd 0 r / sqrt a) rest) in *.
    destruct (cholesky_rows n (schur_complement c rest)) as [L'|] eqn:HL';
      [|discriminate].
    injection HL as <-.
    assert (Hc : length c = n) by (unfold c; vlen).
    pose proof (@schur_rows n c rest Hl Hrows Hc) as HSsq.
    destruct (cholesky_factor HSsq HL') as [[HLl HLr] _].
    destruct x as [|x1 x']; [discriminate|]. simpl in Hx.
    assert (Hx' : length x' = n) by lia.
    rewrite (@quad_complete_square n) by (auto; lia). fold c.
    rewrite (IH _ _ HSsq (@schur_symmetric n c rest Hc Hl Hrows HsymC) HL' x' Hx').
    cbn [lc].
    rewrite (@lc_cons_rows n x' (zipWith cons c L')
               (zipWith_cons_rows c HLr)).
    rewrite map_hd_zipWith_cons, map_tl_zipWith_cons by congruence.
    unfold scale at 1. cbn [map]. fold (scale x1 (zeros n)).
    rewrite scale_zeros. unfold vadd at 1. cbn [zipWith].
    fold (vadd (zeros n) (lc n x' L')).
    assert (Hlc : length (lc n x' L') = n) by (apply lc_length; exact HLr).
    pose proof (vadd_zeros_l (lc n x' L')) as E. rewrite Hlc in E.
    rewrite E. unfold sum_of_squares. cbn [dot]. ring.
Qed.

(** ** The samples of every unit *)

Lemma atleast_2d_data {A} (a : ndarray A) : data (atleast_2d a) = data a.
Proof. unfold atleast_2d. destruct (shape a) as [|? [|]]; reflexivity. Qed.

Lemma atleast_2d_wf {A} (a : ndarray A) : wf a -> wf (atleast_2d a).
Proof.
  unfold wf, atleast_2d. intro H.
  destruct (shape a) as [|s0 [|s1 s]] eqn:E; cbn [shape data]; rewrite H;
    try rewrite E; simpl; lia.
Qed.

(** X14.  When [sample_coef_posterior] returns, the generator has
    advanced by one draw per sample and coefficient of every unit, and the
    samples of each unit solve [L (S - mean) = Z]: [Z] holds the draws of
    the unit in the order they were drawn, [S - mean] the samples with the
    mean of the unit subtracted from every column, and [L] is the Cholesky
    factor of the precision of the unit, whose quadratic form is that of
    [L L^T] when the precision is symmetric. *)
Theorem sample_coef_posterior_values mean precision n p n_samples g samples g' :
  shape (atleast_2d mean) = [n; p] -> wf mean ->
  wf precision -> size precision = (n * (p * p))%nat ->
  sample_coef_posterior mean precision n_samples g = Ok (samples, g') ->
  let k := Z.to_nat n_samples in
  g' = mk_rng (draws g) (position g + n * (p * k))
  /\ forall i, (i < n)%nat ->
       exists L,
         cholesky_rows p (unit_precision n p precision i) = Some L
         /\ matmul k L (centered (slice i p (data mean))
                          (unit_samples p k samples i))
            = draws_block g (position g + i * (p * k)) p k
         /\ (symmetric (unit_precision n p precision i) ->
             forall x, length x = p ->
               quad (unit_precision n p precision i) x
               = sum_of_squares (lc p x L)).
Proof.
  intros Hm Hmwf Hpwf Hsize Hrun k.
  rewrite (@sample_unfold mean precision n p n_samples g Hm Hsize) in Hrun.
  destruct (Z_lt_le_dec n_samples 0) as [Hneg|Hk].
  { rewrite np_zeros_negative in Hrun by exact Hneg. discriminate. }
  rewrite np_zeros_ok in Hrun by exact Hk. cbn [bind] in Hrun. fold k in Hrun.
  set (precision3 := mk_ndarray [n; p; p] (data precision)) in *.
  set (zero := mk_ndarray [n; p; k] (repeat 0 (product [n; p; k]))) in *.
  destruct (for_range (sample_voxel (atleast_2d mean) precision3 p k)
              (seq 0 n) (zero, g)) as [[raw g1]|e] eqn:Hloop; [|discriminate].
  cbn [bind] in Hrun. injection Hrun as <- <-.
  assert (Hp3wf : wf precision3)
    by (apply (@reshaped_wf precision n p Hpwf Hsize)).
  assert (Hzwf : wf zero) by (unfold wf, zero; cbn [shape data]; apply repeat_length).
  destruct (@for_range_values (atleast_2d mean) precision3 n p k Hm
              (atleast_2d_wf Hmwf) eq_refl Hp3wf n 0%nat zero g raw g1
              ltac:(lia) eq_refl Hzwf Hloop)
    as (Hs & Hwf & Hg & _ & Hdrawn).
  split; [exact Hg|].
  intros i Hi.
  destruct (Hdrawn i ltac:(lia)) as (L & X & HL & HXl & HXr & HXmul & Hblock).
  rewrite Nat.sub_0_r in HXmul. rewrite atleast_2d_data in Hblock.
  exists L. split; [exact HL|]. split.
  - unfold unit_samples, squeeze. cbn [data]. rewrite Hblock.
    assert (Hmu : length (slice i p (data mean)) = p).
    { rewrite <- (atleast_2d_data mean).
      apply (@mean_unit_length (atleast_2d mean) n p Hm (atleast_2d_wf Hmwf) i Hi). }
    assert (Hsl : length (shifted (slice i p (data mean)) X) = p).
    { unfold shifted. rewrite zipWith_length, Hmu, HXl. apply Nat.min_id. }
    replace (chunks p k (concat (shifted (slice i p (data mean)) X)))
      with (shifted (slice i p (data mean)) X)
      by (rewrite <- Hsl at 2; symmetry; apply chunks_concat;
          apply shifted_rows; exact HXr).
    rewrite centered_shifted by congruence. exact HXmul.
  - intros Hsym x Hx.
    apply (@cholesky_quadratic p (unit_precision n p precision i) L); auto.
    apply (@unit_square precision3 n p eq_refl Hp3wf i Hi).
Qed.

Lemma sample_coef_posterior_values_witness :
  let mean := mk_ndarray [2%nat] [0; 0] in
  let precision := of_matrix skew_precision in
  let samples := mk_ndarray [2%nat; 2%nat] [1; 0; -1; 1] in
  mk_rng (draws unit_draws) 4
  = mk_rng (draws unit_draws) (position unit_draws + 1 * (2 * 2))
  /\ forall i, (i < 1)%nat ->
       exists L,
         cholesky_rows 2 (unit_precision 1 2 precision i) = Some L
         /\ matmul 2 L (centered (slice i 2 (data mean))
                          (unit_samples 2 2 samples i))
            = draws_block unit_draws (position unit_draws + i * (2 * 2)) 2 2
         /\ (symmetric (unit_precision 1 2 precision i) ->
             forall x, length x = 2%nat ->
               quad (unit_precision 1 2 precision i) x
               = sum_of_squares (lc 2 x L)).
Proof.
  intros mean precision samples.
  apply (@sample_coef_posterior_values mean precision 1%nat 2%nat 2%Z
           unit_draws samples (mk_rng (draws unit_draws) 4)).
  - reflexivity.
  - reflexivity.
  - reflexivity.
  - reflexivity.
  - exact sample_skew_precision.
Defined.

(** * [probabilistic_least_squares]: the posterior precision of one unit *)

(** X15.  For one vector of observations, when the call that does not ask
    for the posterior precision returns a mean and a variance, the call
    that asks for it returns the same mean and variance, squeezed, and the
    unscaled precision with every element divided by the variance. *)
Theorem pls_single_precision D reg (d : vec) mean var :
  wf_matrix D -> regularization_ok D reg -> length d = nrows D ->
  probabilistic_least_squares D (mk_ndarray [nrows D] d) reg false
  = Ok (Mean_Variance mean var) ->
  exists U r,
    pls_precision D reg = Ok U /\ data var = [r] /\
    probabilistic_least_squares D (mk_ndarray [nrows D] d) reg true
    = Ok (Mean_Variance_Precision
            (squeeze (atleast_2d mean)) var
            (squeeze (mk_ndarray [1%nat; ncols D; ncols D]
                        (map (fun u => fdiv (Fin u) r) (concat (mrows U)))))).
Proof.
  intros HD Hreg Hd Hrun.
  set (y := mk_ndarray [nrows D] d) in *.
  assert (Hy : wf y) by (unfold wf, y; simpl; lia).
  destruct (@pls_eval D y reg false [] HD Hreg eq_refl Hy)
    as (U & HU & Uwf & Un & Uc & Hfalse).
  destruct (@pls_eval D y reg true [] HD Hreg eq_refl Hy)
    as (U' & HU' & _ & _ & _ & Htrue).
  assert (U' = U) by congruence. subst U'.
  destruct (@pls_single_ok D reg d mean var HD Hreg Hd Hrun)
    as (U' & X & HU'' & _ & _ & _ & _ & _ & _ & _ & Hmean & Hvar).
  rewrite Hfalse in Hrun. rewrite Htrue.
  destruct (linalg_solve U (swapaxes D)) as [P|e]; [|discriminate].
  cbv zeta in Hrun |- *. cbn [bind negb] in Hrun |- *.
  injection Hrun as Hpm Hpv. rewrite Hpm, Hpv.
  exists U. eexists. split; [exact HU|]. split; [rewrite Hvar; reflexivity|].
  assert (Usq : nrows U = ncols U) by congruence.
  assert (Ha : atleast_2d mean = mk_ndarray [1%nat; ncols U] (data mean))
    by (rewrite Hmean, Uc; reflexivity).
  rewrite (@pls_tail_single U (data mean) mean var
             (fdiv (Fin (sum_of_squares (residual D (matvec X d) d)))
                   (Fin (residual_dof D X))) 0%nat Uwf Usq Ha).
  - rewrite Ha, Uc. reflexivity.
  - rewrite Hvar. reflexivity.
  - lia.
  - rewrite Hvar. reflexivity.
Qed.

Lemma pls_single_precision_witness :
  exists var U r,
    pls_precision test_design None = Ok U /\ data var = [r] /\
    probabilistic_least_squares test_design (mk_ndarray [3%nat] [1; 3; 5])
      None true
    = Ok (Mean_Variance_Precision
            (squeeze (atleast_2d (mk_ndarray [2%nat] [1; 2]))) var
            (squeeze (mk_ndarray [1%nat; 2%nat; 2%nat]
                        (map (fun u => fdiv (Fin u) r) (concat (mrows U)))))).
Proof.
  destruct test_run as (var & Hrun). exists var.
  apply (@pls_single_precision test_design None [1; 3; 5]
           (mk_ndarray [2%nat] [1; 2]) var test_design_wf I eq_refl Hrun).
Defined.

(** * [sample_coef_posterior]: the shapes it refuses *)

(** X16.  When the mean, taken with at least two axes, has [n] rows of [p]
    coefficients and the precision does not hold [n * p * p] elements, the
    call raises the reshape error, whatever the number of samples asked
    for and whatever the generator. *)
Theorem sample_coef_posterior_precision_size
    (mean precision : ndarray R) n_samples g n p :
  shape (atleast_2d mean) = [n; p] ->
  size precision <> (n * (p * p))%nat ->
  sample_coef_posterior mean precision n_samples g
  = Raise (ValueError cannot_reshape).
Proof.
  intros Hm Hsize. unfold sample_coef_posterior, unpack2, reshape.
  rewrite Hm. cbn [bind]. 
  destruct (Nat.eqb_spec (product [n; p; p]) (size precision)) as [E|E].
  - exfalso. apply Hsize. rewrite <- E. simpl. lia.
  - reflexivity.
Qed.

Lemma sample_coef_posterior_precision_size_witness :
  sample_coef_posterior (mk_ndarray [2%nat] [0; 0])
    (mk_ndarray [3%nat] [1; 0; 1]) 5 zero_rng
  = Raise (ValueError cannot_reshape).
Proof.
  apply (@sample_coef_posterior_precision_size
           (mk_ndarray [2%nat] [0; 0]) (mk_ndarray [3%nat] [1; 0; 1])
           5%Z zero_rng 1%nat 2%nat).
  - reflexivity.
  - unfold size. simpl. lia.
Defined.

(** X17.  A mean with three or more axes is refused when its shape is
    unpacked into the number of voxels and the number of coefficients,
    whatever the precision and the number of samples are. *)
Theorem sample_coef_posterior_mean_axes
    (mean precision : ndarray R) n_samples g :
  (2 < length (shape mean))%nat ->
  sample_coef_posterior mean precision n_samples g
  = Raise (ValueError too_many_values_to_unpack).
Proof.
  intros Hm. unfold sample_coef_posterior, unpack2, atleast_2d.
  destruct mean as [s d]. cbn [shape] in *.
  destruct s as [|a [|b [|c s]]]; cbn [length] in Hm; try lia.
  reflexivity.
Qed.

Lemma sample_coef_posterior_mean_axes_witness :
  sample_coef_posterior (mk_ndarray [1%nat; 1%nat; 2%nat] [0; 0])
    (mk_ndarray [2%nat; 2%nat] [1; 0; 0; 1]) 5 zero_rng
  = Raise (ValueError too_many_values_to_unpack).
Proof.
  apply (@sample_coef_posterior_mean_axes
           (mk_ndarray [1%nat; 1%nat; 2%nat] [0; 0])
           (mk_ndarray [2%nat; 2%nat] [1; 0; 0; 1]) 5%Z zero_rng).
  simpl. lia.
Defined.

(** * The functions over any arithmetic *)

(** ** One vector of observations *)

Section Numeric_shapes.

Context {F : Type} {ar : Numeric.Arithmetic F}.

Lemma numeric_transpose_length c (M : list (list F)) :
  length (Numeric.transpose c M) = c.
Proof. revert M; induction c as [|c IH]; intro M; simpl; auto. Qed.

Lemma numeric_gauss_length n : forall (sys : list (Numeric.eqn (F:=F))) X,
  Numeric.gauss n sys = Some X -> length X = n.
Proof.
  induction n as [|n IH]; intros sys X H; simpl in H.
  - injection H as <-. reflexivity.
  - destruct (Numeric.interchange _ sys) as [|p others]; [discriminate|].
    destruct (Numeric.eqb _ _); [discriminate|].
    destruct (Numeric.gauss n _) as [X'|] eqn:E; [|discriminate].
    injection H as <-. simpl. f_equal. eapply IH. exact E.
Qed.

Lemma rows_concat_length (c : nat) (M : list (list F)) :
  Forall (fun r => length r = c) M -> length (concat M) = (length M * c)%nat.
Proof.
  induction M as [|r M IH]; intro H; auto.
  apply Forall_cons_iff in H. destruct H as [Hr HM].
  simpl. rewrite length_app, Hr, IH by exact HM. reflexivity.
Qed.

Lemma numeric_eye_rows_length n : length (Numeric.eye_rows (F:=F) n) = n.
Proof. unfold Numeric.eye_rows. rewrite length_map. apply length_seq. Qed.

Lemma numeric_eye_rows_rows n :
  Forall (fun r => length r = n) (Numeric.eye_rows (F:=F) n).
Proof.
  unfold Numeric.eye_rows. apply Forall_map. apply Forall_forall. intros i _.
  rewrite length_map. apply length_seq.
Qed.

Lemma numeric_gram_shape (D : Numeric.matrix F) :
  Numeric.nrows (Numeric.einsum_gram D) = Numeric.ncols D
  /\ Numeric.ncols (Numeric.einsum_gram D) = Numeric.ncols D
  /\ numeric_wf (Numeric.einsum_gram D).
Proof.
  unfold Numeric.einsum_gram, Numeric.nrows, numeric_wf.
  cbn [Numeric.mrows Numeric.ncols].
  rewrite length_map, numeric_transpose_length.
  split; [reflexivity|]. split; [reflexivity|].
  apply Forall_map. apply Forall_forall. intros r _.
  rewrite length_map. apply numeric_transpose_length.
Qed.


Lemma numeric_of_matrix_wf (M : Numeric.matrix F) :
  numeric_wf M -> wf (Numeric.of_matrix M).
Proof.
  intro H. unfold wf, Numeric.of_matrix. cbn [shape data product fold_right].
  rewrite (rows_concat_length H). unfold Numeric.nrows. lia.
Qed.

Lemma numeric_precision_ok (D : Numeric.matrix F) reg :
  numeric_regularization_ok D reg ->
  exists U, numeric_precision D reg = Ok U
    /\ Numeric.nrows U = Numeric.ncols D /\ Numeric.ncols U = Numeric.ncols D.
Proof.
  destruct (numeric_gram_shape D) as (Gn & Gc & Gwf).
  destruct reg as [R|]; cbn [numeric_regularization_ok numeric_precision].
  - intros (HR & Hn & Hc).
    rewrite broadcast_same.
    + cbn [bind]. eexists. split; [reflexivity|].
      unfold Numeric.to_matrix, Numeric.of_matrix. cbn [shape data].
      rewrite Gn, Gc. unfold Numeric.nrows. cbn [Numeric.mrows Numeric.ncols].
      rewrite chunks_length. split; reflexivity.
    + unfold Numeric.of_matrix. cbn [shape]. congruence.
    + apply numeric_of_matrix_wf. exact Gwf.
    + apply numeric_of_matrix_wf. exact HR.
  - intros _. eexists. split; [reflexivity|]. split; assumption.
Qed.

Lemma numeric_pls_single (D : Numeric.matrix F) (d : list F) reg U :
  numeric_wf D -> length d = Numeric.nrows D ->
  numeric_precision D reg = Ok U ->
  Numeric.nrows U = Numeric.ncols D -> Numeric.ncols U = Numeric.ncols D ->
  let m := Numeric.nrows D in
  let p := Numeric.ncols D in
  let y := mk_ndarray [m] d in
  match Numeric.gauss p (combine (Numeric.mrows U) (Numeric.transpose p (Numeric.mrows D))) with
  | None =>
      Numeric.probabilistic_least_squares D y reg false
      = Raise (LinAlgError Singular_matrix)
  | Some X =>
      exists var,
        Numeric.probabilistic_least_squares D y reg false
        = Ok (Numeric.Mean_Variance
                (mk_ndarray [p]
                   (map (fun r => Numeric.dot r (Numeric.stretch m d))
                        (map (Numeric.stretch m) X)))
                (mk_ndarray [] [var]))
  end.
Proof.
  intros HD Hd HU Un Uc m p y.
  assert (Hsplit : Numeric.probabilistic_least_squares D y reg false
          = (U <- numeric_precision D reg ;;
             pseudoInv <- Numeric.linalg_solve U (Numeric.swapaxes D) ;;
             coef_posterior_mean <- Numeric.einsum_matvec pseudoInv y ;;
             smoother_matrix <- Numeric.einsum_matmul D pseudoInv ;;
             residual_matrix <-
               broadcast Numeric.sub
                 (Numeric.of_matrix (Numeric.eye (Numeric.ncols smoother_matrix)))
                 (Numeric.of_matrix smoother_matrix) ;;
             fitted <- Numeric.einsum_matvec D coef_posterior_mean ;;
             residuals <- broadcast Numeric.sub y fitted ;;
             residual_variance <-
               broadcast Numeric.div (Numeric.sum_last (Numeric.square residuals))
                 (Numeric.sum_last2 (Numeric.square residual_matrix)) ;;
             Ok (Numeric.Mean_Variance coef_posterior_mean residual_variance)))
    by (destruct reg; reflexivity).
  rewrite Hsplit, HU. cbn [bind]. clear Hsplit.
  assert (Hsw : Numeric.nrows (Numeric.swapaxes D) = p)
    by (unfold Numeric.nrows, Numeric.swapaxes; cbn [Numeric.mrows];
        apply numeric_transpose_length).
  unfold Numeric.linalg_solve.
  rewrite Hsw, Un, Uc, !Nat.eqb_refl. cbn [negb].
  cbn [Numeric.swapaxes Numeric.mrows Numeric.ncols].
  fold p. fold m.
  destruct (Numeric.gauss p _) as [X|] eqn:HX; [|reflexivity].
  cbn [bind].
  pose proof (numeric_gauss_length _ _ HX) as HXl.
  (* the mean *)
  unfold Numeric.einsum_matvec at 1. subst y.
  cbn [shape data removelast last Numeric.ncols Numeric.mrows Numeric.nrows].
  rewrite dims_agree_refl, bdim_refl.
  cbn [product fold_right].
  rewrite (@chunks_single F m d Hd). cbn [flat_map]. rewrite app_nil_r.
  cbn [bind app]. unfold Numeric.nrows at 1. cbn [Numeric.mrows].
  rewrite HXl.
  change (Numeric.nrows {| Numeric.ncols := m; Numeric.mrows := X |})
    with (length X).
  rewrite HXl.
  set (mean := map (fun r => Numeric.dot r (Numeric.stretch m d))
                   (map (Numeric.stretch m) X)).
  (* the smoother matrix *)
  unfold Numeric.einsum_matmul.
  change (Numeric.nrows {| Numeric.ncols := m; Numeric.mrows := X |})
    with (length X).
  rewrite HXl. fold p. rewrite dims_agree_refl, bdim_refl.
  cbn [bind Numeric.ncols Numeric.mrows].
  set (smoother := map _ (Numeric.mrows D)).
  assert (Hsm : numeric_wf (Numeric.mk_matrix m smoother)).
  { unfold numeric_wf. cbn [Numeric.ncols Numeric.mrows]. subst smoother.
    apply Forall_map. apply Forall_forall. intros a _.
    rewrite length_map. apply numeric_transpose_length. }
  assert (Hsn : Numeric.nrows (Numeric.mk_matrix m smoother) = m)
    by (unfold Numeric.nrows; cbn [Numeric.mrows]; subst smoother;
        apply length_map).
  (* the residual matrix *)
  rewrite broadcast_same;
    [ | unfold Numeric.of_matrix; cbn [shape Numeric.ncols]; rewrite Hsn;
        unfold Numeric.nrows, Numeric.eye; cbn [Numeric.mrows];
        rewrite numeric_eye_rows_length; reflexivity
      | apply numeric_of_matrix_wf; exact (numeric_eye_rows_rows m)
      | apply numeric_of_matrix_wf; exact Hsm ].
  cbn [bind].
  set (residual_matrix :=
         mk_ndarray (shape (Numeric.of_matrix (Numeric.eye m))) _).
  (* the fitted values and the residuals *)
  unfold Numeric.einsum_matvec.
  cbn [shape data removelast last product fold_right].
  fold p. rewrite dims_agree_refl, bdim_refl.
  cbn [chunks seq map flat_map bind app]. rewrite app_nil_r.
  fold m.
  set (fitted := map _ (map (Numeric.stretch p) (Numeric.mrows D))).
  assert (Hf : length fitted = m)
    by (subst fitted; rewrite !length_map; reflexivity).
  rewrite broadcast_same;
    [ | reflexivity | unfold wf; cbn [shape data product fold_right]; lia
      | unfold wf; cbn [shape data product fold_right]; lia ].
  cbn [bind shape data].
  (* the residual variance *)
  eexists.
  unfold Numeric.sum_last2, Numeric.sum_last, Numeric.square, amap, broadcast,
    ndim.
  subst residual_matrix.
  cbn [shape data removelast last product fold_right chunks seq map length
       Nat.max pad repeat app Nat.sub compatible zipWith bdata bind
       Numeric.of_matrix].
  reflexivity.
Qed.


End Numeric_shapes.

(** X18.  Over any arithmetic, float64 included, and whatever the numbers
    are: for a design whose rows have the declared length, as many
    observations as the design has rows and, if one is given, a
    regularization matrix of matching shape, the call that does not ask
    for the precision raises [LinAlgError: Singular matrix] or returns a
    mean of shape (n_coefs,) and a variance of shape (); it raises nothing
    else. *)
Theorem numeric_pls_outcomes {F} {ar : Numeric.Arithmetic F}
    (D : Numeric.matrix F) (d : list F) reg :
  numeric_wf D -> numeric_regularization_ok D reg ->
  length d = Numeric.nrows D ->
  Numeric.probabilistic_least_squares D (mk_ndarray [Numeric.nrows D] d) reg false
  = Raise (LinAlgError Singular_matrix)
  \/ exists mean var,
       Numeric.probabilistic_least_squares D (mk_ndarray [Numeric.nrows D] d)
         reg false
       = Ok (Numeric.Mean_Variance (mk_ndarray [Numeric.ncols D] mean)
               (mk_ndarray [] [var]))
       /\ length mean = Numeric.ncols D.
Proof.
  intros HD Hreg Hd.
  destruct (numeric_precision_ok D reg Hreg) as (U & HU & Un & Uc).
  pose proof (@numeric_pls_single F ar D d reg U HD Hd HU Un Uc) as Hrun.
  cbv zeta in Hrun.
  destruct (Numeric.gauss _ _) as [X|] eqn:HX; [right | left; exact Hrun].
  destruct Hrun as (var & Hrun).
  eexists. exists var. split; [exact Hrun|].
  rewrite !length_map. apply (numeric_gauss_length _ _ HX).
Qed.

Lemma numeric_pls_outcomes_witness :
  let design :=
    Numeric.mk_matrix 2
      [[PrimFloat.one; PrimFloat.zero]; [PrimFloat.one; PrimFloat.one];
       [PrimFloat.one; PrimFloat.two]] in
  let y := mk_ndarray [3%nat] [PrimFloat.one; PrimFloat.two; PrimFloat.infinity] in
  Numeric.probabilistic_least_squares design y None false
  = Raise (LinAlgError Singular_matrix)
  \/ exists mean var,
       Numeric.probabilistic_least_squares design y None false
       = Ok (Numeric.Mean_Variance (mk_ndarray [2%nat] mean)
               (mk_ndarray [] [var]))
       /\ length mean = 2%nat.
Proof.
  apply (@numeric_pls_outcomes PrimFloat.float Numeric.binary64
           (Numeric.mk_matrix 2
              [[PrimFloat.one; PrimFloat.zero]; [PrimFloat.one; PrimFloat.one];
               [PrimFloat.one; PrimFloat.two]])
           [PrimFloat.one; PrimFloat.two; PrimFloat.infinity] None).
  - repeat constructor.
  - exact I.
  - reflexivity.
Defined.

(** ** An infinite entry of the regularization matrix, without rounding *)

Lemma extended_dot_acc (u v : vec) : forall acc,
  fold_left (fun acc uv => fadd acc (fmul (fst uv) (snd uv)))
    (combine (map Fin u) (map Fin v)) (Fin acc)
  = Fin (acc + dot u v).
Proof.
  revert v. induction u as [|a u IH]; intros [|b v] acc; simpl;
    try (f_equal; ring).
  rewrite IH. f_equal. ring.
Qed.

Lemma extended_dot (u v : vec) :
  Numeric.dot (map Fin u) (map Fin v) = Fin (dot u v).
Proof.
  unfold Numeric.dot. cbn [Numeric.add Numeric.mul Numeric.zero extended].
  rewrite extended_dot_acc. f_equal. ring.
Qed.

Lemma extended_transpose c : forall (M : list vec),
  Numeric.transpose c (map (map Fin) M) = map (map Fin) (transpose c M).
Proof.
  induction c as [|c IH]; intro M; [reflexivity|].
  cbn [Numeric.transpose transpose map]. f_equal.
  - rewrite !map_map. apply map_ext. intros [|x r]; reflexivity.
  - rewrite <- IH. f_equal. rewrite !map_map. apply map_ext.
    intros [|x r]; reflexivity.
Qed.

Lemma finite_matrix_wf (D : matrix) : wf_matrix D -> numeric_wf (finite_matrix D).
Proof.
  intro H. unfold numeric_wf, finite_matrix. cbn [Numeric.ncols Numeric.mrows].
  apply Forall_map. eapply Forall_impl; [|exact H].
  intros r Hr. rewrite length_map. exact Hr.
Qed.

Lemma extended_row_over_infinity (v : vec) (q : float) :
  q = PInf \/ q = NInf ->
  Forall (eq (Fin 0)) (map (fun bi => fdiv bi q) (map Fin v)).
Proof.
  intros Hq. apply Forall_map. apply Forall_map. apply Forall_forall.
  intros x _. destruct Hq; subst q; reflexivity.
Qed.

Lemma extended_update_finite (l : R) (u v : vec) :
  Numeric.update (Fin l) (map Fin u) (map Fin v)
  = map Fin (zipWith (fun x y => x - l * y) u v).
Proof.
  unfold Numeric.update. revert v.
  induction u as [|a u IH]; intros [|b v]; cbn [zipWith map]; try reflexivity.
  rewrite IH. reflexivity.
Qed.

Lemma numeric_gauss_S {F} {ar : Numeric.Arithmetic F} n
    (sys : list (Numeric.eqn (F:=F))) :
  Numeric.gauss (S n) sys
  = match Numeric.interchange (Numeric.pivot_index sys) sys with
    | [] => None
    | p :: others =>
        if Numeric.eqb (Numeric.lead p) Numeric.zero then None
        else
          match Numeric.gauss n (map (Numeric.eliminate p) others) with
          | None => None
          | Some X => Some (Numeric.back p X :: X)
          end
    end.
Proof. reflexivity. Qed.

Lemma extended_gauss_last (q : float) (r : list float) :
  q = PInf \/ q = NInf ->
  Numeric.gauss 1 [([q], r)] = Some [map (fun bi => fdiv bi q) r].
Proof.
  intro Hq. rewrite numeric_gauss_S.
  cbn [Numeric.pivot_index Numeric.idamax Numeric.interchange Numeric.lead
       fst snd hd map Numeric.gauss Numeric.eqb Numeric.zero extended].
  replace (feqb q (Fin 0)) with false by (destruct Hq; subst q; reflexivity).
  reflexivity.
Qed.

Lemma extended_two_by_two (a b c : R) (u0 u1 : vec) :
  a <> 0 ->
  exists x0 x1,
    Numeric.gauss 2 [([Fin a; Fin b], map Fin u0); ([Fin c; PInf], map Fin u1)]
    = Some [x0; x1]
    /\ Forall (eq (Fin 0)) x1.
Proof.
  intro Ha. rewrite numeric_gauss_S.
  cbn [Numeric.pivot_index Numeric.idamax Numeric.lead fst snd hd
       Numeric.abs Numeric.ltb extended fabs fltb].
  destruct (Rlt_dec (Rabs a) (Rabs c)) as [Hlt|Hge].
  - (* the second row is the pivot row *)
    assert (Hc : c <> 0).
    { intro E. subst c. rewrite Rabs_R0 in Hlt.
      pose proof (Rabs_pos a). lra. }
    set (l := a * (1 / c)).
    assert (Hl : l <> 0).
    { unfold l. intro E. apply Rmult_integral in E. destruct E as [E|E];
        [contradiction|]. unfold Rdiv in E. rewrite Rmult_1_l in E.
      revert E. apply Rinv_neq_0_compat. exact Hc. }
    assert (He : exists q,
               (q = PInf \/ q = NInf)
               /\ Numeric.eliminate ([Fin c; PInf], map Fin u1)
                    ([Fin a; Fin b], map Fin u0)
                  = ([q], map Fin (zipWith (fun x y => x - l * y) u0 u1))).
    { unfold Numeric.eliminate.
      cbn [Numeric.lead fst snd hd tl Numeric.one Numeric.mul Numeric.div
           extended fdiv fmul].
      destruct (Req_dec_T c 0) as [E|_]; [contradiction|].
      fold l. rewrite extended_update_finite.
      cbn [Numeric.update zipWith Numeric.sub Numeric.mul extended fmul fsub].
      unfold signed_infinity.
      destruct (Req_dec_T l 0) as [E|_]; [contradiction|].
      destruct (Rlt_dec 0 l); eexists; (split; [|reflexivity]); auto. }
    destruct He as (q & Hq & He).
    cbn [Numeric.interchange nth firstn skipn app map Numeric.lead fst hd
         Numeric.eqb Numeric.zero extended feqb].
    destruct (Req_dec_T c 0) as [E|_]; [contradiction|].
    rewrite He, (extended_gauss_last _ Hq).
    eexists. eexists. split; [reflexivity|].
    apply extended_row_over_infinity. exact Hq.
  - (* no interchange *)
    set (l := c * (1 / a)).
    assert (He : Numeric.eliminate ([Fin a; Fin b], map Fin u0)
                   ([Fin c; PInf], map Fin u1)
                 = ([PInf], map Fin (zipWith (fun x y => x - l * y) u1 u0))).
    { unfold Numeric.eliminate.
      cbn [Numeric.lead fst snd hd tl Numeric.one Numeric.mul Numeric.div
           extended fdiv fmul].
      destruct (Req_dec_T a 0) as [E|_]; [contradiction|].
      fold l. rewrite extended_update_finite.
      reflexivity. }
    cbn [Numeric.interchange map Numeric.lead fst hd
         Numeric.eqb Numeric.zero extended feqb].
    destruct (Req_dec_T a 0) as [E|_]; [contradiction|].
    rewrite He, (extended_gauss_last _ (or_introl eq_refl)).
    eexists. eexists. split; [reflexivity|].
    apply extended_row_over_infinity. left. reflexivity.
Qed.

Lemma extended_gram_2 (D : matrix) :
  ncols D = 2%nat ->
  let c0 := map (hd 0) (mrows D) in
  let c1 := map (hd 0) (map (@tl R) (mrows D)) in
  Numeric.einsum_gram (finite_matrix D)
  = Numeric.mk_matrix 2 [[Fin (dot c0 c0); Fin (dot c0 c1)];
                         [Fin (dot c1 c0); Fin (dot c1 c1)]].
Proof.
  intros Hc c0 c1. unfold Numeric.einsum_gram, finite_matrix.
  cbn [Numeric.ncols Numeric.mrows]. rewrite Hc, extended_transpose.
  cbn [transpose map]. rewrite !extended_dot. reflexivity.
Qed.

Lemma extended_stretch_zeros n (x : list float) :
  Forall (eq (Fin 0)) x -> Forall (eq (Fin 0)) (Numeric.stretch n x).
Proof.
  intro H. unfold Numeric.stretch. destruct (Nat.eqb (length x) 1); [|exact H].
  destruct H as [|a x Ha _]; cbn [hd Numeric.zero extended].
  - apply Forall_forall. intros y Hy. apply repeat_spec in Hy. auto.
  - apply Forall_forall. intros y Hy. apply repeat_spec in Hy. congruence.
Qed.

Lemma extended_stretch_finite n (v : vec) :
  exists w, Numeric.stretch n (map Fin v) = map Fin w.
Proof.
  unfold Numeric.stretch. destruct (Nat.eqb (length (map Fin v)) 1).
  - exists (repeat (hd 0 v) n). rewrite map_repeat. f_equal.
    destruct v; reflexivity.
  - exists v. reflexivity.
Qed.

Lemma extended_dot_zeros (x : list float) (w : vec) :
  Forall (eq (Fin 0)) x -> Numeric.dot x (map Fin w) = Fin 0.
Proof.
  intro H. unfold Numeric.dot. cbn [Numeric.add Numeric.mul Numeric.zero extended].
  generalize (eq_refl (Fin 0)). generalize (Fin 0) at 1 3 as acc.
  revert w. induction H as [|a x Ha Hx IH]; intros [|b w] acc Hacc;
    cbn [map combine fold_left]; auto.
  apply IH. subst a acc. cbn [fst snd fmul fadd]. f_equal. ring.
Qed.

(** [+inf] on the diagonal of the second of two coefficients: whichever
    row the elimination takes as its first pivot row, the last pivot is
    infinite and the row of the pseudo-inverse of the second coefficient
    is zero. *)
Lemma infinite_regularization_second_coefficient (D : matrix) (d : vec)
    (r00 r01 r10 : R) :
  wf_matrix D -> ncols D = 2%nat -> length d = nrows D ->
  dot (map (hd 0) (mrows D)) (map (hd 0) (mrows D)) + r00 <> 0 ->
  exists c var,
    Numeric.probabilistic_least_squares (finite_matrix D)
      (mk_ndarray [nrows D] (map Fin d))
      (Some (Numeric.mk_matrix 2 [[Fin r00; Fin r01]; [Fin r10; PInf]])) false
    = Ok (Numeric.Mean_Variance (mk_ndarray [2%nat] [c; Fin 0])
            (mk_ndarray [] [var])).
Proof.
  intros HD Hc Hd Ha.
  set (reg := Some (Numeric.mk_matrix 2 [[Fin r00; Fin r01]; [Fin r10; PInf]])).
  assert (Hreg : numeric_regularization_ok (finite_matrix D) reg).
  { cbn [reg numeric_regularization_ok finite_matrix Numeric.ncols].
    split; [repeat constructor|]. split; [symmetry; exact Hc|].
    symmetry; exact Hc. }
  destruct (numeric_precision_ok (finite_matrix D) reg Hreg)
    as (U & HU & Un & Uc).
  assert (Hd' : length (map Fin d) = Numeric.nrows (finite_matrix D)).
  { rewrite length_map. unfold Numeric.nrows, finite_matrix.
    cbn [Numeric.mrows]. rewrite length_map. exact Hd. }
  pose proof (@numeric_pls_single float extended (finite_matrix D) (map Fin d)
                reg U (finite_matrix_wf HD) Hd' HU Un Uc) as Hrun.
  cbv zeta in Hrun.
  assert (EU : U = Numeric.mk_matrix 2
                 [[Fin (dot (map (hd 0) (mrows D)) (map (hd 0) (mrows D)) + r00);
                   Fin (dot (map (hd 0) (mrows D))
                            (map (hd 0) (map (@tl R) (mrows D))) + r01)];
                  [Fin (dot (map (hd 0) (map (@tl R) (mrows D)))
                            (map (hd 0) (mrows D)) + r10);
                   PInf]]).
  { unfold numeric_precision, reg in HU.
    rewrite (extended_gram_2 D Hc) in HU. cbv zeta in HU.
    revert HU.
    generalize (dot (map (hd 0) (mrows D)) (map (hd 0) (mrows D)))
               (dot (map (hd 0) (mrows D)) (map (hd 0) (map (@tl R) (mrows D))))
               (dot (map (hd 0) (map (@tl R) (mrows D))) (map (hd 0) (mrows D)))
               (dot (map (hd 0) (map (@tl R) (mrows D)))
                    (map (hd 0) (map (@tl R) (mrows D)))).
    intros g00 g01 g10 g11 HU.
    cbv [broadcast Numeric.of_matrix Numeric.to_matrix ndim shape data
         Numeric.nrows Numeric.ncols Numeric.mrows length Nat.max pad repeat
         Nat.sub app compatible dims_agree Nat.eqb orb andb zipWith bdim bdata
         flat_map seq slice firstn skipn Nat.mul Nat.add product fold_right
         concat bind chunks map Numeric.add extended fadd] in HU.
    injection HU as <-. reflexivity. }
  subst U.
  change (Numeric.ncols (finite_matrix D)) with (ncols D) in Hrun.
  change (Numeric.mrows (finite_matrix D)) with (map (map Fin) (mrows D)) in Hrun.
  change (Numeric.nrows (finite_matrix D))
    with (length (map (map Fin) (mrows D))) in Hrun.
  rewrite Hc, extended_transpose in Hrun.
  cbn [transpose map combine Numeric.mrows] in Hrun.
  destruct (@extended_two_by_two _
              (dot (map (hd 0) (mrows D))
                   (map (hd 0) (map (@tl R) (mrows D))) + r01)
              (dot (map (hd 0) (map (@tl R) (mrows D)))
                   (map (hd 0) (mrows D)) + r10)
              (map (hd 0) (mrows D))
              (map (hd 0) (map (@tl R) (mrows D))) Ha)
    as (x0 & x1 & HX & Hzero).
  rewrite HX in Hrun. destruct Hrun as (var & Hrun).
  rewrite length_map in Hrun. fold (nrows D) in Hrun.
  eexists. exists var. rewrite Hrun. do 3 f_equal.
  cbn [map]. f_equal. f_equal.
  destruct (extended_stretch_finite (nrows D) d) as (w & ->).
  apply extended_dot_zeros. apply extended_stretch_zeros. exact Hzero.
Qed.

Lemma extended_row_over_finite (q : R) (v : vec) :
  q <> 0 ->
  map (fun bi => fdiv bi (Fin q)) (map Fin v) = map Fin (map (fun x => x / q) v).
Proof.
  intro Hq. rewrite !map_map. apply map_ext. intro x. cbn [fdiv].
  destruct (Req_dec_T q 0) as [E|_]; [contradiction | reflexivity].
Qed.

Lemma extended_back_finite (b : R) (u x : vec) :
  zipWith (fun bi xi => fsub bi (fmul xi (Fin b))) (map Fin u) (map Fin x)
  = map Fin (zipWith (fun bi xi => bi - xi * b) u x).
Proof.
  revert x. induction u as [|a u IH]; intros [|c x]; cbn [zipWith map];
    try reflexivity.
  rewrite IH. reflexivity.
Qed.

Lemma extended_two_by_two_first (b c e : R) (u0 u1 : vec) :
  e <> 0 ->
  exists x0 x1,
    Numeric.gauss 2 [([PInf; Fin b], map Fin u0); ([Fin c; Fin e], map Fin u1)]
    = Some [x0; x1]
    /\ Forall (eq (Fin 0)) x0.
Proof.
  intro He. rewrite numeric_gauss_S.
  cbn [Numeric.pivot_index Numeric.idamax Numeric.lead fst snd hd
       Numeric.abs Numeric.ltb extended fabs fltb
       Numeric.interchange map Numeric.eqb Numeric.zero feqb].
  set (l := c * 0).
  assert (Hel : Numeric.eliminate ([PInf; Fin b], map Fin u0)
                  ([Fin c; Fin e], map Fin u1)
                = ([Fin (e - l * b)],
                   map Fin (zipWith (fun x y => x - l * y) u1 u0))).
  { unfold Numeric.eliminate.
    cbn [Numeric.lead fst snd hd tl Numeric.one Numeric.mul Numeric.div
         extended fdiv fmul].
    fold l. rewrite extended_update_finite. reflexivity. }
  rewrite Hel, numeric_gauss_S.
  cbn [Numeric.pivot_index Numeric.idamax Numeric.interchange Numeric.lead
       fst snd hd map Numeric.gauss Numeric.eqb Numeric.zero extended feqb].
  assert (Hq : e - l * b <> 0) by (unfold l; lra).
  destruct (Req_dec_T (e - l * b) 0) as [E|_]; [contradiction|].
  eexists. eexists. split; [reflexivity|].
  unfold Numeric.back.
  cbn [Numeric.lead fst snd hd tl combine fold_right Numeric.sub Numeric.mul
       Numeric.div extended].
  rewrite (extended_row_over_finite _ Hq), extended_back_finite.
  apply extended_row_over_infinity. left. reflexivity.
Qed.

(** [+inf] on the diagonal of the first of two coefficients: its row is
    the first pivot row, with multipliers that are zero. *)
Lemma infinite_regularization_first_coefficient (D : matrix) (d : vec)
    (r01 r10 r11 : R) :
  wf_matrix D -> ncols D = 2%nat -> length d = nrows D ->
  dot (map (hd 0) (map (@tl R) (mrows D)))
      (map (hd 0) (map (@tl R) (mrows D))) + r11 <> 0 ->
  exists c var,
    Numeric.probabilistic_least_squares (finite_matrix D)
      (mk_ndarray [nrows D] (map Fin d))
      (Some (Numeric.mk_matrix 2 [[PInf; Fin r01]; [Fin r10; Fin r11]])) false
    = Ok (Numeric.Mean_Variance (mk_ndarray [2%nat] [Fin 0; c])
            (mk_ndarray [] [var])).
Proof.
  intros HD Hc Hd Ha.
  set (reg := Some (Numeric.mk_matrix 2 [[PInf; Fin r01]; [Fin r10; Fin r11]])).
  assert (Hreg : numeric_regularization_ok (finite_matrix D) reg).
  { cbn [reg numeric_regularization_ok finite_matrix Numeric.ncols].
    split; [repeat constructor|]. split; [symmetry; exact Hc|].
    symmetry; exact Hc. }
  destruct (numeric_precision_ok (finite_matrix D) reg Hreg)
    as (U & HU & Un & Uc).
  assert (Hd' : length (map Fin d) = Numeric.nrows (finite_matrix D)).
  { rewrite length_map. unfold Numeric.nrows, finite_matrix.
    cbn [Numeric.mrows]. rewrite length_map. exact Hd. }
  pose proof (@numeric_pls_single float extended (finite_matrix D) (map Fin d)
                reg U (finite_matrix_wf HD) Hd' HU Un Uc) as Hrun.
  cbv zeta in Hrun.
  assert (EU : U = Numeric.mk_matrix 2
                 [[PInf;
                   Fin (dot (map (hd 0) (mrows D))
                            (map (hd 0) (map (@tl R) (mrows D))) + r01)];
                  [Fin (dot (map (hd 0) (map (@tl R) (mrows D)))
                            (map (hd 0) (mrows D)) + r10);
                   Fin (dot (map (hd 0) (map (@tl R) (mrows D)))
                            (map (hd 0) (map (@tl R) (mrows D))) + r11)]]).
  { unfold numeric_precision, reg in HU.
    rewrite (extended_gram_2 D Hc) in HU. cbv zeta in HU.
    revert HU.
    generalize (dot (map (hd 0) (mrows D)) (map (hd 0) (mrows D)))
               (dot (map (hd 0) (mrows D)) (map (hd 0) (map (@tl R) (mrows D))))
               (dot (map (hd 0) (map (@tl R) (mrows D))) (map (hd 0) (mrows D)))
               (dot (map (hd 0) (map (@tl R) (mrows D)))
                    (map (hd 0) (map (@tl R) (mrows D)))).
    intros g00 g01 g10 g11 HU.
    cbv [broadcast Numeric.of_matrix Numeric.to_matrix ndim shape data
         Numeric.nrows Numeric.ncols Numeric.mrows length Nat.max pad repeat
         Nat.sub app compatible dims_agree Nat.eqb orb andb zipWith bdim bdata
         flat_map seq slice firstn skipn Nat.mul Nat.add product fold_right
         concat bind chunks map Numeric.add extended fadd] in HU.
    injection HU as <-. reflexivity. }
  subst U.
  change (Numeric.ncols (finite_matrix D)) with (ncols D) in Hrun.
  change (Numeric.mrows (finite_matrix D)) with (map (map Fin) (mrows D)) in Hrun.
  change (Numeric.nrows (finite_matrix D))
    with (length (map (map Fin) (mrows D))) in Hrun.
  rewrite Hc, extended_transpose in Hrun.
  cbn [transpose map combine Numeric.mrows] in Hrun.
  destruct (@extended_two_by_two_first
              (dot (map (hd 0) (mrows D))
                   (map (hd 0) (map (@tl R) (mrows D))) + r01)
              (dot (map (hd 0) (map (@tl R) (mrows D)))
                   (map (hd 0) (mrows D)) + r10)
              _
              (map (hd 0) (mrows D))
              (map (hd 0) (map (@tl R) (mrows D))) Ha)
    as (x0 & x1 & HX & Hzero).
  rewrite HX in Hrun. destruct Hrun as (var & Hrun).
  rewrite length_map in Hrun. fold (nrows D) in Hrun.
  eexists. exists var. rewrite Hrun. do 3 f_equal.
  cbn [map]. f_equal.
  destruct (extended_stretch_finite (nrows D) d) as (w & ->).
  apply extended_dot_zeros. apply extended_stretch_zeros. exact Hzero.
Qed.

(** * Outcomes that depend on the numbers *)

(** ** A precision that is not symmetric *)

(** Only the lower triangle of [[1, 5], [0, 1]] is read: the factor is
    that of the identity. *)
Lemma cholesky_lower_triangle :
  linalg_cholesky (mk_matrix 2 [[1; 5]; [0; 1]])
  = Ok (mk_matrix 2 [[1; 0]; [0; 1]]).
Proof.
  unfold linalg_cholesky; simpl.
  destruct (Rlt_dec 0 1) as [_|H]; [|exfalso; lra].
  rewrite sqrt_1.
  replace (1 - 0 / 1 * (0 / 1)) with 1 by field.
  destruct (Rlt_dec 0 1) as [_|H]; [|exfalso; lra].
  rewrite sqrt_1. unfold zeros; simpl.
  replace (0 / 1) with 0 by field. reflexivity.
Qed.

Lemma solve_identity_2 :
  linalg_solve (mk_matrix 2 [[1; 0]; [0; 1]]) (mk_matrix 2 [[1; 0]; [0; 1]])
  = Ok (mk_matrix 2 [[1; 0]; [0; 1]]).
Proof.
  set (a := mk_matrix 2 [[1; 0]; [0; 1]]).
  assert (Ha : wf_matrix a) by (repeat constructor).
  assert (Hns : nonsingular (nrows a) (mrows a)).
  { intros v Hv H. destruct v as [|v1 [|v2 [|]]]; try discriminate.
    simpl in H. apply Forall_cons_iff in H. destruct H as [H1 H].
    apply Forall_cons_iff in H. destruct H as [H2 _].
    simpl in H1, H2. unfold zeros; simpl. repeat (f_equal; try lra). }
  destruct (@linalg_solve_complete a a Ha Ha eq_refl eq_refl Hns) as [X HX].
  rewrite HX. f_equal.
  apply (@linalg_solve_unique a a Ha Ha eq_refl eq_refl [[1; 0]; [0; 1]] X HX).
  - reflexivity.
  - repeat constructor.
  - cbv [matmul map lc vadd scale zeros repeat zipWith mrows ncols a].
    repeat (f_equal; try lra).
Qed.

Lemma sample_lower_triangle :
  sample_coef_posterior (mk_ndarray [2%nat] [0; 0])
    (mk_ndarray [2%nat; 2%nat] [1; 5; 0; 1]) 2 unit_draws
  = Ok (mk_ndarray [2%nat; 2%nat] [1; 0; 0; 1],
        mk_rng (draws unit_draws) 4).
Proof.
  unfold sample_coef_posterior.
  cbn [atleast_2d shape data unpack2 bind of_matrix mrows ncols
       nrows length concat app reshape size product fold_right Nat.mul Nat.eqb
       np_zeros existsb Z.ltb Z.compare Z.of_nat Pos.of_succ_nat Pos.succ orb
       map Z.to_nat Pos.to_nat Pos.iter_op Nat.add repeat seq for_range].
  unfold sample_voxel.
  cbn [randn unit_draws draws position Nat.mul Nat.add seq map Nat.eqb orb].
  change (index3 _ 0) with (mk_matrix 2 [[1; 5]; [0; 1]]).
  rewrite cholesky_lower_triangle. cbn [bind].
  change (to_matrix _) with (mk_matrix 2 [[1; 0]; [0; 1]]).
  rewrite solve_identity_2. cbn [bind].
  simpl. unfold squeeze. cbn [shape data].
  change (Pos.to_nat 1) with 1%nat. change (Pos.to_nat 2) with 2%nat.
  cbn [filter Nat.eqb negb]. do 3 f_equal. repeat (f_equal; try lra).
Qed.

Lemma upper_entry_not_positive_definite :
  ~ positive_definite 2 [[1; 5]; [0; 1]].
Proof.
  intro H. specialize (H [1; -1] eq_refl).
  unfold quad, zeros in H; simpl in H.
  assert (0 < 1 * (1 * 1 + (5 * -1 + 0)) + (-1 * (0 * 1 + (1 * -1 + 0)) + 0)).
  { apply H. intro E. injection E as E _. lra. }
  lra.
Qed.

Lemma singular_2x2 :
  symmetric [[2; 2]; [2; 2]] /\ ~ positive_definite 2 [[2; 2]; [2; 2]].
Proof.
  split.
  - intros i j.
    destruct i as [|[|i]], j as [|[|j]]; simpl; auto;
      try (destruct i; reflexivity); try (destruct j; reflexivity).
    destruct i, j; reflexivity.
  - intro H. specialize (H [1; -1] eq_refl).
    unfold quad, zeros in H; simpl in H.
    assert (0 < 1 * (2 * 1 + (2 * -1 + 0)) + (-1 * (2 * 1 + (2 * -1 + 0)) + 0)).
    { apply H. intro E. injection E as E _. lra. }
    lra.
Qed.

(** ** float64 *)

Section Float64.

Import PrimFloat FloatOps FloatAxioms SpecFloat.

(** A finite number is a zero or has a mantissa and an exponent. *)
Lemma finite_cases (x : PrimFloat.float) :
  is_finite x = true ->
  (exists s, Prim2SF x = S754_zero s)
  \/ (exists s m e, Prim2SF x = S754_finite s m e).
Proof.
  unfold is_finite, is_nan, is_infinity.
  rewrite !eqb_spec, abs_spec.
  destruct (Prim2SF x) as [s| s | |s m e]; intro H.
  - left. exists s. reflexivity.
  - exfalso. destruct s; vm_compute in H; discriminate.
  - exfalso. vm_compute in H. discriminate.
  - right. exists s, m, e. reflexivity.
Qed.

(** C4, amended.  Without rounding, for every design with two coefficients
    and every vector of finite observations: when the regularization
    matrix is finite but for [+inf] on the diagonal of one coefficient and
    the diagonal entry of the other coefficient in the regularized Gram
    matrix is not zero, the call returns, and the component of the
    posterior mean for the coefficient of the infinite entry is zero.
    In float64, for the design [[1, 0], [1, 1], [1, 2]] and the
    regularization matrix diag(0, inf), the call returns for every vector
    of three finite observations, and the second component of the mean is
    a zero: the row of the pseudo-inverse of that coefficient is
    [-0, 0, 0].  For the observations [1, 3, 5] the mean is [3, 0] and the
    residual variance is 4. *)
Theorem C4_infinite_regularization (D : matrix) (d : vec) (r s t : R)
    (y0 y1 y2 : PrimFloat.float) :
  wf_matrix D -> ncols D = 2%nat -> length d = nrows D ->
  is_finite y0 = true -> is_finite y1 = true -> is_finite y2 = true ->
  let c0 := map (hd 0) (mrows D) in
  let c1 := map (hd 0) (map (@tl R) (mrows D)) in
  let design := Numeric.mk_matrix 2 [[1; 0]; [1; 1]; [1; 2]]%float in
  let regularization := Numeric.mk_matrix 2 [[0; 0]; [0; infinity]]%float in
  (dot c0 c0 + r <> 0 ->
   exists c var,
     Numeric.probabilistic_least_squares (finite_matrix D)
       (mk_ndarray [nrows D] (map Fin d))
       (Some (Numeric.mk_matrix 2 [[Fin r; Fin s]; [Fin t; PInf]])) false
     = Ok (Numeric.Mean_Variance (mk_ndarray [2%nat] [c; Fin 0])
             (mk_ndarray [] [var])))
  /\ (dot c1 c1 + r <> 0 ->
      exists c var,
        Numeric.probabilistic_least_squares (finite_matrix D)
          (mk_ndarray [nrows D] (map Fin d))
          (Some (Numeric.mk_matrix 2 [[PInf; Fin s]; [Fin t; Fin r]])) false
        = Ok (Numeric.Mean_Variance (mk_ndarray [2%nat] [Fin 0; c])
                (mk_ndarray [] [var])))
  /\ (exists c var,
        Numeric.probabilistic_least_squares design
          (mk_ndarray [3%nat] [y0; y1; y2]) (Some regularization) false
        = Ok (Numeric.Mean_Variance
                (mk_ndarray [2%nat]
                   [(0 + 1 / 3 * y0 + 1 / 3 * y1 + 1 / 3 * y2)%float; c])
                (mk_ndarray [] [var]))
        /\ is_zero c = true)
  /\ Numeric.probabilistic_least_squares design
       (mk_ndarray [3%nat] [1; 3; 5]%float) (Some regularization) false
     = Ok (Numeric.Mean_Variance (mk_ndarray [2%nat] [3; 0]%float)
             (mk_ndarray [] [4%float])).
Proof.
  intros HD Hc Hd H0 H1 H2 c0 c1 design regularization.
  split; [|split; [|split]].
  - intro Ha.
    apply (@infinite_regularization_second_coefficient D d r s t HD Hc Hd Ha).
  - intro Ha.
    apply (@infinite_regularization_first_coefficient D d s t r HD Hc Hd Ha).
  - do 2 eexists. split.
    + vm_compute. reflexivity.
    + unfold is_zero. rewrite eqb_spec, !add_spec, !mul_spec.
      destruct (finite_cases y0 H0) as [(s0 & E0) | (s0 & m0 & e0 & E0)];
      destruct (finite_cases y1 H1) as [(s1 & E1) | (s1 & m1 & e1 & E1)];
      destruct (finite_cases y2 H2) as [(s2 & E2) | (s2 & m2 & e2 & E2)];
      rewrite E0, E1, E2; destruct s0, s1, s2; reflexivity.
  - vm_compute. reflexivity.
Qed.

Lemma C4_infinite_regularization_witness :
  let design := Numeric.mk_matrix 2 [[1; 0]; [1; 1]; [1; 2]]%float in
  let regularization := Numeric.mk_matrix 2 [[0; 0]; [0; infinity]]%float in
  (exists c var,
     Numeric.probabilistic_least_squares (finite_matrix test_design)
       (mk_ndarray [3%nat] [Fin 1; Fin 3; Fin 5])
       (Some (Numeric.mk_matrix 2 [[Fin 0; Fin 0]; [Fin 0; PInf]])) false
     = Ok (Numeric.Mean_Variance (mk_ndarray [2%nat] [c; Fin 0])
             (mk_ndarray [] [var])))
  /\ (exists c var,
        Numeric.probabilistic_least_squares (finite_matrix test_design)
          (mk_ndarray [3%nat] [Fin 1; Fin 3; Fin 5])
          (Some (Numeric.mk_matrix 2 [[PInf; Fin 0]; [Fin 0; Fin 0]])) false
        = Ok (Numeric.Mean_Variance (mk_ndarray [2%nat] [Fin 0; c])
                (mk_ndarray [] [var])))
  /\ (exists c var,
        Numeric.probabilistic_least_squares design
          (mk_ndarray [3%nat] [2; 0; 7]%float) (Some regularization) false
        = Ok (Numeric.Mean_Variance
                (mk_ndarray [2%nat]
                   [(0 + 1 / 3 * 2 + 1 / 3 * 0 + 1 / 3 * 7)%float; c])
                (mk_ndarray [] [var]))
        /\ is_zero c = true)
  /\ Numeric.probabilistic_least_squares design
       (mk_ndarray [3%nat] [1; 3; 5]%float) (Some regularization) false
     = Ok (Numeric.Mean_Variance (mk_ndarray [2%nat] [3; 0]%float)
             (mk_ndarray [] [4%float])).
Proof.
  destruct (@C4_infinite_regularization test_design [1; 3; 5] 0 0 0 2 0 7
              test_design_wf eq_refl eq_refl eq_refl eq_refl eq_refl)
    as (Ha & Hb & Hc & Hd).
  split; [|split; [|split]].
  - apply Ha. cbn. lra.
  - apply Hb. cbn. lra.
  - exact Hc.
  - exact Hd.
Defined.

(** C4 as stated fails in float64.  With three coefficients, the design
    [[1, 0, 2], [0, 1, 0]] and the regularization diag(0, 0, inf), the
    row of the infinite entry has the largest element of the first column
    and becomes the first pivot row: the elimination computes [0 * inf],
    and every component of the mean is NaN, that of the third coefficient
    included.  And an infinite observation makes the component NaN for
    the design and the regularization of the claim. *)
Lemma C4_pivoting_counterexample :
  (let design := Numeric.mk_matrix 3 [[1; 0; 2]; [0; 1; 0]]%float in
   let regularization :=
     Numeric.mk_matrix 3 [[0; 0; 0]; [0; 0; 0]; [0; 0; infinity]]%float in
   Numeric.probabilistic_least_squares design
     (mk_ndarray [2%nat] [1; 1]%float) (Some regularization) false
   = Ok (Numeric.Mean_Variance (mk_ndarray [3%nat] [nan; nan; nan])
           (mk_ndarray [] [nan])))
  /\ (let design := Numeric.mk_matrix 2 [[1; 0]; [1; 1]; [1; 2]]%float in
      let regularization := Numeric.mk_matrix 2 [[0; 0]; [0; infinity]]%float in
      Numeric.probabilistic_least_squares design
        (mk_ndarray [3%nat] [infinity; 3; 5]%float) (Some regularization) false
      = Ok (Numeric.Mean_Variance (mk_ndarray [2%nat] [infinity; nan])
              (mk_ndarray [] [nan]))).
Proof. split; vm_compute; reflexivity. Qed.

(** C5 as stated fails in float64.  The design
    [[1, 2, 3], [4, 5, 6], [7, 8, 9]] is rank deficient (its columns
    satisfy [c1 - 2 c2 + c3 = 0]), but the elimination of its Gram matrix
    ends with a rounded pivot that is not zero: the call returns a mean of
    finite numbers and a variance. *)
Lemma C5_rounded_pivot_counterexample :
  rank_deficient (mk_matrix 3 [[1; 2; 3]; [4; 5; 6]; [7; 8; 9]])
  /\ exists mean var,
       Numeric.probabilistic_least_squares
         (Numeric.mk_matrix 3 [[1; 2; 3]; [4; 5; 6]; [7; 8; 9]]%float)
         (mk_ndarray [3%nat] [1; 2; 3]%float) None false
       = Ok (Numeric.Mean_Variance mean var)
       /\ forallb is_finite (data mean) = true.
Proof.
  split.
  - exists [1; -2; 1]. split; [reflexivity|]. split.
    + unfold zeros; simpl. intro H. injection H as H _. lra.
    + unfold zeros; simpl. repeat (f_equal; try lra).
  - do 2 eexists. split; vm_compute; reflexivity.
Qed.

(** C6 as stated fails twice.  The precision [[1, 5], [0, 1]] is not
    positive definite, but its lower triangle is that of the identity,
    and samples are returned.  And in float64 the singular precision
    [[2, 2], [2, 2]] passes: the second pivot, [2 - (2 / sqrt 2)^2], is
    rounded to a positive number. *)
Lemma C6_accepted_precision_counterexample :
  (~ positive_definite 2 [[1; 5]; [0; 1]]
   /\ exists samples g',
        sample_coef_posterior (mk_ndarray [2%nat] [0; 0])
          (mk_ndarray [2%nat; 2%nat] [1; 5; 0; 1]) 2 unit_draws
        = Ok (samples, g'))
  /\ (symmetric [[2; 2]; [2; 2]] /\ ~ positive_definite 2 [[2; 2]; [2; 2]]
      /\ exists samples g',
           Numeric.sample_coef_posterior (mk_ndarray [2%nat] [0; 0]%float)
             (mk_ndarray [2%nat; 2%nat] [2; 2; 2; 2]%float) 1
             (Numeric.mk_rng (fun _ => 1%float) 0)
           = Ok (samples, g')).
Proof.
  split.
  - split; [exact upper_entry_not_positive_definite|].
    do 2 eexists. exact sample_lower_triangle.
  - destruct singular_2x2 as [Hs Hn]. split; [exact Hs|]. split; [exact Hn|].
    do 2 eexists. vm_compute. reflexivity.
Qed.

(** Where no rounding intervenes float64 meets the same zero pivot, or
    the same negative pivot, as the exact elimination. *)
Lemma float64_exact_pivots :
  Numeric.probabilistic_least_squares
    (Numeric.mk_matrix 2 [[1; 2]; [2; 4]]%float)
    (mk_ndarray [2%nat] [1; 1]%float) None true
  = Raise (LinAlgError Singular_matrix)
  /\ Numeric.sample_coef_posterior (mk_ndarray [2%nat] [0; 0]%float)
       (mk_ndarray [2%nat; 2%nat] [1; 2; 2; 1]%float) 3
       (Numeric.mk_rng (fun _ => 0%float) 0)
     = Raise (LinAlgError Matrix_is_not_positive_definite).
Proof. split; vm_compute; reflexivity. Qed.

End Float64.
